(** * argflags: binding command-line flags to the fields of a struct

    A shallow embedding of the Go package [argflags] (files [argflags.go]
    and the flag-field file defining [setValue], [findFieldIndex], ...) and
    the properties of its behaviour.

    Conventions of the embedding.
    - A Go [string] is a [string] of the Standard Library, one [ascii] per byte.
    - A Go [[]string] is a [list string]; the nil slice is [[]].
    - A [reflect.Type] is an [rtype], a finite tree: recursive type
      declarations are outside the model.
    - A [reflect.Value] that holds the record is a type with the contents
      found there ([Value]); one that designates a field of the record is
      the field's type with its index path ([flagField]).  The record is
      threaded through the functions that mutate it.
    - A Go function that can panic returns in [go]; a Go [error] result is an
      [option error] ([None] is [nil]).
    - Pointers are owned boxes ([DPtr]): two pointer fields never share a
      pointee. *)

From Stdlib Require Import String Ascii List ZArith Bool Lia Arith.
From Stdlib Require Import DecimalString.
Import ListNotations.

Local Open Scope string_scope.
Local Open Scope list_scope.

Set Implicit Arguments.
Set Warnings "-register-all,-notation-for-abbreviation".

(* ===================================================================== *)
(** ** Panics *)

(** A computation that ends with a value or with a panic. *)
Inductive go (A : Type) : Type :=
| Val (a : A)
| Panic (msg : string).

Arguments Val {A} a.
Arguments Panic {A} msg.

Definition bind {A B : Type} (m : go A) (k : A -> go B) : go B :=
  match m with
  | Val a => k a
  | Panic msg => Panic msg
  end.

Notation "x <- m ;; k" := (bind m (fun x => k))
  (at level 61, m at next level, right associativity).
Notation "' pat <- m ;; k" := (bind m (fun x => match x with pat => k end))
  (at level 61, pat pattern, m at next level, right associativity).

(* ===================================================================== *)
(** ** Package [strings] *)

Module strings.

(** [strings.HasPrefix(s, prefix)]. *)
Fixpoint HasPrefix (s prefix : string) {struct prefix} : bool :=
  match prefix with
  | EmptyString => true
  | String p prefix' =>
      match s with
      | String c s' => Ascii.eqb c p && HasPrefix s' prefix'
      | EmptyString => false
      end
  end.

Arguments HasPrefix : simpl never.

Fixpoint IndexByte (cutset : string) (c : ascii) : bool :=
  match cutset with
  | EmptyString => false
  | String d cutset' => Ascii.eqb c d || IndexByte cutset' c
  end.

(** [strings.TrimLeft(s, cutset)]: [s] without its leading bytes that
    occur in [cutset]. *)
Fixpoint TrimLeft (s cutset : string) : string :=
  match s with
  | EmptyString => EmptyString
  | String c s' => if IndexByte cutset c then TrimLeft s' cutset else s
  end.

(** [strings.Split(s, sep)] for a separator of one byte, which is how the
    package calls it (with [","]).  The result is never empty: the empty
    string splits into one empty string. *)
Fixpoint Split (s : string) (sep : ascii) : list string :=
  match s with
  | EmptyString => [EmptyString]
  | String c s' =>
      if Ascii.eqb c sep then EmptyString :: Split s' sep
      else match Split s' sep with
           | h :: t => String c h :: t
           | [] => [String c EmptyString]
           end
  end.

(** [strings.Join(elems, sep)]. *)
Fixpoint Join (elems : list string) (sep : string) : string :=
  match elems with
  | [] => EmptyString
  | [e] => e
  | e :: rest => e ++ sep ++ Join rest sep
  end.

Definition isUpper (c : ascii) : bool :=
  (65 <=? nat_of_ascii c)%nat && (nat_of_ascii c <=? 90)%nat.

Definition toLower (c : ascii) : ascii :=
  if isUpper c then ascii_of_nat (nat_of_ascii c + 32) else c.

(** [strings.EqualFold(s, t)] for strings of ASCII bytes, where it is the
    comparison up to the case of the letters [A]..[Z]: two bytes are
    equal under folding when they are equal or are the upper and lower
    case of one letter.  Go folds the runes outside ASCII by the simple
    case folding of Unicode (the long s with [s], the Kelvin sign with
    [k]); that folding is not represented, and a byte from 128 on is equal
    to itself only.  What the development says on the case of names is
    said of ASCII names and of types whose field names and tags are
    ASCII. *)
Fixpoint EqualFold (s t : string) : bool :=
  match s, t with
  | EmptyString, EmptyString => true
  | String a s', String b t' =>
      Ascii.eqb (toLower a) (toLower b) && EqualFold s' t'
  | _, _ => false
  end.

Definition isLower (c : ascii) : bool :=
  (97 <=? nat_of_ascii c)%nat && (nat_of_ascii c <=? 122)%nat.

Definition toUpper (c : ascii) : ascii :=
  if isLower c then ascii_of_nat (nat_of_ascii c - 32) else c.

Fixpoint mapBytes (f : ascii -> ascii) (s : string) : string :=
  match s with
  | EmptyString => EmptyString
  | String c s' => String (f c) (mapBytes f s')
  end.

(** [strings.ToLower] and [strings.ToUpper] for strings of ASCII bytes:
    the letters [A]..[Z] and [a]..[z] change, every other byte stays. *)
Definition ToLower (s : string) : string := mapBytes toLower s.
Definition ToUpper (s : string) : string := mapBytes toUpper s.

End strings.

(* ===================================================================== *)
(** ** Errors *)

(** The two shapes of [error] the package meets: a message made by
    [fmt.Errorf] (or returned by a field's own [UnmarshalText]) and the
    [*strconv.NumError] of the number parsers. *)
Inductive error : Type :=
| errorString (msg : string)
| NumError (Func Num Err : string).

(* ===================================================================== *)
(** ** Package [strconv] *)

Module strconv.

Definition ErrSyntax : string := "invalid syntax".
Definition ErrRange : string := "value out of range".

(** [strconv.IntSize] on the 64-bit platforms. *)
Definition IntSize : Z := 64.

(** [strconv.Itoa]. *)
Definition Itoa (z : Z) : string := NilZero.string_of_int (Z.to_int z).

Definition syntaxError (fn str : string) : error := NumError fn str ErrSyntax.
Definition rangeError (fn str : string) : error := NumError fn str ErrRange.
Definition baseError (fn str : string) (base : Z) : error :=
  NumError fn str ("invalid base " ++ Itoa base).
Definition bitSizeError (fn str : string) (bitSize : Z) : error :=
  NumError fn str ("invalid bit size " ++ Itoa bitSize).

(** [strconv.Quote]: the string between double quotes, with a backslash
    before each double quote and each backslash.  The escapes that Go
    writes for control bytes and for bytes outside ASCII are not
    represented; the function is used in the messages of [NumError]
    only. *)
Definition doubleQuote : ascii := ascii_of_nat 34.
Definition backslash : ascii := ascii_of_nat 92.

Fixpoint quoteBytes (s : string) : string :=
  match s with
  | EmptyString => EmptyString
  | String c s' =>
      if (Ascii.eqb c doubleQuote || Ascii.eqb c backslash)%bool
      then String backslash (String c (quoteBytes s'))
      else String c (quoteBytes s')
  end.

Definition Quote (s : string) : string :=
  String doubleQuote (quoteBytes s ++ String doubleQuote EmptyString).

(** [strconv.FormatBool]. *)
Definition FormatBool (b : bool) : string := if b then "true" else "false".

(** [strconv.ParseBool]: the twelve literals, anything else is a syntax
    error. *)
Definition ParseBool (str : string) : bool * option error :=
  if (String.eqb str "1" || String.eqb str "t" || String.eqb str "T"
      || String.eqb str "TRUE" || String.eqb str "true"
      || String.eqb str "True")%bool
  then (true, None)
  else if (String.eqb str "0" || String.eqb str "f" || String.eqb str "F"
           || String.eqb str "FALSE" || String.eqb str "false"
           || String.eqb str "False")%bool
  then (false, None)
  else (false, Some (syntaxError "ParseBool" str)).

(** [lower(c)] of strconv: [c | ('x' - 'X')]. *)
Definition lower (c : ascii) : N := N.lor (N_of_ascii c) 32.

Definition byte (c : ascii) : N := N_of_ascii c.

(** The digit a byte stands for, if any: [0]..[9], then the letters of
    either case for 10..35. *)
Definition digitVal (c : ascii) : option Z :=
  if ((48 <=? byte c) && (byte c <=? 57))%N then Some (Z.of_N (byte c) - 48)%Z
  else if ((97 <=? lower c) && (lower c <=? 122))%N
       then Some (Z.of_N (lower c) - 97 + 10)%Z
       else None.

(** [underscoreOK]: underscores only between digits (or after a base
    prefix).  [saw] is the class of the last byte seen. *)
Inductive sawClass := sawStart | sawDigit | sawUnderscore | sawOther.

Fixpoint underscoreScan (hex : bool) (saw : sawClass) (s : string) : bool :=
  match s with
  | EmptyString => match saw with sawUnderscore => false | _ => true end
  | String c s' =>
      if (((48 <=? byte c) && (byte c <=? 57))
          || (hex && (97 <=? lower c) && (lower c <=? 102)))%N%bool
      then underscoreScan hex sawDigit s'
      else if Ascii.eqb c "_"
           then match saw with
                | sawDigit => underscoreScan hex sawUnderscore s'
                | _ => false
                end
           else match saw with
                | sawUnderscore => false
                | _ => underscoreScan hex sawOther s'
                end
  end.

Definition underscoreOK (s : string) : bool :=
  let s := match s with
           | String c s' =>
               if (Ascii.eqb c "-" || Ascii.eqb c "+")%bool then s' else s
           | EmptyString => s
           end in
  match s with
  | String c0 (String c1 s') =>
      if (Ascii.eqb c0 "0"
          && ((lower c1 =? 98) || (lower c1 =? 111) || (lower c1 =? 120)))%N%bool
      then underscoreScan (lower c1 =? 120)%N sawDigit s'
      else underscoreScan false sawStart s
  | _ => underscoreScan false sawStart s
  end.

(** The digit loop of [ParseUint].  The two overflow tests of the source
    ([n >= cutoff], then [n1 < n || n1 > maxVal] on 64-bit words) are
    together the test [n * base + d > maxVal] on unbounded integers. *)
Fixpoint parseDigits (s0 : string) (base maxVal : Z) (base0 : bool)
         (s : string) (n : Z) (underscores : bool) : Z * option error :=
  match s with
  | EmptyString =>
      if (underscores && negb (underscoreOK s0))%bool
      then (0%Z, Some (syntaxError "ParseUint" s0))
      else (n, None)
  | String c s' =>
      if (Ascii.eqb c "_" && base0)%bool
      then parseDigits s0 base maxVal base0 s' n true
      else match digitVal c with
           | None => (0%Z, Some (syntaxError "ParseUint" s0))
           | Some d =>
               if (base <=? d)%Z then (0%Z, Some (syntaxError "ParseUint" s0))
               else if (maxVal <? n * base + d)%Z
                    then (maxVal, Some (rangeError "ParseUint" s0))
                    else parseDigits s0 base maxVal base0 s' (n * base + d)%Z
                                     underscores
           end
  end.

(** The base and the digits left after the prefix that base 0 reads. *)
Definition basePrefix (s : string) : Z * string :=
  match s with
  | String c0 rest =>
      if Ascii.eqb c0 "0"
      then match rest with
           | String c1 (String c2 rest') =>
               if (lower c1 =? 98)%N then (2%Z, String c2 rest')
               else if (lower c1 =? 111)%N then (8%Z, String c2 rest')
               else if (lower c1 =? 120)%N then (16%Z, String c2 rest')
               else (8%Z, rest)
           | _ => (8%Z, rest)
           end
      else (10%Z, s)
  | EmptyString => (10%Z, s)
  end.

(** [strconv.ParseUint(s, base, bitSize)]. *)
Definition ParseUint (s : string) (base bitSize : Z) : Z * option error :=
  if String.eqb s EmptyString then (0%Z, Some (syntaxError "ParseUint" s))
  else
    let s0 := s in
    let base0 := (base =? 0)%Z in
    let checked :=
      if ((2 <=? base) && (base <=? 36))%Z%bool then Some (base, s)
      else if base0 then Some (basePrefix s)
      else None in
    match checked with
    | None => (0%Z, Some (baseError "ParseUint" s0 base))
    | Some (base, s) =>
        if ((bitSize <? 0) || (64 <? bitSize))%Z%bool
        then (0%Z, Some (bitSizeError "ParseUint" s0 bitSize))
        else
          let bitSize := if (bitSize =? 0)%Z then IntSize else bitSize in
          let maxVal := (2 ^ bitSize - 1)%Z in
          parseDigits s0 base maxVal base0 s 0%Z false
    end.

(** [strconv.ParseInt(s, base, bitSize)]. *)
Definition ParseInt (s : string) (base bitSize : Z) : Z * option error :=
  if String.eqb s EmptyString then (0%Z, Some (syntaxError "ParseInt" s))
  else
    let s0 := s in
    let '(neg, s) :=
      match s with
      | String c s' =>
          if Ascii.eqb c "+" then (false, s')
          else if Ascii.eqb c "-" then (true, s')
          else (false, s)
      | EmptyString => (false, s)
      end in
    match ParseUint s base bitSize with
    | (un, Some (NumError _ _ Err as err)) =>
        if String.eqb Err ErrRange
        then
          let bitSize := if (bitSize =? 0)%Z then IntSize else bitSize in
          let cutoff := (2 ^ (bitSize - 1))%Z in
          if (negb neg && (cutoff <=? un))%Z%bool
          then ((cutoff - 1)%Z, Some (rangeError "ParseInt" s0))
          else if (neg && (cutoff <? un))%Z%bool
               then ((- cutoff)%Z, Some (rangeError "ParseInt" s0))
               else ((if neg then - un else un)%Z, None)
        else (0%Z, Some (NumError "ParseInt" s0 Err))
    | (un, Some err) => (0%Z, Some err)
    | (un, None) =>
        let bitSize := if (bitSize =? 0)%Z then IntSize else bitSize in
        let cutoff := (2 ^ (bitSize - 1))%Z in
        if (negb neg && (cutoff <=? un))%Z%bool
        then ((cutoff - 1)%Z, Some (rangeError "ParseInt" s0))
        else if (neg && (cutoff <? un))%Z%bool
             then ((- cutoff)%Z, Some (rangeError "ParseInt" s0))
             else ((if neg then - un else un)%Z, None)
    end.

(** [strconv.Atoi(s)]: [ParseInt(s, 10, 0)] with the error renamed (the
    fast path of the source for short inputs computes the same result). *)
Definition Atoi (s : string) : Z * option error :=
  match ParseInt s 10 0 with
  | (i64, Some (NumError _ Num Err)) => (i64, Some (NumError "Atoi" Num Err))
  | r => r
  end.

End strconv.

(* ===================================================================== *)
(** ** Package [reflect] *)

Module reflect.

(** [reflect.Kind], in the order of its declaration. *)
Inductive Kind : Set :=
| Invalid | Bool | Int | Int8 | Int16 | Int32 | Int64
| Uint | Uint8 | Uint16 | Uint32 | Uint64 | Uintptr
| Float32 | Float64 | Complex64 | Complex128
| Array | Chan | Func | Interface | Map | Pointer | Slice
| String | Struct | UnsafePointer.

(** [reflect.Ptr] is the old name of [reflect.Pointer]. *)
Definition Ptr : Kind := Pointer.

Definition code (k : Kind) : nat :=
  match k with
  | Invalid => 0 | Bool => 1 | Int => 2 | Int8 => 3 | Int16 => 4
  | Int32 => 5 | Int64 => 6 | Uint => 7 | Uint8 => 8 | Uint16 => 9
  | Uint32 => 10 | Uint64 => 11 | Uintptr => 12 | Float32 => 13
  | Float64 => 14 | Complex64 => 15 | Complex128 => 16 | Array => 17
  | Chan => 18 | Func => 19 | Interface => 20 | Map => 21 | Pointer => 22
  | Slice => 23 | String => 24 | Struct => 25 | UnsafePointer => 26
  end.

Definition Kind_eqb (a b : Kind) : bool := Nat.eqb (code a) (code b).

(** A struct tag as the list of its [key:"value"] pairs, in order. *)
Definition StructTag : Type := list (string * string).

(** [StructTag.Get(key)]: the value of the first pair with that key, the
    empty string when there is none. *)
Fixpoint Get (tag : StructTag) (key : string) : string :=
  match tag with
  | [] => EmptyString
  | (k, v) :: tag' => if String.eqb k key then v else Get tag' key
  end.

(** [reflect.StructField], over the representation [T] of types. *)
Record StructField (T : Type) : Type := mkField
  { Name : string;
    PkgPath : string;
    Type_ : T;
    Tag : StructTag }.

(** [StructField.IsExported()]. *)
Definition IsExported {T : Type} (f : StructField T) : bool :=
  String.eqb (PkgPath f) EmptyString.

(** [reflect.Type].  [name] is [Some n] for a defined type ([type n ...])
    and [None] for a predeclared type or a type literal.  [TBasic] stands
    for the types of every kind whose structure the package never looks
    into (all kinds but Pointer, Slice, Struct and Interface). *)
Inductive rtype : Type :=
| TBasic (name : option string) (kind : Kind)
| TPtr (name : option string) (elem : rtype)
| TSlice (name : option string) (elem : rtype)
| TStruct (name : option string) (fields : list (StructField rtype))
| TInterface (name : option string).

(** [Type.Kind()]. *)
Definition kind (t : rtype) : Kind :=
  match t with
  | TBasic _ k => k
  | TPtr _ _ => Pointer
  | TSlice _ _ => Slice
  | TStruct _ _ => Struct
  | TInterface _ => Interface
  end.

Definition typeName (t : rtype) : option string :=
  match t with
  | TBasic n _ | TPtr n _ | TSlice n _ | TStruct n _ | TInterface n => n
  end.

Definition kindName (k : Kind) : string :=
  match k with
  | Invalid => "invalid" | Bool => "bool" | Int => "int" | Int8 => "int8"
  | Int16 => "int16" | Int32 => "int32" | Int64 => "int64"
  | Uint => "uint" | Uint8 => "uint8" | Uint16 => "uint16"
  | Uint32 => "uint32" | Uint64 => "uint64" | Uintptr => "uintptr"
  | Float32 => "float32" | Float64 => "float64"
  | Complex64 => "complex64" | Complex128 => "complex128"
  | Array => "array" | Chan => "chan" | Func => "func"
  | Interface => "interface" | Map => "map" | Pointer => "ptr"
  | Slice => "slice" | String => "string" | Struct => "struct"
  | UnsafePointer => "unsafe.Pointer"
  end.

Definition isComposite (k : Kind) : bool :=
  match k with
  | Array | Chan | Func | Map | Invalid => true
  | _ => false
  end.

(** [Type.Name()]: the name of a defined or predeclared type, empty for a
    type literal. *)
Definition TypeName (t : rtype) : string :=
  match typeName t with
  | Some n => n
  | None =>
      match t with
      | TBasic _ UnsafePointer => "Pointer"
      | TBasic _ k => if isComposite k then EmptyString else kindName k
      | _ => EmptyString
      end
  end.

(** [Type.String()], used in one message only, which [ApplyTo] drops.
    The package qualifier of a defined type is taken to be part of its
    name; the field list of a struct literal and the parts of the types
    that [TBasic] stands for are abbreviated. *)
Fixpoint TypeString (t : rtype) : string :=
  match typeName t with
  | Some n => n
  | None =>
      match t with
      | TBasic _ k => kindName k
      | TPtr _ e => "*" ++ TypeString e
      | TSlice _ e => "[]" ++ TypeString e
      | TStruct _ _ => "struct {...}"
      | TInterface _ => "interface {}"
      end
  end.

(** A [float64] by its IEEE 754 bits ([math.Float64bits]); the package
    never computes with one. *)
Inductive float64 : Set := Float64frombits (b : Z).

(** The contents of a variable of some type.  Integers of every width
    are a [DInt]; a nil slice is the empty [DSlice]; an interface holds
    nothing or a value with its dynamic type; [DOpaque] stands for the
    contents of the kinds the package cannot set.  A pointer holds what
    it points to as contents of its own: two pointers to one variable, or
    a pointer to another field of the same record, are not represented,
    and nothing is said here of records with such sharing. *)
Inductive data : Type :=
| DBool (b : bool)
| DInt (i : Z)
| DFloat (f : float64)
| DString (s : string)
| DPtr (p : option data)
| DSlice (elems : list data)
| DStruct (fields : list data)
| DIface (dyn : option (rtype * data))
| DOpaque.

(** An [interface{}] value: nil or a dynamic type with its contents. *)
Definition iface : Type := option (rtype * data).

(** A [reflect.Value] that holds a whole variable: the zero Value
    ([None]) or a type with the contents found there. *)
Definition Value : Type := option (rtype * data).

(** [reflect.TypeOf(i)]: nil for the nil interface. *)
Definition TypeOf (i : iface) : option rtype :=
  match i with
  | Some (t, _) => Some t
  | None => None
  end.

(** [reflect.ValueOf(i)]. *)
Definition ValueOf (i : iface) : Value := i.

(** [reflect.Zero(t)], as contents. *)
Fixpoint Zero (t : rtype) : data :=
  match t with
  | TBasic _ k =>
      match k with
      | Bool => DBool false
      | Int | Int8 | Int16 | Int32 | Int64
      | Uint | Uint8 | Uint16 | Uint32 | Uint64 | Uintptr => DInt 0
      | Float32 | Float64 => DFloat (Float64frombits 0)
      | String => DString EmptyString
      | _ => DOpaque
      end
  | TPtr _ _ => DPtr None
  | TSlice _ _ => DSlice []
  | TStruct _ fields => DStruct (map (fun f => Zero (Type_ f)) fields)
  | TInterface _ => DIface None
  end.

(** [Value.Elem()]: what an interface holds or a pointer points to (the
    zero Value when nil); a panic on every other kind. *)
Definition Elem (v : Value) : go Value :=
  match v with
  | Some (TInterface _, DIface dyn) => Val dyn
  | Some (TPtr _ e, DPtr (Some d)) => Val (Some (e, d))
  | Some (TPtr _ e, DPtr None) => Val None
  | _ => Panic "reflect: call of reflect.Value.Elem on a Value without elements"
  end.

(** [Value.Kind()]: [Invalid] for the zero Value. *)
Definition ValueKind (v : Value) : Kind :=
  match v with
  | Some (t, _) => kind t
  | None => Invalid
  end.

(** [Value.Field(i)] of a struct: the type and the contents of its
    [i]-th field; a panic off a struct or out of range. *)
Definition Field (t : rtype) (v : data) (i : nat) : go (rtype * data) :=
  match t, v with
  | TStruct _ fields, DStruct ds =>
      match nth_error fields i, nth_error ds i with
      | Some f, Some d => Val (Type_ f, d)
      | _, _ => Panic "reflect: Field index out of range"
      end
  | _, _ => Panic "reflect: call of reflect.Value.Field on a non-struct Value"
  end.

Fixpoint replaceNth {A : Type} (l : list A) (i : nat) (x : A) : list A :=
  match l, i with
  | [], _ => []
  | _ :: l', O => x :: l'
  | a :: l', S i' => a :: replaceNth l' i' x
  end.

(** [v.Field(i).Set(x)] seen from the struct: its contents with the
    [i]-th field replaced. *)
Definition SetField (v : data) (i : nat) (x : data) : go data :=
  match v with
  | DStruct ds =>
      if (i <? length ds)%nat then Val (DStruct (replaceNth ds i x))
      else Panic "reflect: Field index out of range"
  | _ => Panic "reflect: call of reflect.Value.Field on a non-struct Value"
  end.

Definition optString_eqb (a b : option string) : bool :=
  match a, b with
  | Some x, Some y => String.eqb x y
  | None, None => true
  | _, _ => false
  end.

Fixpoint tag_eqb (a b : StructTag) : bool :=
  match a, b with
  | [], [] => true
  | (k, v) :: a', (k', v') :: b' =>
      String.eqb k k' && String.eqb v v' && tag_eqb a' b'
  | _, _ => false
  end.

(** Identity of types. *)
Fixpoint rtype_eqb (a b : rtype) {struct a} : bool :=
  match a, b with
  | TBasic n k, TBasic n' k' => optString_eqb n n' && Kind_eqb k k'
  | TPtr n e, TPtr n' e' => optString_eqb n n' && rtype_eqb e e'
  | TSlice n e, TSlice n' e' => optString_eqb n n' && rtype_eqb e e'
  | TStruct n fs, TStruct n' fs' =>
      optString_eqb n n'
      && (fix fields_eqb (l l' : list (StructField rtype)) : bool :=
            match l, l' with
            | [], [] => true
            | f :: r, f' :: r' =>
                String.eqb (Name f) (Name f')
                && String.eqb (PkgPath f) (PkgPath f')
                && tag_eqb (Tag f) (Tag f')
                && rtype_eqb (Type_ f) (Type_ f')
                && fields_eqb r r'
            | _, _ => false
            end) fs fs'
  | TInterface n, TInterface n' => optString_eqb n n'
  | _, _ => false
  end.

(** [Type.HasName()]: defined and predeclared types. *)
Definition HasName (t : rtype) : bool := negb (String.eqb (TypeName t) EmptyString).

Definition stripName (t : rtype) : rtype :=
  match t with
  | TBasic _ k => TBasic None k
  | TPtr _ e => TPtr None e
  | TSlice _ e => TSlice None e
  | TStruct _ fs => TStruct None fs
  | TInterface _ => TInterface None
  end.

(** [directlyAssignable(T, V)]: a value of type [V] can be stored in a
    variable of type [T] when the types are identical, or when one of
    them has no name and their underlying types are identical. *)
Definition directlyAssignable (T V : rtype) : bool :=
  rtype_eqb T V
  || (negb (HasName T && HasName V)
      && Kind_eqb (kind T) (kind V)
      && rtype_eqb (stripName T) (stripName V)).

(** [v.Set(x)] for a variable [v] of type [T]: the contents of [v]
    afterwards; a panic when [x] is the zero Value or its type is not
    assignable to [T].  The conversion of [x] to an interface type [T] is
    left out: the package never stores into a variable of Interface
    kind. *)
Definition Set_ (T : rtype) (x : Value) : go data :=
  match x with
  | None => Panic "reflect: call of reflect.Value.Set on zero Value"
  | Some (V, d) =>
      if directlyAssignable T V then Val d
      else Panic "reflect.Set: value is not assignable to the type of the variable"
  end.

End reflect.

(* ===================================================================== *)
(** ** Package [argflags] *)

Import reflect (rtype, data, StructField, float64, iface, Value).
Import reflect (TBasic, TPtr, TSlice, TStruct, TInterface).
Import reflect (DBool, DInt, DFloat, DString, DPtr, DSlice, DStruct, DIface, DOpaque).

Module argflags.

(** [type ArgFlags []string]. *)
Definition ArgFlags : Type := list string.

Definition FlagTagName : string := "flag".
Definition sliceDelimiter : ascii := ","%char.

(** [err.Error()]. *)
Definition Error (err : error) : string :=
  match err with
  | errorString msg => msg
  | NumError Func Num Err =>
      "strconv." ++ Func ++ ": parsing " ++ strconv.Quote Num ++ ": " ++ Err
  end.

(** [func (args ArgFlags) String() string]. *)
Definition String_ (args : ArgFlags) : string := strings.Join args " ".

(** [func (args ArgFlags) FlagNames() []string]. *)
Fixpoint FlagNames (args : ArgFlags) : list string :=
  match args with
  | [] => []
  | arg :: args' =>
      if negb (strings.HasPrefix arg "-") then FlagNames args'
      else strings.TrimLeft arg "-" :: FlagNames args'
  end.

(** [isStructPointer(t)]. *)
Definition isStructPointer (t : rtype) : bool :=
  match t with
  | TPtr _ elem => reflect.Kind_eqb (reflect.kind elem) reflect.Struct
  | _ => false
  end.

(** [isSubArgTag(tags)]. *)
Fixpoint isSubArgTag (tags : list string) : bool :=
  match tags with
  | [] => false
  | tag :: tags' => if String.eqb tag "+" then true else isSubArgTag tags'
  end.

(** [isNameInTag(name, tags)]. *)
Fixpoint isNameInTag (name : string) (tags : list string) : bool :=
  match tags with
  | [] => false
  | t :: tags' =>
      if (String.eqb t "omitempty" || String.eqb t "-" || String.eqb t "+")%bool
      then isNameInTag name tags'
      else if strings.EqualFold t name then true
           else isNameInTag name tags'
  end.

(** The first loop of [findFieldIndex], over the fields from position [i]
    on: [inl i] when the field at [i] matches ([return append(parents, i)]),
    [inr subArgIndexes] when the loop ends without a match, a panic when a
    field tagged [+] is neither a struct nor a pointer to one. *)
Fixpoint scanFields (name : string) (fields : list (StructField rtype))
         (i : nat) (subArgIndexes : list nat) : go (nat + list nat) :=
  match fields with
  | [] => Val (inr subArgIndexes)
  | f :: fields' =>
      if negb (reflect.IsExported f) then scanFields name fields' (S i) subArgIndexes
      else if strings.EqualFold name (reflect.Name f) then Val (inl i)
      else
        let tags := strings.Split (reflect.Get (reflect.Tag f) FlagTagName) ","%char in
        if isNameInTag name tags then Val (inl i)
        else if isSubArgTag tags then
          let fld := f in
          if (negb (isStructPointer (reflect.Type_ fld))
              && negb (reflect.Kind_eqb (reflect.kind (reflect.Type_ fld)) reflect.Struct))%bool
          then Panic "Field is tagged as a sub argument field '+', but is not a struct or pointer to a struct"
          else scanFields name fields' (S i) (subArgIndexes ++ [i])
        else scanFields name fields' (S i) subArgIndexes
  end.

(** The second loop of [findFieldIndex] ([for _, i := range
    subArgIndexes]), over the fields from position [i] on: the fields are
    visited in order and those whose position the first loop recorded are
    searched with [find], which is [findFieldIndex] itself. *)
Fixpoint rangeSubArgs (find : rtype -> list nat -> go (list nat))
         (parents subArgIndexes : list nat)
         (fields : list (StructField rtype)) (i : nat) : go (list nat) :=
  match fields with
  | [] => Val []
  | f :: fields' =>
      if existsb (Nat.eqb i) subArgIndexes then
        let p := parents ++ [i] in
        is_ <- find (reflect.Type_ f) p ;;
        if (0 <? length is_)%nat then Val is_
        else rangeSubArgs find parents subArgIndexes fields' (S i)
      else rangeSubArgs find parents subArgIndexes fields' (S i)
  end.

(** [findFieldIndex(name, t, parents)]; the nil result is [[]]. *)
Fixpoint findFieldIndex (name : string) (t : rtype) (parents : list nat)
  {struct t} : go (list nat) :=
  match t with
  | TPtr _ elem => findFieldIndex name elem parents
  | TStruct _ fields =>
      r <- scanFields name fields 0 [] ;;
      match r with
      | inl i => Val (parents ++ [i])
      | inr subArgIndexes =>
          rangeSubArgs (fun t p => findFieldIndex name t p)
                       parents subArgIndexes fields 0
      end
  | _ => Panic "reflect: NumField of non-struct type"
  end.

(** [ensureNotNil(v, index)]: the contents [v] of a struct of type [t]
    after every nil pointer met along [index] has been given a fresh zero
    pointee. *)
Fixpoint ensureNotNil (t : rtype) (v : data) (index : list nat) : go data :=
  match index with
  | [] => Val v
  | i :: index' =>
      ' (ft, fld) <- reflect.Field t v i ;;
      match ft with
      | TPtr _ elem =>
          match fld with
          | DPtr p =>
              let pointee := match p with
                             | None => reflect.Zero elem
                             | Some d => d
                             end in
              pointee' <- ensureNotNil elem pointee index' ;;
              reflect.SetField v i (DPtr (Some pointee'))
          | _ => Panic "contents do not fit the type"
          end
      | _ =>
          fld' <- ensureNotNil ft fld index' ;;
          reflect.SetField v i fld'
      end
  end.

(** One step of [Value.FieldByIndex] past the first: a pointer to a
    struct is followed, and must not be nil. *)
Definition indirect (t : rtype) (v : data) : go (rtype * data) :=
  if isStructPointer t then
    match t, v with
    | TPtr _ elem, DPtr (Some d) => Val (elem, d)
    | _, _ => Panic "reflect: indirection through nil pointer to embedded struct"
    end
  else Val (t, v).

(** [v.FieldByIndex(index)]: the type and the contents of the field that
    [index] designates in a struct. *)
Fixpoint FieldByIndexFrom (first : bool) (t : rtype) (v : data)
         (index : list nat) : go (rtype * data) :=
  match index with
  | [] => Val (t, v)
  | x :: index' =>
      ' (t, v) <- (if first then Val (t, v) else indirect t v) ;;
      ' (ft, fld) <- reflect.Field t v x ;;
      FieldByIndexFrom false ft fld index'
  end.

Definition FieldByIndex (t : rtype) (v : data) (index : list nat)
  : go (rtype * data) :=
  FieldByIndexFrom true t v index.

(** What a setter leaves behind: the contents of the field afterwards and
    the error it returns. *)
Definition setter : Type := rtype -> data -> go (data * option error).

(** Running a setter on the field that [index] designates and storing what
    it leaves there: the contents of the whole struct afterwards, with the
    setter's error. *)
Fixpoint updateByIndexFrom (first : bool) (t : rtype) (v : data)
         (index : list nat) (set : setter) : go (data * option error) :=
  match index with
  | [] => set t v
  | x :: index' =>
      if (negb first && isStructPointer t)%bool then
        match t, v with
        | TPtr _ elem, DPtr (Some d) =>
            ' (ft, fld) <- reflect.Field elem d x ;;
            ' (fld', err) <- updateByIndexFrom false ft fld index' set ;;
            d' <- reflect.SetField d x fld' ;;
            Val (DPtr (Some d'), err)
        | _, _ => Panic "reflect: indirection through nil pointer to embedded struct"
        end
      else
        ' (ft, fld) <- reflect.Field t v x ;;
        ' (fld', err) <- updateByIndexFrom false ft fld index' set ;;
        v' <- reflect.SetField v x fld' ;;
        Val (v', err)
  end.

Definition updateByIndex (t : rtype) (v : data) (index : list nat)
           (set : setter) : go (data * option error) :=
  updateByIndexFrom true t v index set.

Section Package.

(** [strconv.ParseFloat(s, bitSize)].  The package only stores the
    number it returns, so the parser is a parameter of the model. *)
Variable ParseFloat : string -> Z -> float64 * option error.

(** The [UnmarshalText] methods of the program: [UnmarshalText n] is the
    method in the method set of [*n] for the defined type [n], if it has
    one.  The method receives the text and what its receiver points to
    ([None] for a nil receiver); it leaves contents there and returns an
    error. *)
Variable UnmarshalText :
  string -> option (string -> option data -> go (data * option error)).

(** [t.Implements(textUnmarshalerType)] for a pointer type [t]: methods
    belong to defined types that are neither pointers nor interfaces,
    and to the pointers to them. *)
Definition Implements (t : rtype) :=
  match t with
  | TPtr None base =>
      match reflect.typeName base, reflect.kind base with
      | Some _, reflect.Pointer | Some _, reflect.Interface => None
      | Some n, _ => UnmarshalText n
      | None, _ => None
      end
  | _ => None
  end.

(** [asTextUnmarshaler(fld)]: the field's [UnmarshalText], bound to the
    field (or to its address when the field is not a pointer), as the
    function from the text to what the call leaves in the field. *)
Definition asTextUnmarshaler (t : rtype) (fld : data)
  : option (string -> go (data * option error)) :=
  let isPtr := reflect.Kind_eqb (reflect.kind t) reflect.Ptr in
  let fldPtr := if negb isPtr then TPtr None t else t in
  match Implements fldPtr with
  | None => None
  | Some m =>
      Some (fun text =>
              if negb isPtr then m text (Some fld)
              else match fld with
                   | DPtr (Some d) =>
                       ' (d', err) <- m text (Some d) ;;
                       Val (DPtr (Some d'), err)
                   | DPtr None =>
                       ' (_, err) <- m text None ;;
                       Val (DPtr None, err)
                   | _ => Panic "contents do not fit the type"
                   end)
  end.

(** [stringToType(s, t)]: an [interface{}] and an error. *)
Definition stringToType (s : string) (t : rtype) : iface * option error :=
  match reflect.kind t with
  | reflect.String => (Some (TBasic None reflect.String, DString s), None)
  | reflect.Bool =>
      let '(b, err) := strconv.ParseBool s in
      (Some (TBasic None reflect.Bool, DBool b), err)
  | reflect.Int =>
      let '(i, err) := strconv.Atoi s in
      (Some (TBasic None reflect.Int, DInt i), err)
  | reflect.Int64 | reflect.Int32 | reflect.Int16 | reflect.Int8 =>
      let '(i, err) := strconv.ParseInt s 64 64 in
      (Some (TBasic None reflect.Int64, DInt i), err)
  | reflect.Float64 =>
      let '(f, err) := ParseFloat s 64 in
      (Some (TBasic None reflect.Float64, DFloat f), err)
  | reflect.Float32 =>
      let '(f, err) := ParseFloat s 32 in
      (Some (TBasic None reflect.Float64, DFloat f), err)
  | _ =>
      (None, Some (errorString (reflect.TypeName t ++ " is an unsupported field type")))
  end.

(** The loop of [setFieldSlice] over the elements of the new slice. *)
Fixpoint rangeSet (set : string -> data -> go (data * option error))
         (ss : list string) (inst : list data) : go (list data * option error) :=
  match ss, inst with
  | [], _ => Val (inst, None)
  | s :: ss', d :: inst' =>
      ' (d', err) <- set s d ;;
      match err with
      | Some e => Val (d' :: inst', Some e)
      | None =>
          ' (inst'', err') <- rangeSet set ss' inst' ;;
          Val (d' :: inst'', err')
      end
  | _ :: _, [] => Panic "reflect: slice index out of range"
  end.

(** [setFieldSlice(ss, fld)].  [setElem] is [setValue] at the element
    type (the two functions call each other in the source). *)
Definition setFieldSlice (setElem : string -> data -> go (data * option error))
           (ss : list string) (t : rtype) (fld : data)
  : go (data * option error) :=
  match t with
  | TSlice _ elem =>
      let inst := repeat (reflect.Zero elem) (length ss) in
      ' (inst', err) <- rangeSet setElem ss inst ;;
      match err with
      | Some e => Val (fld, Some e)
      | None => Val (DSlice inst', None)
      end
  | _ => Panic "reflect.MakeSlice of non-slice type"
  end.

(** [setValue(value, fld)] for a field of type [t] with contents [fld]:
    the contents afterwards and the error returned. *)
Fixpoint setValue (value : string) (t : rtype) (fld : data) {struct t}
  : go (data * option error) :=
  match asTextUnmarshaler t fld with
  | Some tm => tm value
  | None =>
      match t with
      | TPtr _ elem =>
          match fld with
          | DPtr p =>
              let pointee := match p with
                             | None => reflect.Zero elem
                             | Some d => d
                             end in
              ' (d', err) <- setValue value elem pointee ;;
              Val (DPtr (Some d'), err)
          | _ => Panic "contents do not fit the type"
          end
      | TSlice _ elem =>
          setFieldSlice (fun s d => setValue s elem d)
                        (strings.Split value sliceDelimiter) t fld
      | _ =>
          match stringToType value t with
          | (_, Some err) => Val (fld, Some err)
          | (sv, None) =>
              fld' <- reflect.Set_ t (reflect.ValueOf sv) ;;
              Val (fld', None)
          end
      end
  end.

(** [type flagField struct { fldValue reflect.Value }]: the field by its
    type and its index path in the record. *)
Record flagField : Type := mkFlagField
  { fldType : rtype;
    fldIndex : list nat }.

(** [func (ff flagField) Type() reflect.Type]. *)
Definition Type_ (ff : flagField) : rtype := fldType ff.

(** [func (ff flagField) SetValue(value string) error], on the record
    [v]: the record afterwards and the error. *)
Definition SetValue (ff : flagField) (value : string) (v : Value)
  : go (Value * option error) :=
  match v with
  | None => Panic "reflect: call of reflect.Value.Field on zero Value"
  | Some (t, d) =>
      ' (d', err) <- updateByIndex t d (fldIndex ff) (setValue value) ;;
      Val (Some (t, d'), err)
  end.

(** [findField(name, v)]: the record afterwards, with the field found or
    an error. *)
Definition findField (name : string) (v : Value)
  : go (Value * (flagField + error)) :=
  match v with
  | None => Panic "reflect: call of reflect.Value.Type on zero Value"
  | Some (t, d) =>
      index <- findFieldIndex name t [] ;;
      if (length index =? 0)%nat
      then Val (v, inr (errorString ("field " ++ name ++ " not found in "
                                      ++ reflect.TypeString t)))
      else
        d' <- ensureNotNil t d index ;;
        ' (ft, _) <- FieldByIndex t d' index ;;
        Val (Some (t, d'), inl (mkFlagField ft index))
  end.

(** [newFlagField(name, v)]. *)
Definition newFlagField (name : string) (v : Value)
  : go (Value * (flagField + error)) :=
  ' (v', r) <- findField name v ;;
  match r with
  | inr err => Val (v', inr err)
  | inl fld => Val (v', inl fld)
  end.

(** [findFlagValue(args, fldType)]: the value, the arguments left and an
    error. *)
Definition findFlagValue (args : list string) (fldType : rtype)
  : string * list string * option error :=
  let value :=
    match args with
    | a :: _ => if negb (strings.HasPrefix a "-") then a else EmptyString
    | [] => EmptyString
    end in
  if (reflect.Kind_eqb (reflect.kind fldType) reflect.Bool
      && (String.eqb value EmptyString
          || match snd (strconv.ParseBool value) with
             | Some _ => true
             | None => false
             end))%bool
  then (strconv.FormatBool true, args, None)
  else if String.eqb value EmptyString
       then (EmptyString, [], Some (errorString "no value found"))
       else (value, tl args, None).

(** [getStructValue(str)]. *)
Definition getStructValue (str : iface) : go (Value + error) :=
  match reflect.TypeOf str with
  | None => Panic "runtime error: invalid memory address or nil pointer dereference"
  | Some t =>
      if negb (isStructPointer t)
      then Val (inr (errorString "flags can only be applied to a struct pointer"))
      else
        v <- reflect.Elem (reflect.ValueOf str) ;;
        if reflect.Kind_eqb (reflect.ValueKind v) reflect.Interface
        then
          v1 <- reflect.Elem v ;;
          v2 <- reflect.Elem v1 ;;
          Val (inl v2)
        else Val (inl v)
  end.

(** The argument [str] of [ApplyTo] once the struct it designates has
    the contents of [v]. *)
Definition store (str : iface) (v : Value) : iface :=
  match str, v with
  | Some (TPtr n elem, DPtr (Some _)), Some (_, d) =>
      Some (TPtr n elem, DPtr (Some d))
  | _, _ => str
  end.

(** What one turn of the loop of [ApplyTo] ends with: the cursor, the
    record and the unused list at [continue] or at the end of the body,
    or the results of a [return]. *)
Inductive turn : Type :=
| Continue (i : nat) (v : Value) (unused : list string)
| Return (v : Value) (unused : list string) (err : option error).

(** The body of the loop of [ApplyTo] at cursor [i], where
    [arg = args[i]]. *)
Definition loopBody (args : ArgFlags) (i : nat) (arg : string)
           (v : Value) (unused : list string) : go turn :=
  if negb (strings.HasPrefix arg "-")
  then Val (Continue i v (unused ++ [arg]))
  else
    ' (v, r) <- newFlagField (strings.TrimLeft arg "-") v ;;
    match r with
    | inr _ => Val (Continue i v (unused ++ [arg]))
    | inl fld =>
        let vals := skipn (i + 1) args in
        match findFlagValue vals (Type_ fld) with
        | (_, _, Some err) =>
            Val (Return v [] (Some (errorString (arg ++ "  " ++ Error err))))
        | (argValue, remain, None) =>
            let i := (i + (length vals - length remain))%nat in
            ' (v, err) <- SetValue fld argValue v ;;
            match err with
            | Some err =>
                Val (Return v [] (Some (errorString ("'" ++ arg ++ "'  " ++ Error err))))
            | None => Val (Continue i v unused)
            end
        end
    end.

(** The loop [for ; i < len(args); i++] of [ApplyTo].  Every turn moves
    the cursor forward, so [fuel] turns are enough when [fuel] is the
    number of arguments from the cursor on ([loop_fuel]). *)
Fixpoint loop (args : ArgFlags) (fuel : nat) (i : nat) (v : Value)
         (unused : list string) : go (Value * list string * option error) :=
  match nth_error args i with
  | None => Val (v, unused, None)
  | Some arg =>
      match fuel with
      | O => Panic "out of fuel"
      | S fuel' =>
          t <- loopBody args i arg v unused ;;
          match t with
          | Continue i v unused => loop args fuel' (S i) v unused
          | Return v unused err => Val (v, unused, err)
          end
      end
  end.

(** [func (args ArgFlags) ApplyTo(str interface{}) ([]string, error)]:
    [str] after the call, the unused arguments and the error. *)
Definition ApplyTo (args : ArgFlags) (str : iface)
  : go (iface * list string * option error) :=
  r <- getStructValue str ;;
  match r with
  | inr err => Val (str, [], Some err)
  | inl v =>
      ' (v', unused, err) <- loop args (length args) 0 v [] ;;
      Val (store str v', unused, err)
  end.

End Package.

End argflags.

Import argflags.

(* ===================================================================== *)
(** ** Vocabulary of the properties *)

(** The rest of the pass of [ApplyTo] from cursor [i] on, with the record
    [v] and the unused list built so far. *)
Definition run (ParseFloat : string -> Z -> float64 * option error)
           (UnmarshalText : string -> option (string -> option data -> go (data * option error)))
           (args : ArgFlags) (i : nat) (v : Value) (unused : list string)
  : go (Value * list string * option error) :=
  loop ParseFloat UnmarshalText args (length args - i) i v unused.

(** The contents [d] fit the type [t]. *)
Fixpoint wt (t : rtype) (d : data) {struct d} : bool :=
  match t, d with
  | TBasic _ k, DBool _ => reflect.Kind_eqb k reflect.Bool
  | TBasic _ k, DInt _ =>
      match k with
      | reflect.Int | reflect.Int8 | reflect.Int16 | reflect.Int32
      | reflect.Int64 | reflect.Uint | reflect.Uint8 | reflect.Uint16
      | reflect.Uint32 | reflect.Uint64 | reflect.Uintptr => true
      | _ => false
      end
  | TBasic _ k, DFloat _ =>
      match k with
      | reflect.Float32 | reflect.Float64 => true
      | _ => false
      end
  | TBasic _ k, DString _ => reflect.Kind_eqb k reflect.String
  | TBasic _ k, DOpaque =>
      match k with
      | reflect.Invalid | reflect.Complex64 | reflect.Complex128
      | reflect.Array | reflect.Chan | reflect.Func | reflect.Interface
      | reflect.Map | reflect.Pointer | reflect.Slice | reflect.Struct
      | reflect.UnsafePointer => true
      | _ => false
      end
  | TPtr _ _, DPtr None => true
  | TPtr _ e, DPtr (Some x) => wt e x
  | TSlice _ e, DSlice l => forallb (wt e) l
  | TStruct _ fs, DStruct ds =>
      (fix fields (fs : list (StructField rtype)) (ds : list data) {struct ds} : bool :=
         match fs, ds with
         | [], [] => true
         | f :: fs', x :: ds' => wt (reflect.Type_ f) x && fields fs' ds'
         | _, _ => false
         end) fs ds
  | TInterface _, DIface None => true
  | TInterface _, DIface (Some (t', x)) => wt t' x
  | _, _ => false
  end.

(** The contents [ds] of a struct fit its fields [fs], one by one. *)
Fixpoint wtFields (fs : list (StructField rtype)) (ds : list data) : bool :=
  match fs, ds with
  | [], [] => true
  | f :: fs', x :: ds' => wt (reflect.Type_ f) x && wtFields fs' ds'
  | _, _ => false
  end.

(** The type of the field that an index path designates in a type, read
    as [FieldByIndex] reads it: past the first step a pointer to a struct
    is followed.  [None] when the path leaves the type. *)
Fixpoint pathType (first : bool) (t : rtype) (index : list nat) : option rtype :=
  match index with
  | [] => Some t
  | x :: index' =>
      let t' := if (negb first && isStructPointer t)%bool
                then match t with
                     | TPtr _ elem => elem
                     | _ => t
                     end
                else t in
      match t' with
      | TStruct _ fields =>
          match nth_error fields x with
          | Some f => pathType false (reflect.Type_ f) index'
          | None => None
          end
      | _ => None
      end
  end.

(** A type without the pointers in front of it, as [findFieldIndex] looks
    at it. *)
Fixpoint pointee (t : rtype) : rtype :=
  match t with
  | TPtr _ elem => pointee elem
  | _ => t
  end.

(** The field [f] matches the flag [name] by itself: it is exported and
    its name, or else one of its aliases, is [name] up to case. *)
Definition directMatch (name : string) (f : StructField rtype) : bool :=
  reflect.IsExported f
  && (strings.EqualFold name (reflect.Name f)
      || isNameInTag name
           (strings.Split (reflect.Get (reflect.Tag f) FlagTagName) ","%char)).

(** The strings of ASCII bytes.  On them [strings.EqualFold] is the
    comparison up to the case of the letters [A]..[Z], and
    [strings.ToUpper] and [strings.ToLower] change these letters only. *)
Fixpoint isASCII (s : string) : bool :=
  match s with
  | EmptyString => true
  | String c s' => (nat_of_ascii c <? 128)%nat && isASCII s'
  end.

(** The types in which every field that [findFieldIndex] can look at has
    an ASCII name and an ASCII flag tag: the fields of the struct, and
    those of the structs met through pointers and fields. *)
Fixpoint asciiNames (t : rtype) : bool :=
  match t with
  | TPtr _ elem => asciiNames elem
  | TStruct _ fields =>
      (fix all (fs : list (StructField rtype)) : bool :=
         match fs with
         | [] => true
         | f :: fs' =>
             isASCII (reflect.Name f)
             && isASCII (reflect.Get (reflect.Tag f) FlagTagName)
             && asciiNames (reflect.Type_ f)
             && all fs'
         end) fields
  | _ => true
  end.

(** The field [f] is marked as a sub argument. *)
Definition subArg (f : StructField rtype) : bool :=
  reflect.IsExported f
  && isSubArgTag (strings.Split (reflect.Get (reflect.Tag f) FlagTagName) ","%char).

(** The field [f] is marked as a sub argument and is neither a struct nor
    a pointer to one. *)
Definition misconfigured (f : StructField rtype) : bool :=
  subArg f
  && negb (isStructPointer (reflect.Type_ f))
  && negb (reflect.Kind_eqb (reflect.kind (reflect.Type_ f)) reflect.Struct).

(** The positions, counted from [i], of the fields marked as sub
    arguments. *)
Fixpoint subArgPositions (fields : list (StructField rtype)) (i : nat) : list nat :=
  match fields with
  | [] => []
  | f :: fields' =>
      if subArg f then i :: subArgPositions fields' (S i)
      else subArgPositions fields' (S i)
  end.

(** [u] is made of elements of [l], in the order they have in [l]. *)
Inductive subseq {A : Type} : list A -> list A -> Prop :=
| subseq_nil : subseq [] []
| subseq_skip (x : A) (u l : list A) : subseq u l -> subseq u (x :: l)
| subseq_take (x : A) (u l : list A) : subseq u l -> subseq (x :: u) (x :: l).

(** The types of the fields that [setValue] handles without a method of
    the field: the predeclared types but float32, and the slices of
    them. *)
Definition plain (t : rtype) : bool :=
  match t with
  | TBasic None k => negb (reflect.Kind_eqb k reflect.Float32)
  | TSlice None (TBasic None k) => negb (reflect.Kind_eqb k reflect.Float32)
  | _ => false
  end.

(** Induction on types, through the fields of structs. *)
Section rtype_induction.

Variable P : rtype -> Prop.
Hypothesis HBasic : forall n k, P (TBasic n k).
Hypothesis HPtr : forall n e, P e -> P (TPtr n e).
Hypothesis HSlice : forall n e, P e -> P (TSlice n e).
Hypothesis HStruct :
  forall n fs, Forall (fun f => P (reflect.Type_ f)) fs -> P (TStruct n fs).
Hypothesis HInterface : forall n, P (TInterface n).

Fixpoint rtype_induction (t : rtype) : P t :=
  match t with
  | TBasic n k => HBasic n k
  | TPtr n e => HPtr n (rtype_induction e)
  | TSlice n e => HSlice n (rtype_induction e)
  | TStruct n fs =>
      HStruct n
        ((fix fields (fs : list (StructField rtype))
            : Forall (fun f => P (reflect.Type_ f)) fs :=
            match fs with
            | [] => Forall_nil _
            | f :: fs' =>
                Forall_cons f (rtype_induction (reflect.Type_ f)) (fields fs')
            end) fs)
  | TInterface n => HInterface n
  end.

End rtype_induction.

(* ===================================================================== *)
(** ** A configuration record for the examples *)

Module Demo.

(** [strconv.ParseFloat] on the one number the examples use; every other
    input is refused here. *)
Definition ParseFloat (s : string) (bitSize : Z) : float64 * option error :=
  if String.eqb s "1.5"
  then (reflect.Float64frombits 4609434218613702656, None)
  else (reflect.Float64frombits 0, Some (strconv.syntaxError "ParseFloat" s)).

(** No type of the examples has an [UnmarshalText]. *)
Definition UnmarshalText
  : string -> option (string -> option data -> go (data * option error)) :=
  fun _ => None.

Definition exported (name : string) (t : rtype) (tag : reflect.StructTag)
  : StructField rtype :=
  reflect.mkField name EmptyString t tag.

(** [type Server struct { Port int; Host string `flag:"host,h"` }]. *)
Definition Server : rtype :=
  TStruct (Some "Server")
    [ exported "Port" (TBasic None reflect.Int) [];
      exported "Host" (TBasic None reflect.String) [("flag", "host,h")] ].

(** [type Config struct {
      hidden  int
      Verbose bool     `json:"v"`
      Count   int      `flag:"count,c"`
      Names   []string `flag:"names,n"`
      Ratio   float32  `flag:"ratio"`
      Big     int64    `flag:"big"`
      Server  *Server  `flag:"+"`
    }]. *)
Definition Config : rtype :=
  TStruct (Some "Config")
    [ reflect.mkField "hidden" "main" (TBasic None reflect.Int) [];
      exported "Verbose" (TBasic None reflect.Bool) [("json", "v")];
      exported "Count" (TBasic None reflect.Int) [("flag", "count,c")];
      exported "Names" (TSlice None (TBasic None reflect.String))
               [("flag", "names,n")];
      exported "Ratio" (TBasic None reflect.Float32) [("flag", "ratio")];
      exported "Big" (TBasic None reflect.Int64) [("flag", "big")];
      exported "Server" (TPtr None Server) [("flag", "+")] ].

Definition fieldsOf (t : rtype) : list (StructField rtype) :=
  match t with
  | TStruct _ fields => fields
  | _ => []
  end.

Definition contentsOf (d : data) : list data :=
  match d with
  | DStruct ds => ds
  | _ => []
  end.

(** The zero [Config], and [&Config{}] as the argument of [ApplyTo]. *)
Definition zeroConfig : data := reflect.Zero Config.
Definition record : Value := Some (Config, zeroConfig).
Definition pointer : iface := Some (TPtr None Config, DPtr (Some zeroConfig)).

Definition withField (i : nat) (x : data) : Value :=
  Some (Config, DStruct (reflect.replaceNth (contentsOf zeroConfig) i x)).

End Demo.

(** A second record for the examples, with a defined type that has an
    [UnmarshalText], one that has none, and a pointer field. *)
Module Sample.

(** [type Level int], with
    [func (l *Level) UnmarshalText(b []byte) error {
       *l = Level(len(b)); return nil }]. *)
Definition Level : rtype := TBasic (Some "Level") reflect.Int.

Definition Level_UnmarshalText (text : string) (recv : option data)
  : go (data * option error) :=
  match recv with
  | Some _ => Val (DInt (Z.of_nat (String.length text)), None)
  | None => Panic "runtime error: invalid memory address or nil pointer dereference"
  end.

(** [type Mode string], without methods. *)
Definition Mode : rtype := TBasic (Some "Mode") reflect.String.

(** The [UnmarshalText] methods of these types, by the name of the
    type. *)
Definition methods (n : string)
  : option (string -> option data -> go (data * option error)) :=
  if String.eqb n "Level" then Some Level_UnmarshalText else None.

(** [type Options struct {
      Level Level    `flag:"level"`
      Limit *int     `flag:"limit"`
      Mode  Mode
      Size  uint
      Tags  []string `flag:"tag"`
    }]. *)
Definition Options : rtype :=
  TStruct (Some "Options")
    [ Demo.exported "Level" Level [("flag", "level")];
      Demo.exported "Limit" (TPtr None (TBasic None reflect.Int))
                    [("flag", "limit")];
      Demo.exported "Mode" Mode [];
      Demo.exported "Size" (TBasic None reflect.Uint) [];
      Demo.exported "Tags" (TSlice None (TBasic None reflect.String))
                    [("flag", "tag")] ].

Definition options : Value := Some (Options, reflect.Zero Options).

(** [type Broken struct { Name string; Extra int `flag:"+"` }]. *)
Definition Broken : rtype :=
  TStruct (Some "Broken")
    [ Demo.exported "Name" (TBasic None reflect.String) [];
      Demo.exported "Extra" (TBasic None reflect.Int) [("flag", "+")] ].

End Sample.

(* ===================================================================== *)
(** ** The loop of [ApplyTo] *)

Section Loop.

Variable ParseFloat : string -> Z -> float64 * option error.
Variable UnmarshalText :
  string -> option (string -> option data -> go (data * option error)).

Local Notation loopBody := (loopBody ParseFloat UnmarshalText).
Local Notation loop := (loop ParseFloat UnmarshalText).
Local Notation SetValue := (SetValue ParseFloat UnmarshalText).
Local Notation setValue := (setValue ParseFloat UnmarshalText).
Local Notation ApplyTo := (ApplyTo ParseFloat UnmarshalText).

Lemma nth_error_lt {A : Type} (l : list A) (i : nat) (x : A) :
  nth_error l i = Some x -> i < length l.
Proof. intros H. apply nth_error_Some. rewrite H. discriminate. Qed.

(** A turn never moves the cursor backwards. *)
Lemma loopBody_cursor args i arg v unused i' v' unused' :
  loopBody args i arg v unused = Val (Continue i' v' unused') -> i <= i'.
Proof.
  unfold argflags.loopBody.
  destruct (negb (strings.HasPrefix arg "-")).
  - intros H; inversion H; subst; lia.
  - destruct (newFlagField _ v) as [[v1 [fld | e]] | msg]; simpl.
    + destruct (findFlagValue _ _) as [[argValue remain] [err | ]].
      * discriminate.
      * destruct (SetValue fld argValue v1) as [[v2 [err | ]] | msg]; simpl;
          try discriminate.
        intros H; inversion H; subst; lia.
    + intros H; inversion H; subst; lia.
    + discriminate.
Qed.

(** The fuel does not matter once it covers the arguments left. *)
Lemma loop_fuel args f1 : forall f2 i v unused,
  length args - i <= f1 -> length args - i <= f2 ->
  loop args f1 i v unused = loop args f2 i v unused.
Proof.
  induction f1 as [ | f1 IH]; intros f2 i v unused H1 H2.
  - destruct f2 as [ | f2]; [reflexivity | ].
    simpl. destruct (nth_error args i) eqn:E; [ | reflexivity].
    apply nth_error_lt in E. lia.
  - simpl. destruct f2 as [ | f2].
    + simpl. destruct (nth_error args i) eqn:E; [ | reflexivity].
      apply nth_error_lt in E. lia.
    + simpl. destruct (nth_error args i) as [arg | ] eqn:E; [ | reflexivity].
      apply nth_error_lt in E.
      destruct (loopBody args i arg v unused) as [[i' v' u' | v' u' e] | msg] eqn:B;
        simpl; try reflexivity.
      apply loopBody_cursor in B. apply IH; lia.
Qed.

(** The equation of the loop. *)
Lemma run_unfold args i v unused :
  run ParseFloat UnmarshalText args i v unused =
  match nth_error args i with
  | None => Val (v, unused, None)
  | Some arg =>
      t <- loopBody args i arg v unused ;;
      match t with
      | Continue i' v' unused' =>
          run ParseFloat UnmarshalText args (S i') v' unused'
      | Return v' unused' err => Val (v', unused', err)
      end
  end.
Proof.
  unfold run.
  destruct (nth_error args i) as [arg | ] eqn:E.
  - pose proof (nth_error_lt _ _ E) as Hlt.
    destruct (length args - i) as [ | f] eqn:F; [lia | ].
    simpl. rewrite E.
    destruct (loopBody args i arg v unused) as [[i' v' u' | v' u' e] | msg] eqn:B;
      simpl; try reflexivity.
    apply loopBody_cursor in B. apply loop_fuel; lia.
  - destruct (length args - i); simpl; rewrite E; reflexivity.
Qed.

(** [ApplyTo] is the pass from the first argument on. *)
Lemma ApplyTo_run args str v :
  getStructValue str = Val (inl v) ->
  ApplyTo args str =
  ' (v', unused, err) <- run ParseFloat UnmarshalText args 0 v [] ;;
  Val (store str v', unused, err).
Proof.
  intros H. unfold argflags.ApplyTo, run. rewrite H. simpl.
  rewrite Nat.sub_0_r. reflexivity.
Qed.

End Loop.

(* ===================================================================== *)
(** ** Reading and writing a field through its index path *)

Lemma Kind_eqb_eq (a b : reflect.Kind) :
  reflect.Kind_eqb a b = true <-> a = b.
Proof.
  unfold reflect.Kind_eqb. rewrite Nat.eqb_eq. split.
  - destruct a, b; simpl; intros H; try reflexivity; discriminate H.
  - intros ->. reflexivity.
Qed.

Lemma Kind_eqb_neq (a b : reflect.Kind) :
  reflect.Kind_eqb a b = false <-> a <> b.
Proof.
  rewrite <- Kind_eqb_eq. destruct (reflect.Kind_eqb a b); split; congruence.
Qed.

Lemma nth_error_replaceNth {A : Type} (l : list A) : forall i x y,
  nth_error l i = Some y -> nth_error (reflect.replaceNth l i x) i = Some x.
Proof.
  induction l as [ | a l IH]; intros [ | i] x y H; simpl in *;
    try discriminate; eauto.
Qed.

Lemma length_replaceNth {A : Type} (l : list A) : forall i x,
  length (reflect.replaceNth l i x) = length l.
Proof.
  induction l as [ | a l IH]; intros [ | i] x; simpl; auto.
Qed.

Lemma skipn_nth_error {A : Type} (l : list A) : forall n,
  skipn n l = match nth_error l n with
              | None => []
              | Some x => x :: skipn (S n) l
              end.
Proof.
  induction l as [ | a l IH]; intros [ | n]; simpl; try reflexivity.
  rewrite IH. destruct (nth_error l n); reflexivity.
Qed.

(** Storing into a field that can be read succeeds, and the field then
    reads as what was stored. *)
Lemma Field_SetField t v i ft fd x :
  reflect.Field t v i = Val (ft, fd) ->
  exists v', reflect.SetField v i x = Val v'
             /\ reflect.Field t v' i = Val (ft, x).
Proof.
  unfold reflect.Field, reflect.SetField.
  destruct t as [ | | | n fields | ]; try discriminate.
  destruct v as [ | | | | | | ds | | ]; try discriminate.
  destruct (nth_error fields i) as [f | ] eqn:Ef; [ | discriminate].
  destruct (nth_error ds i) as [d | ] eqn:Ed; [ | discriminate].
  intros H; inversion H; subst; clear H.
  pose proof (nth_error_lt _ _ Ed) as Hlt.
  apply Nat.ltb_lt in Hlt. rewrite Hlt.
  eexists; split; [reflexivity | ].
  cbn. rewrite (nth_error_replaceNth _ _ x Ed). reflexivity.
Qed.

(** A setter that succeeds on a field that [FieldByIndex] reaches leaves
    its result there, and returns its error. *)
Lemma updateByIndexFrom_spec (set : setter) : forall index first t d ft fd x err,
  FieldByIndexFrom first t d index = Val (ft, fd) ->
  set ft fd = Val (x, err) ->
  exists d', updateByIndexFrom first t d index set = Val (d', err)
             /\ FieldByIndexFrom first t d' index = Val (ft, x).
Proof.
  induction index as [ | i index IH]; intros first t d ft fd x err Hget Hset.
  - simpl in *. inversion Hget; subst. eauto.
  - assert (Hstep : forall t0 d0,
               (' (ft0, fld0) <- reflect.Field t0 d0 i ;;
                FieldByIndexFrom false ft0 fld0 index) = Val (ft, fd) ->
               exists d0',
                 (' (ft0, fld0) <- reflect.Field t0 d0 i ;;
                  ' (fld', e) <- updateByIndexFrom false ft0 fld0 index set ;;
                  v' <- reflect.SetField d0 i fld' ;; Val (v', e)) = Val (d0', err)
                 /\ (' (ft0, fld0) <- reflect.Field t0 d0' i ;;
                     FieldByIndexFrom false ft0 fld0 index) = Val (ft, x)).
    { intros t0 d0 H.
      destruct (reflect.Field t0 d0 i) as [[ft0 fd0] | ] eqn:F; [ | discriminate].
      cbn in H.
      destruct (IH false ft0 fd0 ft fd x err H Hset) as (fd0' & Hup & Hrd).
      destruct (Field_SetField _ _ _ fd0' F) as (v' & Hs & Hf).
      exists v'. cbn. rewrite Hup. cbn. rewrite Hs. cbn. rewrite Hf. cbn.
      split; [reflexivity | exact Hrd]. }
    cbn in Hget |- *. destruct first; cbn in Hget |- *.
    + apply Hstep. exact Hget.
    + unfold indirect in *. destruct (isStructPointer t) eqn:SP.
      * destruct t as [ | n elem | | | ]; try discriminate.
        destruct d as [ | | | | [dd | ] | | | | ]; try discriminate.
        cbn in Hget. destruct (Hstep _ _ Hget) as (d0' & H1 & H2).
        exists (DPtr (Some d0')). split.
        -- destruct (reflect.Field elem dd i) as [[ft0 fd0] | ]; [ | discriminate].
           cbn in H1 |- *.
           destruct (updateByIndexFrom false ft0 fd0 index set) as [[fld' e] | ];
             [ | discriminate].
           cbn in H1 |- *.
           destruct (reflect.SetField dd i fld'); [ | discriminate].
           cbn in H1 |- *. inversion H1; subst. reflexivity.
        -- cbn in SP. cbn. unfold indirect. cbn. try rewrite SP. exact H2.
      * cbn in Hget. destruct (Hstep _ _ Hget) as (d0' & H1 & H2).
        exists d0'. split; [exact H1 | ].
        exact H2.
Qed.

(** The struct after an update depends on the setter only through what it
    does on the field reached. *)
Lemma updateByIndexFrom_ext (set1 set2 : setter) : forall index first t d ft fd,
  FieldByIndexFrom first t d index = Val (ft, fd) ->
  set1 ft fd = set2 ft fd ->
  updateByIndexFrom first t d index set1 = updateByIndexFrom first t d index set2.
Proof.
  induction index as [ | i index IH]; intros first t d ft fd Hget Hset.
  - simpl in *. inversion Hget; subst. exact Hset.
  - simpl in Hget |- *. destruct first; simpl in *.
    + destruct (reflect.Field t d i) as [[ft0 fd0] | ] eqn:F; [ | discriminate].
      simpl in *. rewrite (IH false ft0 fd0 ft fd Hget Hset). reflexivity.
    + unfold indirect in Hget.
      destruct (isStructPointer t) eqn:SP.
      * destruct t as [ | n elem | | | ]; try discriminate.
        destruct d as [ | | | | [dd | ] | | | | ]; try discriminate.
        simpl in Hget.
        destruct (reflect.Field elem dd i) as [[ft0 fd0] | ] eqn:F; [ | discriminate].
        simpl in *. rewrite (IH false ft0 fd0 ft fd Hget Hset). reflexivity.
      * simpl in Hget.
        destruct (reflect.Field t d i) as [[ft0 fd0] | ] eqn:F; [ | discriminate].
        simpl in *. rewrite (IH false ft0 fd0 ft fd Hget Hset). reflexivity.
Qed.

(** What a successful [newFlagField] says. *)
Lemma newFlagField_found name v v' fld :
  newFlagField name v = Val (v', inl fld) ->
  exists t d d' fd,
    v = Some (t, d) /\ v' = Some (t, d')
    /\ findFieldIndex name t [] = Val (fldIndex fld)
    /\ fldIndex fld <> []
    /\ ensureNotNil t d (fldIndex fld) = Val d'
    /\ FieldByIndex t d' (fldIndex fld) = Val (fldType fld, fd).
Proof.
  unfold newFlagField, findField.
  destruct v as [[t d] | ]; [ | discriminate].
  destruct (findFieldIndex name t []) as [index | ] eqn:FI; [ | discriminate].
  simpl. destruct (length index =? 0)%nat eqn:L; simpl; [discriminate | ].
  destruct (ensureNotNil t d index) as [d' | ] eqn:EN; [ | discriminate].
  simpl. destruct (FieldByIndex t d' index) as [[ft fd] | ] eqn:FB; [ | discriminate].
  simpl. intros H; inversion H; subst; clear H. simpl.
  exists t, d, d', fd. repeat split; auto.
  intros ->. discriminate L.
Qed.

Section SetValue.

Variable ParseFloat : string -> Z -> float64 * option error.
Variable UnmarshalText :
  string -> option (string -> option data -> go (data * option error)).

Local Notation SetValue := (SetValue ParseFloat UnmarshalText).
Local Notation setValue := (setValue ParseFloat UnmarshalText).

(** [SetValue] on a field that [FieldByIndex] reaches: when [setValue]
    leaves [x] in the field, the record afterwards is the record with
    [x] stored in that field, and the field reads as [x]. *)
Lemma SetValue_spec t d fld value ft fd x err :
  FieldByIndex t d (fldIndex fld) = Val (ft, fd) ->
  setValue value ft fd = Val (x, err) ->
  exists d',
    SetValue fld value (Some (t, d)) = Val (Some (t, d'), err)
    /\ updateByIndex t d (fldIndex fld) (fun _ _ => Val (x, err)) = Val (d', err)
    /\ FieldByIndex t d' (fldIndex fld) = Val (ft, x).
Proof.
  intros Hget Hset. unfold FieldByIndex in Hget.
  destruct (updateByIndexFrom_spec (setValue value) _ _ _ _ Hget Hset)
    as (d' & Hup & Hrd).
  exists d'. unfold argflags.SetValue, updateByIndex, FieldByIndex.
  rewrite Hup. simpl. repeat split; auto.
  rewrite <- Hup. symmetry.
  apply (updateByIndexFrom_ext (setValue value) (fun _ _ => Val (x, err))
           _ _ _ _ Hget).
  exact Hset.
Qed.

(** A field of type [bool] takes the boolean that [ParseBool] reads. *)
Lemma setValue_bool value b fd :
  strconv.ParseBool value = (b, None) ->
  setValue value (TBasic None reflect.Bool) fd = Val (DBool b, None).
Proof.
  intros H. simpl. unfold stringToType. simpl. rewrite H. reflexivity.
Qed.

End SetValue.

(* ===================================================================== *)
(** ** The value window of a flag *)

Lemma ParseBool_empty b : strconv.ParseBool EmptyString <> (b, None).
Proof. destruct b; discriminate. Qed.

(** No value for a field that is not a bool: nothing follows the flag, or
    a flag follows it. *)
Lemma findFlagValue_no_value vals t :
  reflect.kind t <> reflect.Bool ->
  (vals = [] \/ exists next rest, vals = next :: rest
                                  /\ strings.HasPrefix next "-" = true) ->
  findFlagValue vals t = (EmptyString, [], Some (errorString "no value found")).
Proof.
  intros Hk Hv. apply Kind_eqb_neq in Hk. unfold findFlagValue. rewrite Hk.
  destruct Hv as [-> | (next & rest & -> & Hp)]; simpl.
  - reflexivity.
  - rewrite Hp. reflexivity.
Qed.

(** A bool field followed by a boolean literal takes it. *)
Lemma findFlagValue_bool_literal next rest b :
  strings.HasPrefix next "-" = false ->
  strconv.ParseBool next = (b, None) ->
  findFlagValue (next :: rest) (TBasic None reflect.Bool) = (next, rest, None).
Proof.
  intros Hp Hb. unfold findFlagValue. simpl. rewrite Hp. simpl. rewrite Hb. simpl.
  destruct (String.eqb next EmptyString) eqn:E; [ | reflexivity].
  apply String.eqb_eq in E. subst. destruct (ParseBool_empty Hb).
Qed.

(** A bool field followed by nothing, by a flag or by a token that is not
    a boolean literal is true, and the arguments are left as they are. *)
Lemma findFlagValue_bool_default vals :
  (vals = []
   \/ exists next rest, vals = next :: rest
                        /\ (strings.HasPrefix next "-" = true
                            \/ snd (strconv.ParseBool next) <> None)) ->
  findFlagValue vals (TBasic None reflect.Bool) = ("true", vals, None).
Proof.
  intros [-> | (next & rest & -> & [Hp | Hb])]; unfold findFlagValue; simpl.
  - reflexivity.
  - rewrite Hp. reflexivity.
  - destruct (strings.HasPrefix next "-"); simpl; [reflexivity | ].
    destruct (snd (strconv.ParseBool next)); [ | congruence].
    rewrite orb_true_r. reflexivity.
Qed.

Section TokenConsumer.

Variable ParseFloat : string -> Z -> float64 * option error.
Variable UnmarshalText :
  string -> option (string -> option data -> go (data * option error)).

Local Notation loopBody := (loopBody ParseFloat UnmarshalText).
Local Notation run := (run ParseFloat UnmarshalText).
Local Notation SetValue := (SetValue ParseFloat UnmarshalText).
Local Notation setValue := (setValue ParseFloat UnmarshalText).
Local Notation ApplyTo := (ApplyTo ParseFloat UnmarshalText).

(** The arguments after the cursor, by what stands at the next
    position. *)
Lemma vals_next (args : ArgFlags) i :
  skipn (i + 1) args =
  match nth_error args (S i) with
  | None => []
  | Some next => next :: skipn (i + 2) args
  end.
Proof.
  rewrite skipn_nth_error. replace (i + 1) with (S i) by lia.
  replace (S (S i)) with (i + 2) by lia. reflexivity.
Qed.

(** The turn of the loop at a flag that resolves to a field. *)
Lemma loopBody_flag args i arg v unused v' fld :
  strings.HasPrefix arg "-" = true ->
  newFlagField (strings.TrimLeft arg "-") v = Val (v', inl fld) ->
  loopBody args i arg v unused =
  let vals := skipn (i + 1) args in
  match findFlagValue vals (Type_ fld) with
  | (_, _, Some err) =>
      Val (Return v' [] (Some (errorString (arg ++ "  " ++ Error err))))
  | (argValue, remain, None) =>
      ' (v'', err) <- SetValue fld argValue v' ;;
      match err with
      | Some err =>
          Val (Return v'' [] (Some (errorString ("'" ++ arg ++ "'  " ++ Error err))))
      | None => Val (Continue (i + (length vals - length remain)) v'' unused)
      end
  end.
Proof.
  intros Hp Hnew. unfold argflags.loopBody. rewrite Hp, Hnew. reflexivity.
Qed.

(** The turn of the loop at an argument that is not a flag, or at a flag
    that resolves to no field: the argument joins the unused list. *)
Lemma loopBody_unused args i arg v unused :
  strings.HasPrefix arg "-" = false
  \/ (exists e, newFlagField (strings.TrimLeft arg "-") v = Val (v, inr e)) ->
  loopBody args i arg v unused = Val (Continue i v (unused ++ [arg])).
Proof.
  unfold argflags.loopBody. intros [Hp | (e & He)].
  - rewrite Hp. reflexivity.
  - rewrite He. destruct (strings.HasPrefix arg "-"); reflexivity.
Qed.

(** A flag without a value ends the pass with the error. *)
Lemma run_no_value args i arg v unused v' fld :
  nth_error args i = Some arg ->
  strings.HasPrefix arg "-" = true ->
  newFlagField (strings.TrimLeft arg "-") v = Val (v', inl fld) ->
  reflect.kind (Type_ fld) <> reflect.Bool ->
  (nth_error args (S i) = None
   \/ exists next, nth_error args (S i) = Some next
                   /\ strings.HasPrefix next "-" = true) ->
  run args i v unused
  = Val (v', [], Some (errorString (arg ++ "  " ++ "no value found"))).
Proof.
  intros Harg Hp Hnew Hk Hnext.
  rewrite run_unfold, Harg, (loopBody_flag args i arg v unused Hp Hnew).
  cbv zeta.
  rewrite findFlagValue_no_value; [reflexivity | exact Hk | ].
  rewrite vals_next.
  destruct Hnext as [-> | (next & -> & Hn)]; [left; reflexivity | ].
  right. eauto.
Qed.

(** A flag whose value is found and set without error: the pass goes on
    after the arguments the value took. *)
Lemma run_flag_set args i arg v unused v' fld argValue remain v'' :
  nth_error args i = Some arg ->
  strings.HasPrefix arg "-" = true ->
  newFlagField (strings.TrimLeft arg "-") v = Val (v', inl fld) ->
  findFlagValue (skipn (i + 1) args) (Type_ fld) = (argValue, remain, None) ->
  SetValue fld argValue v' = Val (v'', None) ->
  run args i v unused
  = run args (S (i + (length (skipn (i + 1) args) - length remain))) v'' unused.
Proof.
  intros Harg Hp Hnew Hval Hset.
  rewrite run_unfold, Harg, (loopBody_flag args i arg v unused Hp Hnew).
  cbv zeta. rewrite Hval, Hset. reflexivity.
Qed.

(** The turn of the loop at a flag whose value is found and set without
    error: the cursor moves by what the value took, the unused list is as
    it was. *)
Lemma loopBody_flag_set args i arg v unused v' fld argValue remain v'' :
  strings.HasPrefix arg "-" = true ->
  newFlagField (strings.TrimLeft arg "-") v = Val (v', inl fld) ->
  findFlagValue (skipn (i + 1) args) (Type_ fld) = (argValue, remain, None) ->
  SetValue fld argValue v' = Val (v'', None) ->
  loopBody args i arg v unused
  = Val (Continue (i + (length (skipn (i + 1) args) - length remain)) v'' unused).
Proof.
  intros Hp Hnew Hval Hset.
  rewrite (loopBody_flag args i arg v unused Hp Hnew). cbv zeta.
  rewrite Hval, Hset. reflexivity.
Qed.

(** The pass returns when the cursor is past the arguments. *)
Lemma run_end args j v u :
  nth_error args j = None -> run args j v u = Val (v, u, None).
Proof. intros H. rewrite run_unfold, H. reflexivity. Qed.

(** The pass at an argument that is not a flag: it joins the unused
    list. *)
Lemma run_positional args j next v u :
  nth_error args j = Some next ->
  strings.HasPrefix next "-" = false ->
  run args j v u = run args (S j) v (u ++ [next]).
Proof.
  intros Hn Hp. rewrite run_unfold, Hn.
  rewrite (@loopBody_unused args j next v u (or_introl Hp)). reflexivity.
Qed.

(** What [ApplyTo] returns, from what the pass returns at a cursor that
    the call reaches. *)
Lemma ApplyTo_from args str v0 i v unused v' u' e :
  getStructValue str = Val (inl v0) ->
  run args 0 v0 [] = run args i v unused ->
  run args i v unused = Val (v', u', e) ->
  ApplyTo args str = Val (store str v', u', e).
Proof.
  intros Hs Hreach Hrun.
  rewrite (ApplyTo_run ParseFloat UnmarshalText args str Hs), Hreach, Hrun.
  reflexivity.
Qed.

(** A flag whose value is found and that [setValue] accepts: the record
    afterwards, the turn of the loop and the rest of the pass. *)
Lemma flag_set_turn args i arg v unused t d' fld value remain fd x :
  nth_error args i = Some arg ->
  strings.HasPrefix arg "-" = true ->
  newFlagField (strings.TrimLeft arg "-") v = Val (Some (t, d'), inl fld) ->
  FieldByIndex t d' (fldIndex fld) = Val (Type_ fld, fd) ->
  findFlagValue (skipn (i + 1) args) (Type_ fld) = (value, remain, None) ->
  setValue value (Type_ fld) fd = Val (x, None) ->
  exists d'',
    updateByIndex t d' (fldIndex fld) (fun _ _ => Val (x, None)) = Val (d'', None)
    /\ FieldByIndex t d'' (fldIndex fld) = Val (Type_ fld, x)
    /\ loopBody args i arg v unused
       = Val (Continue (i + (length (skipn (i + 1) args) - length remain))
                       (Some (t, d'')) unused)
    /\ run args i v unused
       = run args (S (i + (length (skipn (i + 1) args) - length remain)))
             (Some (t, d'')) unused.
Proof.
  intros Harg Hp Hnew Hget Hval Hset.
  destruct (SetValue_spec ParseFloat UnmarshalText t d' fld value Hget Hset)
    as (d'' & HS & Hup & Hrd).
  exists d''. split; [exact Hup | ]. split; [exact Hrd | ]. split.
  - apply (@loopBody_flag_set args i arg v unused (Some (t, d')) fld value remain
             (Some (t, d'')) Hp Hnew Hval HS).
  - apply (@run_flag_set args i arg v unused (Some (t, d')) fld value remain
             (Some (t, d'')) Harg Hp Hnew Hval HS).
Qed.

(** A bool flag followed by a boolean literal. *)
Lemma run_bool_literal args i arg v unused t d' fld fd next b :
  nth_error args i = Some arg ->
  strings.HasPrefix arg "-" = true ->
  newFlagField (strings.TrimLeft arg "-") v = Val (Some (t, d'), inl fld) ->
  Type_ fld = TBasic None reflect.Bool ->
  FieldByIndex t d' (fldIndex fld) = Val (TBasic None reflect.Bool, fd) ->
  nth_error args (S i) = Some next ->
  strings.HasPrefix next "-" = false ->
  strconv.ParseBool next = (b, None) ->
  exists d'',
    updateByIndex t d' (fldIndex fld) (fun _ _ => Val (DBool b, None))
    = Val (d'', None)
    /\ FieldByIndex t d'' (fldIndex fld) = Val (TBasic None reflect.Bool, DBool b)
    /\ run args i v unused = run args (i + 2) (Some (t, d'')) unused.
Proof.
  intros Harg Hp Hnew Hty Hget Hnext Hnp Hb.
  destruct (SetValue_spec ParseFloat UnmarshalText t d' fld next Hget
              (setValue_bool ParseFloat UnmarshalText next fd Hb))
    as (d'' & Hset & Hup & Hrd).
  exists d''. split; [exact Hup | ]. split; [exact Hrd | ].
  rewrite (@run_flag_set args i arg v unused (Some (t, d')) fld next
             (skipn (i + 2) args) (Some (t, d'')) Harg Hp Hnew).
  - rewrite vals_next, Hnext. cbn [length]. f_equal. lia.
  - rewrite Hty, vals_next, Hnext.
    eapply findFlagValue_bool_literal; eassumption.
  - exact Hset.
Qed.

(** A bool flag followed by nothing, by a flag, or by an argument that
    is not a boolean literal. *)
Lemma run_bool_default args i arg v unused t d' fld fd :
  nth_error args i = Some arg ->
  strings.HasPrefix arg "-" = true ->
  newFlagField (strings.TrimLeft arg "-") v = Val (Some (t, d'), inl fld) ->
  Type_ fld = TBasic None reflect.Bool ->
  FieldByIndex t d' (fldIndex fld) = Val (TBasic None reflect.Bool, fd) ->
  (nth_error args (S i) = None
   \/ exists next,
       nth_error args (S i) = Some next
       /\ (strings.HasPrefix next "-" = true
           \/ snd (strconv.ParseBool next) <> None)) ->
  exists d'',
    updateByIndex t d' (fldIndex fld) (fun _ _ => Val (DBool true, None))
    = Val (d'', None)
    /\ FieldByIndex t d'' (fldIndex fld) = Val (TBasic None reflect.Bool, DBool true)
    /\ run args i v unused = run args (i + 1) (Some (t, d'')) unused.
Proof.
  intros Harg Hp Hnew Hty Hget Hnext.
  destruct (SetValue_spec ParseFloat UnmarshalText t d' fld "true" Hget
              (setValue_bool ParseFloat UnmarshalText "true" fd eq_refl))
    as (d'' & Hset & Hup & Hrd).
  exists d''. split; [exact Hup | ]. split; [exact Hrd | ].
  rewrite (@run_flag_set args i arg v unused (Some (t, d')) fld "true"
             (skipn (i + 1) args) (Some (t, d'')) Harg Hp Hnew).
  - f_equal. lia.
  - rewrite Hty. apply findFlagValue_bool_default.
    rewrite vals_next.
    destruct Hnext as [-> | (next & -> & Hn)]; [left; reflexivity | ].
    right. eauto.
  - exact Hset.
Qed.

(** C5.  A flag that resolves to a field that is not a bool ([newFlagField]
    returns the field, as it does whenever the record fits its type and
    [findFieldIndex] finds the name), with no argument after it or with a
    flag after it, ends the call: [ApplyTo] returns no unused list and the
    error whose message is the flag followed by "no value found"; the
    record is as field resolution left it, so no later argument has been
    applied. *)
Theorem no_value_found_aborts args i arg v unused v' fld :
  nth_error args i = Some arg ->
  strings.HasPrefix arg "-" = true ->
  newFlagField (strings.TrimLeft arg "-") v = Val (v', inl fld) ->
  reflect.kind (Type_ fld) <> reflect.Bool ->
  (nth_error args (S i) = None
   \/ exists next, nth_error args (S i) = Some next
                   /\ strings.HasPrefix next "-" = true) ->
  let err := errorString (arg ++ "  " ++ "no value found") in
  run args i v unused = Val (v', [], Some err)
  /\ Error err = (arg ++ "  no value found")%string
  /\ (forall str v0,
         getStructValue str = Val (inl v0) ->
         run args 0 v0 [] = run args i v unused ->
         ApplyTo args str = Val (store str v', [], Some err)).
Proof.
  intros Harg Hp Hnew Hk Hnext err.
  pose proof (@run_no_value args i arg v unused v' fld Harg Hp Hnew Hk Hnext) as Hrun.
  split; [exact Hrun | ]. split; [reflexivity | ].
  intros str v0 Hs Hreach.
  rewrite (ApplyTo_run ParseFloat UnmarshalText args str Hs), Hreach, Hrun.
  reflexivity.
Qed.

(** C1.  A flag that resolves to a field of type bool ([newFlagField]
    returns the field, as it does whenever the record fits its type and
    [findFieldIndex] finds the name).
    - When the next argument exists, is not a flag and is a boolean
      literal, the field takes that boolean: the turn of the loop leaves
      the record with the boolean stored in the field, the cursor on the
      literal and the unused list as it was, so the pass goes on two
      positions further; when nothing follows the literal, the pass, and
      [ApplyTo], return that record and that unused list without error.
    - Otherwise (no next argument, a flag, or not a boolean literal) the
      field becomes true and no argument is taken: the turn leaves the
      cursor on the flag, so the pass goes on at the next position, where
      the following argument is handled as any other (an argument that is
      not a flag joins the unused list); when nothing follows, the pass,
      and [ApplyTo], return the record with true in the field. *)
Theorem bool_flag_value_window args i arg v unused v' fld :
  nth_error args i = Some arg ->
  strings.HasPrefix arg "-" = true ->
  newFlagField (strings.TrimLeft arg "-") v = Val (v', inl fld) ->
  Type_ fld = TBasic None reflect.Bool ->
  exists t d',
    v' = Some (t, d')
    /\ (forall next b,
           nth_error args (S i) = Some next ->
           strings.HasPrefix next "-" = false ->
           strconv.ParseBool next = (b, None) ->
           exists d'',
             updateByIndex t d' (fldIndex fld) (fun _ _ => Val (DBool b, None))
             = Val (d'', None)
             /\ FieldByIndex t d'' (fldIndex fld)
                = Val (TBasic None reflect.Bool, DBool b)
             /\ loopBody args i arg v unused
                = Val (Continue (i + 1) (Some (t, d'')) unused)
             /\ run args i v unused = run args (i + 2) (Some (t, d'')) unused
             /\ (nth_error args (i + 2) = None ->
                 run args i v unused = Val (Some (t, d''), unused, None)
                 /\ forall str v0,
                     getStructValue str = Val (inl v0) ->
                     run args 0 v0 [] = run args i v unused ->
                     ApplyTo args str
                     = Val (store str (Some (t, d'')), unused, None)))
    /\ ((nth_error args (S i) = None
         \/ exists next,
             nth_error args (S i) = Some next
             /\ (strings.HasPrefix next "-" = true
                 \/ snd (strconv.ParseBool next) <> None)) ->
        exists d'',
          updateByIndex t d' (fldIndex fld) (fun _ _ => Val (DBool true, None))
          = Val (d'', None)
          /\ FieldByIndex t d'' (fldIndex fld)
             = Val (TBasic None reflect.Bool, DBool true)
          /\ loopBody args i arg v unused
             = Val (Continue i (Some (t, d'')) unused)
          /\ run args i v unused = run args (i + 1) (Some (t, d'')) unused
          /\ (nth_error args (S i) = None ->
              run args i v unused = Val (Some (t, d''), unused, None)
              /\ forall str v0,
                  getStructValue str = Val (inl v0) ->
                  run args 0 v0 [] = run args i v unused ->
                  ApplyTo args str
                  = Val (store str (Some (t, d'')), unused, None))
          /\ (forall next,
                 nth_error args (S i) = Some next ->
                 strings.HasPrefix next "-" = false ->
                 run args i v unused
                 = run args (i + 2) (Some (t, d'')) (unused ++ [next])
                 /\ (nth_error args (i + 2) = None ->
                     run args i v unused
                     = Val (Some (t, d''), unused ++ [next], None)
                     /\ forall str v0,
                         getStructValue str = Val (inl v0) ->
                         run args 0 v0 [] = run args i v unused ->
                         ApplyTo args str
                         = Val (store str (Some (t, d'')), unused ++ [next],
                                None)))).
Proof.
  intros Harg Hp Hnew Hty.
  destruct (newFlagField_found _ _ Hnew)
    as (t & d & d' & fd & -> & -> & _ & _ & _ & Hget).
  pose proof Hty as Hty'. unfold Type_ in Hty'. rewrite Hty' in Hget.
  exists t, d'. split; [reflexivity | ]. split.
  - intros next b Hnext Hnp Hb.
    assert (Hval : findFlagValue (skipn (i + 1) args) (Type_ fld)
                   = (next, skipn (i + 2) args, None)).
    { rewrite Hty, vals_next, Hnext.
      apply (@findFlagValue_bool_literal next (skipn (i + 2) args) b Hnp Hb). }
    assert (Hset : setValue next (Type_ fld) fd = Val (DBool b, None)).
    { rewrite Hty. apply (setValue_bool ParseFloat UnmarshalText next fd Hb). }
    assert (Hget' : FieldByIndex t d' (fldIndex fld) = Val (Type_ fld, fd)).
    { rewrite Hty. exact Hget. }
    destruct (@flag_set_turn args i arg (Some (t, d)) unused t d' fld next
                (skipn (i + 2) args) fd (DBool b) Harg Hp Hnew Hget' Hval Hset)
      as (d'' & Hup & Hrd & Hturn & Hrun).
    assert (Hpos : i + (length (skipn (i + 1) args) - length (skipn (i + 2) args))
                   = i + 1).
    { rewrite vals_next, Hnext. cbn [length]. lia. }
    rewrite Hpos in Hturn, Hrun. rewrite Hty in Hrd.
    replace (S (i + 1)) with (i + 2) in Hrun by lia.
    exists d''. split; [exact Hup | ]. split; [exact Hrd | ].
    split; [exact Hturn | ]. split; [exact Hrun | ].
    intros Hend.
    assert (Hres : run args i (Some (t, d)) unused = Val (Some (t, d''), unused, None)).
    { rewrite Hrun. apply run_end. exact Hend. }
    split; [exact Hres | ].
    intros str v0 Hs Hreach. eapply ApplyTo_from; [exact Hs | exact Hreach | exact Hres].
  - intros Hnext.
    assert (Hval : findFlagValue (skipn (i + 1) args) (Type_ fld)
                   = ("true", skipn (i + 1) args, None)).
    { rewrite Hty. apply findFlagValue_bool_default. rewrite vals_next.
      destruct Hnext as [-> | (next & -> & Hn)]; [left; reflexivity | ].
      right. eauto. }
    assert (Hset : setValue "true" (Type_ fld) fd = Val (DBool true, None)).
    { rewrite Hty. apply (setValue_bool ParseFloat UnmarshalText "true" fd eq_refl). }
    assert (Hget' : FieldByIndex t d' (fldIndex fld) = Val (Type_ fld, fd)).
    { rewrite Hty. exact Hget. }
    destruct (@flag_set_turn args i arg (Some (t, d)) unused t d' fld "true"
                (skipn (i + 1) args) fd (DBool true) Harg Hp Hnew Hget' Hval Hset)
      as (d'' & Hup & Hrd & Hturn & Hrun).
    rewrite Nat.sub_diag, Nat.add_0_r in Hturn, Hrun. rewrite Hty in Hrd.
    replace (S i) with (i + 1) in Hrun by lia.
    exists d''. split; [exact Hup | ]. split; [exact Hrd | ].
    split; [exact Hturn | ]. split; [exact Hrun | ]. split.
    + intros Hend.
      assert (Hres : run args i (Some (t, d)) unused
                     = Val (Some (t, d''), unused, None)).
      { rewrite Hrun. apply run_end. replace (i + 1) with (S i) by lia. exact Hend. }
      split; [exact Hres | ].
      intros str v0 Hs Hreach. eapply ApplyTo_from; [exact Hs | exact Hreach | exact Hres].
    + intros next Hn Hnp.
      assert (Hstep : run args i (Some (t, d)) unused
                      = run args (i + 2) (Some (t, d'')) (unused ++ [next])).
      { rewrite Hrun. replace (i + 1) with (S i) by lia.
        rewrite (@run_positional args (S i) next (Some (t, d'')) unused Hn Hnp).
        f_equal. lia. }
      split; [exact Hstep | ].
      intros Hend.
      assert (Hres : run args i (Some (t, d)) unused
                     = Val (Some (t, d''), unused ++ [next], None)).
      { rewrite Hstep. apply run_end. exact Hend. }
      split; [exact Hres | ].
      intros str v0 Hs Hreach. eapply ApplyTo_from; [exact Hs | exact Hreach | exact Hres].
Qed.

End TokenConsumer.

(* ===================================================================== *)
(** ** Splitting and joining *)

Lemma Split_nonempty s sep : strings.Split s sep <> [].
Proof.
  destruct s as [ | c s]; simpl; [discriminate | ].
  destruct (Ascii.eqb c sep); [discriminate | ].
  destruct (strings.Split s sep); discriminate.
Qed.

(** The pieces of [Split], joined with the separator, are the string that
    was split: nothing is trimmed and nothing is unquoted. *)
Lemma Join_Split s sep :
  strings.Join (strings.Split s sep) (String sep EmptyString) = s.
Proof.
  induction s as [ | c s IH]; simpl; [reflexivity | ].
  destruct (Ascii.eqb c sep) eqn:E.
  - apply Ascii.eqb_eq in E. subst c.
    destruct (strings.Split s sep) as [ | h t] eqn:S.
    + destruct (Split_nonempty _ _ S).
    + simpl. simpl in IH. rewrite IH. reflexivity.
  - destruct (strings.Split s sep) as [ | h t] eqn:S.
    + destruct (Split_nonempty _ _ S).
    + simpl in IH |- *. destruct t as [ | h' t'].
      * rewrite IH. reflexivity.
      * simpl. rewrite <- IH. reflexivity.
Qed.

(** No piece of [Split] holds the separator. *)
Lemma Split_no_sep s sep :
  Forall (fun piece => strings.IndexByte piece sep = false) (strings.Split s sep).
Proof.
  induction s as [ | c s IH]; simpl.
  - constructor; [reflexivity | constructor].
  - destruct (Ascii.eqb c sep) eqn:E.
    + constructor; [reflexivity | exact IH].
    + destruct (strings.Split s sep) as [ | h t].
      * constructor; [ | constructor]. simpl.
        rewrite Ascii.eqb_sym, E. reflexivity.
      * inversion IH; subst. constructor; [ | assumption].
        simpl. rewrite Ascii.eqb_sym, E. assumption.
Qed.

(* ===================================================================== *)
(** ** Setting a field *)

Section Coercion.

Variable ParseFloat : string -> Z -> float64 * option error.
Variable UnmarshalText :
  string -> option (string -> option data -> go (data * option error)).

Local Notation setValue := (setValue ParseFloat UnmarshalText).
Local Notation stringToType := (stringToType ParseFloat).
Local Notation Implements := (Implements UnmarshalText).
Local Notation asTextUnmarshaler := (asTextUnmarshaler UnmarshalText).
Local Notation ApplyTo := (ApplyTo ParseFloat UnmarshalText).

(** The types without a name have no [UnmarshalText]. *)
Lemma asTextUnmarshaler_basic k fld :
  asTextUnmarshaler (TBasic None k) fld = None.
Proof.
  unfold argflags.asTextUnmarshaler.
  destruct (reflect.Kind_eqb (reflect.kind (TBasic None k)) reflect.Ptr);
    reflexivity.
Qed.

Lemma asTextUnmarshaler_slice n elem fld :
  Implements (TPtr None (TSlice n elem)) = None ->
  asTextUnmarshaler (TSlice n elem) fld = None.
Proof.
  intros H. unfold argflags.asTextUnmarshaler. cbn [reflect.kind].
  change (reflect.Kind_eqb reflect.Slice reflect.Ptr) with false.
  cbn [negb]. rewrite H. reflexivity.
Qed.

(** [setValue] on a slice without [UnmarshalText] is [setFieldSlice] on
    the pieces of the value. *)
Lemma setValue_slice value n elem fld :
  Implements (TPtr None (TSlice n elem)) = None ->
  setValue value (TSlice n elem) fld =
  setFieldSlice (fun s d => setValue s elem d)
                (strings.Split value sliceDelimiter) (TSlice n elem) fld.
Proof.
  intros H. cbn [argflags.setValue].
  rewrite asTextUnmarshaler_slice by exact H. reflexivity.
Qed.

(** A field of type [string] takes the value as it is. *)
Lemma setValue_string value fld :
  setValue value (TBasic None reflect.String) fld = Val (DString value, None).
Proof. reflexivity. Qed.

(** The loop of [setFieldSlice] when every element is set without
    error. *)
Lemma rangeSet_ok (set : string -> data -> go (data * option error))
      (f : string -> data) (z : data) :
  forall ss,
    (forall s, In s ss -> set s z = Val (f s, None)) ->
    rangeSet set ss (repeat z (length ss)) = Val (map f ss, None).
Proof.
  induction ss as [ | s ss IH]; intros H; simpl; [reflexivity | ].
  rewrite (H s (or_introl eq_refl)). simpl.
  rewrite IH by (intros; apply H; right; assumption). reflexivity.
Qed.

(** The loop of [setFieldSlice] stops at the first element whose setting
    returns an error. *)
Lemma rangeSet_first_error (set : string -> data -> go (data * option error))
      (z : data) :
  forall ss i s d e,
    nth_error ss i = Some s ->
    set s z = Val (d, Some e) ->
    (forall j sj, j < i -> nth_error ss j = Some sj ->
                  exists dj, set sj z = Val (dj, None)) ->
    exists inst, rangeSet set ss (repeat z (length ss)) = Val (inst, Some e).
Proof.
  induction ss as [ | s0 ss IH]; intros i s d e Hi Hs Hbefore.
  - destruct i; discriminate.
  - destruct i as [ | i]; simpl in *.
    + inversion Hi; subst. rewrite Hs. simpl. eauto.
    + destruct (Hbefore 0 s0 ltac:(lia) eq_refl) as (d0 & H0).
      rewrite H0. simpl.
      destruct (IH i s d e Hi Hs) as (inst & Hinst).
      * intros j sj Hj Hn. apply (Hbefore (S j) sj); [lia | exact Hn].
      * rewrite Hinst. simpl. eauto.
Qed.

(** C6.  A field of type slice of string, without an [UnmarshalText] of
    its own, takes the pieces of the value cut at the commas, in order.
    The pieces joined with commas are the value itself (nothing is
    trimmed or unquoted) and none holds a comma; there is always at least
    one piece: "a,b,c" gives the three elements a, b, c, and the empty
    string gives one empty element. *)
Theorem string_slice_is_split value n fld :
  Implements (TPtr None (TSlice n (TBasic None reflect.String))) = None ->
  let t := TSlice n (TBasic None reflect.String) in
  setValue value t fld
  = Val (DSlice (map DString (strings.Split value sliceDelimiter)), None)
  /\ strings.Join (strings.Split value sliceDelimiter) "," = value
  /\ Forall (fun piece => strings.IndexByte piece sliceDelimiter = false)
            (strings.Split value sliceDelimiter)
  /\ 1 <= length (strings.Split value sliceDelimiter)
  /\ setValue "a,b,c" t fld
     = Val (DSlice [DString "a"; DString "b"; DString "c"], None)
  /\ setValue EmptyString t fld = Val (DSlice [DString EmptyString], None).
Proof.
  intros H t.
  assert (G : forall v, setValue v t fld
                        = Val (DSlice (map DString (strings.Split v sliceDelimiter)), None)).
  { intros v. unfold t. rewrite setValue_slice by exact H.
    unfold setFieldSlice. cbn [reflect.Zero].
    rewrite (@rangeSet_ok (fun s d => setValue s (TBasic None reflect.String) d)
                          DString (DString EmptyString)).
    - reflexivity.
    - intros s _. apply setValue_string. }
  split; [apply G | ]. split; [apply Join_Split | ].
  split; [apply Split_no_sep | ]. split.
  - pose proof (@Split_nonempty value sliceDelimiter).
    destruct (strings.Split value sliceDelimiter); [congruence | simpl; lia].
  - split; rewrite G; reflexivity.
Qed.

(** C7.  A field of slice type without an [UnmarshalText] of its own:
    when the setting of the [i]-th piece of the value returns an error,
    the pieces before it having been set, the assignment returns that
    error and the field keeps the contents it had.  More generally every
    error that [setFieldSlice] returns leaves the field as it was. *)
Theorem slice_element_error_keeps_field value n elem fld i s d e :
  Implements (TPtr None (TSlice n elem)) = None ->
  nth_error (strings.Split value sliceDelimiter) i = Some s ->
  (forall j sj, j < i ->
                nth_error (strings.Split value sliceDelimiter) j = Some sj ->
                exists dj, setValue sj elem (reflect.Zero elem) = Val (dj, None)) ->
  setValue s elem (reflect.Zero elem) = Val (d, Some e) ->
  setValue value (TSlice n elem) fld = Val (fld, Some e)
  /\ setFieldSlice (fun s d => setValue s elem d)
                   (strings.Split value sliceDelimiter) (TSlice n elem) fld
     = Val (fld, Some e)
  /\ (forall setElem ss fld' e',
         setFieldSlice setElem ss (TSlice n elem) fld = Val (fld', Some e') ->
         fld' = fld).
Proof.
  intros H Hi Hbefore Hs.
  assert (G : setFieldSlice (fun s d => setValue s elem d)
                            (strings.Split value sliceDelimiter) (TSlice n elem) fld
              = Val (fld, Some e)).
  { unfold setFieldSlice.
    destruct (@rangeSet_first_error (fun s d => setValue s elem d)
                (reflect.Zero elem) _ i s d e Hi Hs Hbefore) as (inst & Hinst).
    rewrite Hinst. reflexivity. }
  split; [rewrite setValue_slice by exact H; exact G | ].
  split; [exact G | ].
  intros setElem ss fld' e'. unfold setFieldSlice.
  destruct (rangeSet setElem ss _) as [[inst [err | ]] | msg]; simpl;
    intros E; inversion E; reflexivity.
Qed.

End Coercion.

(* ===================================================================== *)
(** ** Numbers *)

(** [ParseInt] in base 64 reads nothing: the base is refused (or, for an
    input without digits, the syntax). *)
Lemma ParseInt_base64 s :
  exists Err,
    strconv.ParseInt s 64 64 = (0%Z, Some (NumError "ParseInt" s Err))
    /\ (Err = strconv.ErrSyntax \/ Err = "invalid base 64").
Proof.
  assert (U : forall u, u <> EmptyString ->
                        strconv.ParseUint u 64 64
                        = (0%Z, Some (NumError "ParseUint" u "invalid base 64"))).
  { intros [ | c u] Hu; [congruence | reflexivity]. }
  destruct s as [ | c s].
  - exists strconv.ErrSyntax. split; [reflexivity | left; reflexivity].
  - unfold strconv.ParseInt. cbn [String.eqb].
    destruct (Ascii.eqb c "+") eqn:Eplus; [ | destruct (Ascii.eqb c "-") eqn:Eminus].
    + destruct s as [ | c' s'].
      * exists strconv.ErrSyntax. split; [reflexivity | left; reflexivity].
      * rewrite U by discriminate.
        exists "invalid base 64". split; [reflexivity | right; reflexivity].
    + destruct s as [ | c' s'].
      * exists strconv.ErrSyntax. split; [reflexivity | left; reflexivity].
      * rewrite U by discriminate.
        exists "invalid base 64". split; [reflexivity | right; reflexivity].
    + rewrite U by discriminate.
      exists "invalid base 64". split; [reflexivity | right; reflexivity].
Qed.

Section Numbers.

Variable ParseFloat : string -> Z -> float64 * option error.
Variable UnmarshalText :
  string -> option (string -> option data -> go (data * option error)).

Local Notation setValue := (setValue ParseFloat UnmarshalText).
Local Notation stringToType := (stringToType ParseFloat).
Local Notation ApplyTo := (ApplyTo ParseFloat UnmarshalText).

(** C2, on the code.  A field of type int64, int32, int16 or int8 is
    never set: [stringToType] calls [ParseInt] with base 64, which no
    input passes, so [setValue] returns that error for every value, a
    decimal numeral in range included, and leaves the field as it was. *)
Theorem sized_int_never_parses s k fld :
  In k [reflect.Int64; reflect.Int32; reflect.Int16; reflect.Int8] ->
  exists Err,
    setValue s (TBasic None k) fld = Val (fld, Some (NumError "ParseInt" s Err))
    /\ (Err = strconv.ErrSyntax \/ Err = "invalid base 64").
Proof.
  intros Hk. destruct (ParseInt_base64 s) as (Err & HP & HE).
  exists Err. split; [ | exact HE].
  cbn [argflags.setValue]. rewrite asTextUnmarshaler_basic.
  unfold argflags.stringToType.
  simpl in Hk.
  destruct Hk as [<- | [<- | [<- | [<- | []]]]]; cbn [reflect.kind];
    rewrite HP; reflexivity.
Qed.

(** A field of type int takes the decimal numeral that [Atoi] reads. *)
Lemma setValue_int s i fld :
  strconv.Atoi s = (i, None) ->
  setValue s (TBasic None reflect.Int) fld = Val (DInt i, None).
Proof.
  intros H. cbn [argflags.setValue]. rewrite asTextUnmarshaler_basic.
  unfold argflags.stringToType. cbn [reflect.kind]. rewrite H. reflexivity.
Qed.

(** C9, on the code.  A field of type float32 is never set: when the
    value parses, [stringToType] returns a float64, which [Set] refuses
    to store in a float32 variable, so [setValue] panics; when it does
    not parse, [setValue] returns the error of the parser. *)
Theorem float32_never_set s fld :
  match ParseFloat s 32 with
  | (_, None) =>
      setValue s (TBasic None reflect.Float32) fld
      = Panic "reflect.Set: value is not assignable to the type of the variable"
  | (_, Some e) =>
      setValue s (TBasic None reflect.Float32) fld = Val (fld, Some e)
  end
  /\ forall d, setValue s (TBasic None reflect.Float32) fld <> Val (d, None).
Proof.
  cbn [argflags.setValue]. rewrite asTextUnmarshaler_basic.
  unfold argflags.stringToType. cbn [reflect.kind].
  destruct (ParseFloat s 32) as [f [e | ]]; simpl; split;
    try reflexivity; intros d; discriminate.
Qed.

(** What [getStructValue] accepts: a pointer whose element is of kind
    Struct, and nothing else; the designated struct is what the pointer
    points to.  The unwrapping of an interface in [getStructValue] is
    never reached. *)
Lemma getStructValue_accepts str v :
  getStructValue str = Val (inl v) ->
  exists n elem p,
    str = Some (TPtr n elem, DPtr p)
    /\ reflect.kind elem = reflect.Struct
    /\ v = match p with
           | Some d => Some (elem, d)
           | None => None
           end.
Proof.
  unfold getStructValue.
  destruct str as [[t d] | ]; simpl; [ | discriminate].
  destruct t as [ | n elem | | | ]; simpl; try discriminate.
  destruct (reflect.Kind_eqb (reflect.kind elem) reflect.Struct) eqn:K;
    simpl; [ | discriminate].
  apply Kind_eqb_eq in K.
  destruct d as [ | | | | [d | ] | | | | ]; simpl; try discriminate.
  - rewrite K. simpl. intros H. inversion H; subst.
    exists n, elem, (Some d). auto.
  - intros H. inversion H; subst. exists n, elem, None. auto.
Qed.

(** Every argument that is not nil and whose type is not a pointer to a
    struct is refused at once: the error, no unused list, and the
    argument as it was. *)
Lemma ApplyTo_refuses args str t :
  reflect.TypeOf str = Some t ->
  isStructPointer t = false ->
  ApplyTo args str
  = Val (str, [], Some (errorString "flags can only be applied to a struct pointer")).
Proof.
  intros Ht Hp. unfold argflags.ApplyTo, getStructValue.
  rewrite Ht, Hp. reflexivity.
Qed.

(** C3, on the code.  A pointer to an interface is refused like every
    other pointer to a non-struct, whatever the interface holds (a
    pointer to a struct included): [ApplyTo] returns the error without
    looking at the arguments.  The nil interface makes [ApplyTo] panic. *)
Theorem pointer_to_interface_refused args n m dyn :
  ApplyTo args (Some (TPtr n (TInterface m), DPtr (Some (DIface dyn))))
  = Val (Some (TPtr n (TInterface m), DPtr (Some (DIface dyn))), [],
         Some (errorString "flags can only be applied to a struct pointer"))
  /\ ApplyTo args None
     = Panic "runtime error: invalid memory address or nil pointer dereference".
Proof. split; reflexivity. Qed.

End Numbers.

(* ===================================================================== *)
(** ** Names up to case *)

Lemma EqualFold_ToLower s : forall t,
  strings.EqualFold s t = String.eqb (strings.ToLower s) (strings.ToLower t).
Proof.
  induction s as [ | a s IH]; intros [ | b t]; simpl; try reflexivity.
  rewrite IH. destruct (Ascii.eqb (strings.toLower a) (strings.toLower b));
    reflexivity.
Qed.

Lemma EqualFold_refl s : strings.EqualFold s s = true.
Proof. rewrite EqualFold_ToLower. apply String.eqb_refl. Qed.

Lemma EqualFold_sym s t : strings.EqualFold s t = strings.EqualFold t s.
Proof. rewrite !EqualFold_ToLower. apply String.eqb_sym. Qed.

(** Two names equal up to case match the same names. *)
Lemma EqualFold_left a b x :
  strings.EqualFold a b = true -> strings.EqualFold a x = strings.EqualFold b x.
Proof.
  rewrite !EqualFold_ToLower. intros H. apply String.eqb_eq in H.
  rewrite H. reflexivity.
Qed.

Lemma EqualFold_right a b x :
  strings.EqualFold a b = true -> strings.EqualFold x a = strings.EqualFold x b.
Proof.
  intros H. rewrite (EqualFold_sym x a), (EqualFold_sym x b).
  apply EqualFold_left. exact H.
Qed.

Lemma toLower_toUpper c : strings.toLower (strings.toUpper c) = strings.toLower c.
Proof.
  destruct c as [[ | ] [ | ] [ | ] [ | ] [ | ] [ | ] [ | ] [ | ]]; reflexivity.
Qed.

Lemma toLower_toLower c : strings.toLower (strings.toLower c) = strings.toLower c.
Proof.
  destruct c as [[ | ] [ | ] [ | ] [ | ] [ | ] [ | ] [ | ] [ | ]]; reflexivity.
Qed.

(** A name and its upper-case or lower-case spelling are equal up to
    case. *)
Lemma EqualFold_ToUpper s : strings.EqualFold (strings.ToUpper s) s = true.
Proof.
  induction s as [ | c s IH]; simpl; [reflexivity | ].
  rewrite toLower_toUpper, Ascii.eqb_refl. exact IH.
Qed.

Lemma EqualFold_ToLower_self s : strings.EqualFold (strings.ToLower s) s = true.
Proof.
  induction s as [ | c s IH]; simpl; [reflexivity | ].
  rewrite toLower_toLower, Ascii.eqb_refl. exact IH.
Qed.

Lemma EqualFold_empty t : strings.EqualFold t EmptyString = true -> t = EmptyString.
Proof. destruct t; [reflexivity | discriminate]. Qed.

(* ===================================================================== *)
(** ** Field resolution *)

Lemma isNameInTag_fold name name' tags :
  strings.EqualFold name name' = true ->
  isNameInTag name tags = isNameInTag name' tags.
Proof.
  intros H. induction tags as [ | t tags IH]; simpl; [reflexivity | ].
  rewrite (EqualFold_right _ _ t H), IH. reflexivity.
Qed.

Lemma scanFields_fold name name' fields :
  strings.EqualFold name name' = true ->
  forall i subs, scanFields name fields i subs = scanFields name' fields i subs.
Proof.
  intros H. induction fields as [ | f fields IH]; intros i subs; simpl;
    [reflexivity | ].
  rewrite (EqualFold_left _ _ (reflect.Name f) H).
  rewrite (isNameInTag_fold _ _ _ H). rewrite !IH. reflexivity.
Qed.

Lemma rangeSubArgs_ext find find' parents subs : forall fields i,
  Forall (fun f => forall p, find (reflect.Type_ f) p = find' (reflect.Type_ f) p)
         fields ->
  rangeSubArgs find parents subs fields i = rangeSubArgs find' parents subs fields i.
Proof.
  induction fields as [ | f fields IH]; intros i HF; simpl; [reflexivity | ].
  inversion HF; subst. rewrite IH by assumption.
  destruct (existsb (Nat.eqb i) subs); [ | reflexivity].
  match goal with H : forall p, _ |- _ => rewrite H end. reflexivity.
Qed.

(** Field resolution sees the flag name through [strings.EqualFold]
    only: two names that [EqualFold] does not tell apart resolve alike. *)
Lemma isNameInTag_same name name' tags :
  (forall x, strings.EqualFold x name' = strings.EqualFold x name) ->
  isNameInTag name' tags = isNameInTag name tags.
Proof.
  intros H. induction tags as [ | t tags IH]; simpl; [reflexivity | ].
  rewrite (H t), IH. reflexivity.
Qed.

Lemma scanFields_same name name' fields :
  (forall x, strings.EqualFold name' x = strings.EqualFold name x) ->
  (forall x, strings.EqualFold x name' = strings.EqualFold x name) ->
  forall i subs, scanFields name' fields i subs = scanFields name fields i subs.
Proof.
  intros Hl Hr. induction fields as [ | f fields IH]; intros i subs; simpl;
    [reflexivity | ].
  rewrite (Hl (reflect.Name f)), (isNameInTag_same name name' _ Hr), !IH.
  reflexivity.
Qed.

Lemma findFieldIndex_same name name' :
  (forall x, strings.EqualFold name' x = strings.EqualFold name x) ->
  (forall x, strings.EqualFold x name' = strings.EqualFold x name) ->
  forall t parents,
    findFieldIndex name' t parents = findFieldIndex name t parents.
Proof.
  intros Hl Hr t. induction t using rtype_induction; intros parents;
    try reflexivity.
  - simpl. apply IHt.
  - cbn [findFieldIndex]. rewrite (scanFields_same name name' fs Hl Hr).
    destruct (scanFields name fs 0 []) as [[i | subs] | msg]; try reflexivity.
    cbn [bind]. apply rangeSubArgs_ext. exact H.
Qed.

(** Field resolution does not see the case of the flag name. *)
Lemma findFieldIndex_fold name name' :
  strings.EqualFold name name' = true ->
  forall t parents,
    findFieldIndex name t parents = findFieldIndex name' t parents.
Proof.
  intros H t. induction t using rtype_induction; intros parents;
    try reflexivity.
  - simpl. apply IHt.
  - cbn [findFieldIndex]. rewrite (scanFields_fold _ _ fs H).
    destruct (scanFields name' fs 0 []) as [[i | subs] | msg]; try reflexivity.
    cbn [bind]. apply rangeSubArgs_ext. exact H0.
Qed.

(** A field tagged with an empty alias, or not tagged at all, matches the
    empty name. *)
Lemma isNameInTag_empty tags :
  In EmptyString tags -> isNameInTag EmptyString tags = true.
Proof.
  induction tags as [ | t tags IH]; intros HIn; [destruct HIn | ].
  simpl. destruct HIn as [-> | HIn]; [reflexivity | ].
  rewrite (IH HIn).
  destruct (String.eqb t "omitempty" || String.eqb t "-" || String.eqb t "+")%bool;
    [reflexivity | ].
  destruct (strings.EqualFold t EmptyString); reflexivity.
Qed.

(** The first loop stops at the first field that matches by itself. *)
Lemma scanFields_match name pre f post :
  directMatch name f = true ->
  (forall g, In g pre -> directMatch name g = false /\ misconfigured g = false) ->
  forall i subs,
    scanFields name (pre ++ f :: post) i subs = Val (inl (i + length pre)).
Proof.
  intros Hf. induction pre as [ | g pre IH]; intros Hpre i subs.
  - simpl. unfold directMatch in Hf.
    apply andb_true_iff in Hf. destruct Hf as [He Hm]. rewrite He. simpl.
    rewrite Nat.add_0_r.
    destruct (strings.EqualFold name (reflect.Name f)); [reflexivity | ].
    simpl in Hm. rewrite Hm. reflexivity.
  - destruct (Hpre g (or_introl eq_refl)) as [Hg Hc].
    assert (Hrest : forall subs', scanFields name (pre ++ f :: post) (S i) subs'
                                  = Val (inl (i + length (g :: pre)))).
    { intros subs'. rewrite IH.
      - simpl. f_equal. f_equal. lia.
      - intros g' Hg'. apply Hpre. right. exact Hg'. }
    simpl app. cbn [scanFields].
    unfold directMatch in Hg. unfold misconfigured, subArg in Hc.
    destruct (reflect.IsExported g); simpl in Hg, Hc |- *; [ | apply Hrest].
    apply orb_false_iff in Hg. destruct Hg as [Hn Ht]. rewrite Hn, Ht.
    destruct (isSubArgTag _); simpl in Hc |- *; [ | apply Hrest].
    rewrite Hc. apply Hrest.
Qed.

(** The first loop, when no field matches by itself, records the
    positions of the fields marked as sub arguments. *)
Lemma scanFields_nomatch name fields :
  (forall g, In g fields -> directMatch name g = false /\ misconfigured g = false) ->
  forall i subs,
    scanFields name fields i subs = Val (inr (subs ++ subArgPositions fields i)).
Proof.
  induction fields as [ | g fields IH]; intros Hall i subs.
  - simpl. rewrite app_nil_r. reflexivity.
  - destruct (Hall g (or_introl eq_refl)) as [Hg Hc].
    assert (Hrest : forall g', In g' fields ->
                               directMatch name g' = false /\ misconfigured g' = false).
    { intros g' Hg'. apply Hall. right. exact Hg'. }
    cbn [scanFields subArgPositions].
    unfold directMatch in Hg. unfold misconfigured in Hc. unfold subArg in Hc |- *.
    destruct (reflect.IsExported g); simpl in Hg, Hc |- *.
    + apply orb_false_iff in Hg. destruct Hg as [Hn Ht]. rewrite Hn, Ht.
      destruct (isSubArgTag _); simpl in Hc |- *.
      * rewrite Hc, (IH Hrest), <- app_assoc. reflexivity.
      * apply (IH Hrest).
    + apply (IH Hrest).
Qed.

Lemma subArgPositions_ge fields : forall i j,
  j < i -> existsb (Nat.eqb j) (subArgPositions fields i) = false.
Proof.
  induction fields as [ | f fields IH]; intros i j Hj; simpl; [reflexivity | ].
  destruct (subArg f); simpl.
  - rewrite IH by lia. replace (j =? i)%nat with false; [reflexivity | ].
    symmetry. apply Nat.eqb_neq. lia.
  - apply IH. lia.
Qed.

(** A position is recorded when the field there is marked. *)
Lemma subArgPositions_at pre f post : forall i,
  existsb (Nat.eqb (i + length pre)) (subArgPositions (pre ++ f :: post) i)
  = subArg f.
Proof.
  induction pre as [ | g pre IH]; intros i; cbn [app subArgPositions length].
  - rewrite Nat.add_0_r. destruct (subArg f); cbn [existsb].
    + rewrite Nat.eqb_refl. reflexivity.
    + apply subArgPositions_ge. lia.
  - replace (i + S (length pre)) with (S i + length pre) by lia.
    destruct (subArg g); cbn [existsb]; [ | apply IH].
    rewrite IH. replace (S i + length pre =? i)%nat with false; [reflexivity | ].
    symmetry. apply Nat.eqb_neq. lia.
Qed.

(** The second loop returns what the first marked field that holds the
    name returns. *)
Lemma rangeSubArgs_first find parents pre f post q :
  subArg f = true ->
  find (reflect.Type_ f) (parents ++ [length pre]) = Val q ->
  q <> [] ->
  (forall j g, nth_error pre j = Some g -> subArg g = true ->
               find (reflect.Type_ g) (parents ++ [j]) = Val []) ->
  rangeSubArgs find parents (subArgPositions (pre ++ f :: post) 0)
               (pre ++ f :: post) 0 = Val q.
Proof.
  intros Hf Hq Hne Hpre.
  assert (G : forall rem done,
             pre = done ++ rem ->
             rangeSubArgs find parents (subArgPositions (pre ++ f :: post) 0)
                          (rem ++ f :: post) (length done) = Val q).
  { induction rem as [ | g rem IH]; intros done Hsplit.
    - rewrite app_nil_r in Hsplit. subst done. cbn [app rangeSubArgs].
      pose proof (subArgPositions_at pre f post 0) as E. cbn [Nat.add] in E.
      rewrite E, Hf, Hq. cbn [bind].
      destruct q; [congruence | reflexivity].
    - cbn [app rangeSubArgs].
      assert (E : existsb (Nat.eqb (length done))
                          (subArgPositions (pre ++ f :: post) 0) = subArg g).
      { rewrite Hsplit, <- app_assoc. cbn [app].
        apply (subArgPositions_at done g (rem ++ f :: post) 0). }
      assert (Hnext : rangeSubArgs find parents
                                   (subArgPositions (pre ++ f :: post) 0)
                                   (rem ++ f :: post) (S (length done)) = Val q).
      { replace (S (length done)) with (length (done ++ [g]))
          by (rewrite length_app; simpl; lia).
        apply IH. rewrite <- app_assoc. exact Hsplit. }
      rewrite E. destruct (subArg g) eqn:Sg; [ | exact Hnext].
      rewrite (Hpre (length done) g); [cbn [bind length Nat.ltb Nat.leb]; exact Hnext | | exact Sg].
      rewrite Hsplit, nth_error_app2 by lia.
      rewrite Nat.sub_diag. reflexivity. }
  apply (G pre []). reflexivity.
Qed.

(** C8.  Field resolution in a struct whose fields are [pre], then [f],
    then [post], where no field of [pre] matches the name by itself (nor is
    a misplaced sub argument mark met on the way).
    - The name counts through [strings.EqualFold] only: a name that
      [EqualFold] does not tell apart from it resolves alike, in every
      type.
    - For names and types written in ASCII, where [EqualFold] is the
      comparison up to the case of the letters, the case of the name does
      not matter: a name equal to it up to case resolves alike, and so do
      its upper-case and lower-case spellings.
    - When [f] matches by itself, by its name or else by an alias, the
      result is the position of [f]: the first match in declaration order
      wins, whatever the sub arguments before it hold.
    - When no field matches by itself, the sub arguments are searched in
      declaration order: the result is what the first of them that holds
      the name gives. *)
Theorem field_resolution_order name n pre f post parents :
  (forall g, In g pre -> directMatch name g = false /\ misconfigured g = false) ->
  (forall name',
      (forall x, strings.EqualFold name' x = strings.EqualFold name x) ->
      (forall x, strings.EqualFold x name' = strings.EqualFold x name) ->
      forall t p, findFieldIndex name' t p = findFieldIndex name t p)
  /\ (isASCII name = true ->
      forall t p,
        asciiNames t = true ->
        (forall name',
            isASCII name' = true ->
            strings.EqualFold name name' = true ->
            findFieldIndex name' t p = findFieldIndex name t p)
        /\ findFieldIndex (strings.ToUpper name) t p = findFieldIndex name t p
        /\ findFieldIndex (strings.ToLower name) t p = findFieldIndex name t p)
  /\ (directMatch name f = true ->
      findFieldIndex name (TStruct n (pre ++ f :: post)) parents
      = Val (parents ++ [length pre]))
  /\ (forall q,
         (forall g, In g (f :: post) ->
                    directMatch name g = false /\ misconfigured g = false) ->
         subArg f = true ->
         findFieldIndex name (reflect.Type_ f) (parents ++ [length pre]) = Val q ->
         q <> [] ->
         (forall j g, nth_error pre j = Some g -> subArg g = true ->
                      findFieldIndex name (reflect.Type_ g) (parents ++ [j]) = Val []) ->
         findFieldIndex name (TStruct n (pre ++ f :: post)) parents = Val q).
Proof.
  intros Hpre. split; [ | split; [ | split]].
  - intros name' Hl Hr t p. apply (findFieldIndex_same name name' Hl Hr).
  - intros _ t p _.
    assert (G : forall name', strings.EqualFold name name' = true ->
                              findFieldIndex name' t p = findFieldIndex name t p).
    { intros name' H. apply findFieldIndex_same.
      - intros x. symmetry. apply EqualFold_left. exact H.
      - intros x. symmetry. apply EqualFold_right. exact H. }
    split; [ | split].
    + intros name' _ H. apply G. exact H.
    + apply G. rewrite EqualFold_sym. apply EqualFold_ToUpper.
    + apply G. rewrite EqualFold_sym. apply EqualFold_ToLower_self.
  - intros Hf. cbn [findFieldIndex].
    rewrite (scanFields_match name pre f post Hf Hpre). reflexivity.
  - intros q Hpost Hsub Hq Hne Hbefore. cbn [findFieldIndex].
    rewrite scanFields_nomatch.
    + cbn [bind app].
      apply (rangeSubArgs_first (fun t p => findFieldIndex name t p)
                                parents pre f post Hsub Hq Hne Hbefore).
    + intros g Hg. apply in_app_or in Hg. destruct Hg as [Hg | Hg].
      * apply Hpre. exact Hg.
      * apply Hpost. exact Hg.
Qed.

(* ===================================================================== *)
(** ** Records that fit their type *)

(** The contents of a struct hold one datum per field, each fitting the
    type of its field. *)
Lemma wt_struct n fs d :
  wt (TStruct n fs) d = true ->
  exists ds,
    d = DStruct ds
    /\ forall i f, nth_error fs i = Some f ->
                   exists x, nth_error ds i = Some x
                             /\ wt (reflect.Type_ f) x = true.
Proof.
  destruct d as [ | | | | | | ds | | ]; try discriminate.
  intros H. exists ds. split; [reflexivity | ].
  cbn [wt] in H. revert ds H.
  induction fs as [ | g fs IH]; intros ds H i f Hi.
  - destruct i; discriminate.
  - destruct ds as [ | x ds]; [discriminate | ].
    apply andb_true_iff in H. destruct H as [Hx Hrest].
    destruct i as [ | i]; simpl in Hi |- *.
    + inversion Hi; subst. eauto.
    + apply (IH ds Hrest i f Hi).
Qed.

(** A pointer field holds a pointer. *)
Lemma wt_ptr n e x :
  wt (TPtr n e) x = true -> exists p, x = DPtr p.
Proof. destruct x; try discriminate. eauto. Qed.

(** The field at one position of a record that fits its type is reached,
    once [ensureNotNil] has run. *)
Lemma ensureNotNil_one n fs d i f :
  wt (TStruct n fs) d = true ->
  nth_error fs i = Some f ->
  exists d' x,
    ensureNotNil (TStruct n fs) d [i] = Val d'
    /\ FieldByIndex (TStruct n fs) d' [i] = Val (reflect.Type_ f, x).
Proof.
  intros Hwt Hf. destruct (wt_struct _ _ _ Hwt) as (ds & -> & Hds).
  destruct (Hds i f Hf) as (x & Hx & Hwx).
  assert (HF : reflect.Field (TStruct n fs) (DStruct ds) i = Val (reflect.Type_ f, x)).
  { unfold reflect.Field. rewrite Hf, Hx. reflexivity. }
  cbn [ensureNotNil]. rewrite HF. cbn [bind].
  destruct (reflect.Type_ f) as [ | pn elem | | | ] eqn:Tf;
    try (destruct (Field_SetField _ _ _ x HF) as (d' & Hs & Hr);
         cbn [ensureNotNil bind]; rewrite Hs; exists d', x; split; [reflexivity | ];
         unfold FieldByIndex; cbn [FieldByIndexFrom bind]; rewrite Hr; reflexivity).
  destruct (wt_ptr _ _ _ Hwx) as (p & ->).
  destruct (Field_SetField _ _ _
              (DPtr (Some match p with None => reflect.Zero elem | Some d => d end)) HF)
    as (d' & Hs & Hr).
  cbn [ensureNotNil bind]. rewrite Hs. eexists d', _. split; [reflexivity | ].
  unfold FieldByIndex. cbn [FieldByIndexFrom bind]. rewrite Hr. reflexivity.
Qed.

(* ===================================================================== *)
(** ** Resolved paths can be materialized *)

Lemma wt_struct_fields n fs ds :
  wt (TStruct n fs) (DStruct ds) = wtFields fs ds.
Proof.
  cbn [wt]. revert ds. induction fs as [ | f fs IH]; intros [ | x ds];
    try reflexivity.
  cbn [wtFields]. rewrite <- IH. reflexivity.
Qed.

Lemma wtFields_nth fs : forall ds i f,
  wtFields fs ds = true ->
  nth_error fs i = Some f ->
  exists x, nth_error ds i = Some x /\ wt (reflect.Type_ f) x = true.
Proof.
  induction fs as [ | g fs IH]; intros ds i f H Hi.
  - destruct i; discriminate.
  - destruct ds as [ | x ds]; [discriminate | ].
    cbn [wtFields] in H. apply andb_true_iff in H. destruct H as [Hx Hrest].
    destruct i as [ | i]; simpl in Hi |- *.
    + inversion Hi; subst. eauto.
    + apply (@IH ds i f Hrest Hi).
Qed.

Lemma wtFields_replaceNth fs : forall ds i f x,
  wtFields fs ds = true ->
  nth_error fs i = Some f ->
  wt (reflect.Type_ f) x = true ->
  wtFields fs (reflect.replaceNth ds i x) = true.
Proof.
  induction fs as [ | g fs IH]; intros ds i f x H Hi Hx.
  - destruct i; discriminate.
  - destruct ds as [ | y ds]; [discriminate | ].
    cbn [wtFields] in H. apply andb_true_iff in H. destruct H as [Hy Hrest].
    destruct i as [ | i]; simpl in Hi |- *.
    + inversion Hi; subst. rewrite Hx, Hrest. reflexivity.
    + rewrite Hy. simpl. apply (@IH ds i f x Hrest Hi Hx).
Qed.

(** The zero value of a type fits the type. *)
Lemma wt_Zero t : wt t (reflect.Zero t) = true.
Proof.
  induction t as [n k | n e IH | n e IH | n fs IH | n] using rtype_induction.
  - destruct k; reflexivity.
  - reflexivity.
  - reflexivity.
  - cbn [reflect.Zero]. rewrite wt_struct_fields.
    induction IH as [ | f fs Hf _ IHfs]; [reflexivity | ].
    cbn [map wtFields]. rewrite Hf, IHfs. reflexivity.
  - reflexivity.
Qed.

(** Past a pointer to a struct, or a struct, a path that goes on is a
    path in that struct. *)
Lemma pathType_step t rest ft :
  rest <> [] ->
  pathType false t rest = Some ft ->
  (exists pn n fs, t = TPtr pn (TStruct n fs)
                   /\ pathType true (TStruct n fs) rest = Some ft)
  \/ (exists n fs, t = TStruct n fs /\ pathType true t rest = Some ft).
Proof.
  destruct rest as [ | x rest]; [congruence | ]. intros _.
  cbn [pathType negb andb].
  destruct (isStructPointer t) eqn:SP.
  - destruct t as [ | pn elem | | | ]; try discriminate.
    destruct elem as [ | | | n fs | ]; try discriminate.
    intros H. left. exists pn, n, fs. split; [reflexivity | exact H].
  - destruct t as [ | | | n fs | ]; try discriminate.
    intros H. right. exists n, fs. split; [reflexivity | exact H].
Qed.

Lemma FieldByIndexFrom_into_ptr pn n fs z rest :
  rest <> [] ->
  FieldByIndexFrom false (TPtr pn (TStruct n fs)) (DPtr (Some z)) rest
  = FieldByIndexFrom true (TStruct n fs) z rest.
Proof.
  destruct rest as [ | x rest]; [congruence | ]. intros _. reflexivity.
Qed.

Lemma FieldByIndexFrom_into_struct n fs z rest :
  FieldByIndexFrom false (TStruct n fs) z rest
  = FieldByIndexFrom true (TStruct n fs) z rest.
Proof. destruct rest as [ | x rest]; reflexivity. Qed.

(** In a record that fits its struct type, [ensureNotNil] along a path of
    the type succeeds; the record still fits afterwards and
    [FieldByIndex] reaches the field the path designates. *)
Lemma ensureNotNil_path : forall index n fs d ft,
  wt (TStruct n fs) d = true ->
  pathType true (TStruct n fs) index = Some ft ->
  index <> [] ->
  exists d' x,
    ensureNotNil (TStruct n fs) d index = Val d'
    /\ wt (TStruct n fs) d' = true
    /\ FieldByIndexFrom true (TStruct n fs) d' index = Val (ft, x)
    /\ wt ft x = true.
Proof.
  induction index as [ | i rest IH]; intros n fs d ft Hwt Hpath Hne;
    [congruence | clear Hne].
  destruct (wt_struct _ _ _ Hwt) as (ds & -> & _).
  rewrite wt_struct_fields in Hwt.
  cbn [pathType negb andb] in Hpath.
  destruct (nth_error fs i) as [f | ] eqn:Hf; [ | discriminate].
  destruct (@wtFields_nth fs ds i f Hwt Hf) as (x & Hx & Hwx).
  assert (HF : reflect.Field (TStruct n fs) (DStruct ds) i = Val (reflect.Type_ f, x)).
  { unfold reflect.Field. rewrite Hf, Hx. reflexivity. }
  pose proof (nth_error_lt _ _ Hx) as Hlt. apply Nat.ltb_lt in Hlt.
  (* what is stored back in field [i], and what is found there *)
  assert (Hstore : forall y,
             wt (reflect.Type_ f) y = true ->
             exists d', reflect.SetField (DStruct ds) i y = Val d'
                        /\ wt (TStruct n fs) d' = true
                        /\ reflect.Field (TStruct n fs) d' i = Val (reflect.Type_ f, y)).
  { intros y Hy. unfold reflect.SetField. rewrite Hlt.
    eexists. split; [reflexivity | ]. split.
    - rewrite wt_struct_fields. apply (@wtFields_replaceNth fs ds i f y Hwt Hf Hy).
    - unfold reflect.Field. rewrite Hf, (@nth_error_replaceNth _ ds i y x Hx).
      reflexivity. }
  cbn [ensureNotNil FieldByIndexFrom]. rewrite HF. cbn [bind].
  destruct rest as [ | j rest'].
  - (* the field itself *)
    cbn [pathType] in Hpath. inversion Hpath; subst ft; clear Hpath.
    destruct (reflect.Type_ f) as [ | pn elem | | | ] eqn:Tf;
      try (cbn [ensureNotNil bind];
           destruct (Hstore x Hwx) as (d' & Hs & Hw & Hr);
           rewrite Hs; exists d', x; rewrite Hr; cbn [bind FieldByIndexFrom];
           repeat split; assumption).
    destruct (wt_ptr _ _ _ Hwx) as (p & ->).
    set (target := match p with None => reflect.Zero elem | Some d => d end).
    assert (Hwp : wt (TPtr pn elem) (DPtr (Some target)) = true).
    { unfold target. destruct p as [dp | ]; [exact Hwx | apply wt_Zero]. }
    cbn [ensureNotNil bind].
    destruct (Hstore _ Hwp) as (d' & Hs & Hw & Hr).
    rewrite Hs. exists d', (DPtr (Some target)). rewrite Hr.
    cbn [bind FieldByIndexFrom]. repeat split; assumption.
  - (* a field further down *)
    destruct (@pathType_step (reflect.Type_ f) (j :: rest') ft ltac:(discriminate) Hpath)
      as [(pn & m & gs & Tf & Hsub) | (m & gs & Tf & Hsub)]; rewrite Tf in *.
    + destruct (wt_ptr _ _ _ Hwx) as (p & ->).
      set (target := match p with None => reflect.Zero (TStruct m gs) | Some d => d end).
      assert (Hwt' : wt (TStruct m gs) target = true).
      { unfold target. destruct p as [dp | ]; [exact Hwx | apply wt_Zero]. }
      destruct (IH m gs target ft Hwt' Hsub ltac:(discriminate))
        as (z & y & Hz & Hwz & Hget & Hwy).
      fold target. rewrite Hz. cbn [bind].
      destruct (Hstore (DPtr (Some z)) Hwz) as (d' & Hs & Hw & Hr).
      rewrite Hs. exists d', y. rewrite Hr. cbn [bind].
      rewrite FieldByIndexFrom_into_ptr by discriminate.
      repeat split; assumption.
    + destruct (IH m gs x ft Hwx Hsub ltac:(discriminate))
        as (z & y & Hz & Hwz & Hget & Hwy).
      rewrite Hz. cbn [bind].
      destruct (Hstore z Hwz) as (d' & Hs & Hw & Hr).
      rewrite Hs. exists d', y. rewrite Hr. cbn [bind].
      rewrite FieldByIndexFrom_into_struct.
      repeat split; assumption.
Qed.

(** The first loop returns a position of the struct. *)
Lemma scanFields_inl name fs : forall i0 subs i,
  scanFields name fs i0 subs = Val (inl i) ->
  i0 <= i /\ exists f, nth_error fs (i - i0) = Some f.
Proof.
  induction fs as [ | f fs IH]; intros i0 subs i; cbn [scanFields].
  - discriminate.
  - assert (Hrest : forall subs', scanFields name fs (S i0) subs' = Val (inl i) ->
                                  i0 <= i /\ exists g, nth_error (f :: fs) (i - i0) = Some g).
    { intros subs' H. destruct (IH _ _ _ H) as (Hle & g & Hg).
      split; [lia | ]. exists g.
      replace (i - i0) with (S (i - S i0)) by lia. exact Hg. }
    assert (Hhere : Val (inl i0) = @Val (nat + list nat) (inl i) ->
                    i0 <= i /\ exists g, nth_error (f :: fs) (i - i0) = Some g).
    { intros H. inversion H; subst. split; [lia | ].
      rewrite Nat.sub_diag. exists f. reflexivity. }
    destruct (negb (reflect.IsExported f)); [apply Hrest | ].
    destruct (strings.EqualFold name (reflect.Name f)); [apply Hhere | ].
    destruct (isNameInTag name _); [apply Hhere | ].
    destruct (isSubArgTag _); [ | apply Hrest].
    destruct (_ && _)%bool; [discriminate | apply Hrest].
Qed.

(** The positions that the first loop records are those of fields marked
    as sub arguments that are structs or pointers to structs. *)
Lemma scanFields_inr name fs : forall i0 subs0 subs j,
  scanFields name fs i0 subs0 = Val (inr subs) ->
  existsb (Nat.eqb j) subs = true ->
  existsb (Nat.eqb j) subs0 = true
  \/ (i0 <= j
      /\ exists g, nth_error fs (j - i0) = Some g
                   /\ subArg g = true
                   /\ (isStructPointer (reflect.Type_ g) = true
                       \/ reflect.kind (reflect.Type_ g) = reflect.Struct)).
Proof.
  induction fs as [ | f fs IH]; intros i0 subs0 subs j; cbn [scanFields].
  - intros H. inversion H; subst. auto.
  - assert (Hrest : forall subs1,
               scanFields name fs (S i0) subs1 = Val (inr subs) ->
               existsb (Nat.eqb j) subs = true ->
               existsb (Nat.eqb j) subs1 = true
               \/ (i0 <= j
                   /\ exists g, nth_error (f :: fs) (j - i0) = Some g
                                /\ subArg g = true
                                /\ (isStructPointer (reflect.Type_ g) = true
                                    \/ reflect.kind (reflect.Type_ g) = reflect.Struct))).
    { intros subs1 H Hj.
      destruct (IH _ _ _ _ H Hj) as [Hold | (Hle & g & Hg & Hs & Hc)];
        [left; exact Hold | right].
      split; [lia | ]. exists g.
      replace (j - i0) with (S (j - S i0)) by lia. auto. }
    unfold subArg in *.
    destruct (reflect.IsExported f) eqn:Ex; cbn [negb]; [ | apply Hrest].
    destruct (strings.EqualFold name (reflect.Name f)); [discriminate | ].
    destruct (isNameInTag name _); [discriminate | ].
    destruct (isSubArgTag _) eqn:Sub; [ | apply Hrest].
    assert (Hc : (negb (isStructPointer (reflect.Type_ f))
                  && negb (reflect.Kind_eqb (reflect.kind (reflect.Type_ f))
                                            reflect.Struct))%bool = false ->
                 isStructPointer (reflect.Type_ f) = true
                 \/ reflect.kind (reflect.Type_ f) = reflect.Struct).
    { destruct (isStructPointer (reflect.Type_ f)); [auto | ].
      destruct (reflect.Kind_eqb _ _) eqn:K; [ | discriminate].
      intros _. right. apply Kind_eqb_eq. exact K. }
    destruct (_ && _)%bool; [discriminate | ].
    intros H Hj.
    destruct (Hrest _ H Hj) as [Hold | Hnew]; [ | right; exact Hnew].
    rewrite existsb_app in Hold. apply orb_true_iff in Hold.
    destruct Hold as [Hold | Hhere]; [left; exact Hold | right].
    cbn [existsb] in Hhere. rewrite orb_false_r in Hhere.
    apply Nat.eqb_eq in Hhere. subst j. split; [lia | ].
    rewrite Nat.sub_diag. exists f. cbn [nth_error]. rewrite Ex, Sub.
    repeat split; auto.
Qed.

(** What the second loop returns is what [find] returns in one of the
    recorded fields. *)
Lemma rangeSubArgs_result find parents subs : forall fs i0 r,
  rangeSubArgs find parents subs fs i0 = Val r ->
  r = []
  \/ exists i f, i0 <= i
                 /\ nth_error fs (i - i0) = Some f
                 /\ existsb (Nat.eqb i) subs = true
                 /\ find (reflect.Type_ f) (parents ++ [i]) = Val r
                 /\ r <> [].
Proof.
  induction fs as [ | f fs IH]; intros i0 r; cbn [rangeSubArgs].
  - intros H. inversion H. auto.
  - assert (Hrest : rangeSubArgs find parents subs fs (S i0) = Val r ->
                    r = []
                    \/ exists i g, i0 <= i
                                   /\ nth_error (f :: fs) (i - i0) = Some g
                                   /\ existsb (Nat.eqb i) subs = true
                                   /\ find (reflect.Type_ g) (parents ++ [i]) = Val r
                                   /\ r <> []).
    { intros H. destruct (IH _ _ H) as [-> | (i & g & Hle & Hg & Hi & Hfind & Hne)];
        [left; reflexivity | right].
      exists i, g. replace (i - i0) with (S (i - S i0)) by lia.
      repeat split; auto. lia. }
    destruct (existsb (Nat.eqb i0) subs) eqn:E; [ | apply Hrest].
    destruct (find (reflect.Type_ f) (parents ++ [i0])) as [q | ] eqn:F;
      cbn [bind]; [ | discriminate].
    destruct q as [ | a q]; cbn [length Nat.ltb Nat.leb]; [apply Hrest | ].
    intros H. inversion H; subst r. right.
    exists i0, f. rewrite Nat.sub_diag. repeat split; auto. discriminate.
Qed.

Lemma kind_Struct t :
  reflect.kind t = reflect.Struct ->
  (exists n fs, t = TStruct n fs) \/ (exists n, t = TBasic n reflect.Struct).
Proof.
  destruct t as [n k | | | n fs | ]; try discriminate.
  - cbn [reflect.kind]. intros ->. right. eauto.
  - left. eauto.
Qed.

(** What [findFieldIndex] finds is a path of the type: the parents, then
    a path that [FieldByIndex] can follow. *)
Lemma findFieldIndex_path name : forall t parents r,
  findFieldIndex name t parents = Val r ->
  r = []
  \/ exists q ft, r = parents ++ q /\ q <> []
                  /\ pathType true (pointee t) q = Some ft.
Proof.
  induction t as [n k | n e IH | n e IH | n fs IH | n] using rtype_induction;
    intros parents r; cbn [findFieldIndex]; try discriminate.
  - cbn [pointee]. apply IH.
  - cbn [pointee].
    destruct (scanFields name fs 0 []) as [[i | subs] | msg] eqn:S; cbn [bind];
      [ | | discriminate].
    + intros H. inversion H; subst r. right.
      destruct (scanFields_inl _ _ _ _ S) as (_ & f & Hf).
      rewrite Nat.sub_0_r in Hf.
      exists [i], (reflect.Type_ f). split; [reflexivity | ].
      split; [discriminate | ]. cbn [pathType negb andb]. rewrite Hf. reflexivity.
    + intros H.
      destruct (rangeSubArgs_result _ _ _ _ _ H)
        as [-> | (i & f & _ & Hf & Hi & Hfind & Hne)]; [left; reflexivity | right].
      rewrite Nat.sub_0_r in Hf.
      rewrite Forall_forall in IH.
      destruct (IH f (nth_error_In _ _ Hf) _ _ Hfind)
        as [-> | (q & ft & -> & Hq & Hpath)]; [congruence | ].
      exists (i :: q), ft. split; [rewrite <- app_assoc; reflexivity | ].
      split; [discriminate | ].
      cbn [pathType negb andb]. rewrite Hf.
      destruct (scanFields_inr _ _ _ _ i S Hi) as [Hold | (_ & g & Hg & _ & Hc)];
        [discriminate Hold | ].
      rewrite Nat.sub_0_r, Hf in Hg. inversion Hg; subst g; clear Hg.
      destruct q as [ | x q]; [congruence | ].
      destruct Hc as [SP | K].
      * destruct (reflect.Type_ f) as [ | pn elem | | | ]; try discriminate SP.
        cbn [isStructPointer] in SP. apply Kind_eqb_eq in SP.
        cbn [pointee] in Hpath.
        destruct (kind_Struct _ SP) as [(m & gs & ->) | (m & ->)];
          cbn [pointee] in Hpath; [ | discriminate Hpath].
        exact Hpath.
      * destruct (kind_Struct _ K) as [(m & gs & E) | (m & E)]; rewrite E in *;
          cbn [pointee] in Hpath; [ | discriminate Hpath].
        exact Hpath.
Qed.

(** In a record that fits its struct type, a flag name that
    [findFieldIndex] resolves gives a flag field: [newFlagField] neither
    fails nor panics, the record still fits its type, and the field is
    where the path says. *)
Lemma newFlagField_resolved name n fs d q :
  wt (TStruct n fs) d = true ->
  findFieldIndex name (TStruct n fs) [] = Val q ->
  q <> [] ->
  exists d' ft x,
    newFlagField name (Some (TStruct n fs, d))
    = Val (Some (TStruct n fs, d'), inl (mkFlagField ft q))
    /\ pathType true (TStruct n fs) q = Some ft
    /\ wt (TStruct n fs) d' = true
    /\ FieldByIndex (TStruct n fs) d' q = Val (ft, x)
    /\ wt ft x = true.
Proof.
  intros Hwt Hfind Hq.
  destruct (findFieldIndex_path _ _ _ Hfind) as [-> | (q' & ft & E & _ & Hpath)];
    [congruence | ].
  cbn [app] in E. subst q'. cbn [pointee] in Hpath.
  destruct (@ensureNotNil_path q n fs d ft Hwt Hpath Hq)
    as (d' & x & Hen & Hwt' & Hget & Hwx).
  exists d', ft, x. repeat split; try assumption.
  unfold newFlagField, findField. rewrite Hfind. cbn [bind].
  destruct q as [ | i q]; [congruence | ]. cbn [length Nat.eqb].
  rewrite Hen. cbn [bind]. unfold FieldByIndex. rewrite Hget. reflexivity.
Qed.

(** A path longer than one position goes through a field marked as a
    sub argument. *)
Lemma findFieldIndex_through name n fs i rest :
  findFieldIndex name (TStruct n fs) [] = Val (i :: rest) ->
  rest <> [] ->
  exists f, nth_error fs i = Some f /\ subArg f = true.
Proof.
  cbn [findFieldIndex]. intros H Hrest.
  destruct (scanFields name fs 0 []) as [[i0 | subs] | msg] eqn:S; cbn [bind] in H;
    [ | | discriminate].
  - inversion H; subst. congruence.
  - destruct (rangeSubArgs_result _ _ _ _ _ H)
      as [E | (i' & f & _ & Hf & Hi & Hfind & _)]; [discriminate E | ].
    rewrite Nat.sub_0_r in Hf. cbn [app] in Hfind.
    destruct (findFieldIndex_path _ _ _ Hfind) as [E | (q & ft & E & _ & _)];
      [discriminate E | ].
    cbn [app] in E. inversion E; subst i'.
    destruct (scanFields_inr _ _ _ _ i S Hi) as [Hold | (_ & g & Hg & Hs & _)];
      [discriminate Hold | ].
    rewrite Nat.sub_0_r, Hf in Hg. inversion Hg; subst g.
    exists f. split; assumption.
Qed.

(* ===================================================================== *)
(** ** Tokens made of flag markers only *)

(** A token of dashes only is a flag. *)
Lemma dashes_HasPrefix arg :
  arg <> EmptyString ->
  strings.TrimLeft arg "-" = EmptyString ->
  strings.HasPrefix arg "-" = true.
Proof.
  destruct arg as [ | c s]; [congruence | ]. intros _. simpl.
  unfold strings.HasPrefix.
  destruct (Ascii.eqb c "-") eqn:E; simpl; [ | discriminate].
  intros _. reflexivity.
Qed.

(** The first exported field of a struct matches the empty name when it
    has no flag tag, or when its flag tag holds an empty alias. *)
Lemma empty_name_first_exported n pre f post parents :
  (forall g, In g pre -> reflect.IsExported g = false) ->
  reflect.IsExported f = true ->
  (reflect.Get (reflect.Tag f) FlagTagName = EmptyString
   \/ In EmptyString
         (strings.Split (reflect.Get (reflect.Tag f) FlagTagName) ","%char)) ->
  directMatch EmptyString f = true
  /\ findFieldIndex EmptyString (TStruct n (pre ++ f :: post)) parents
     = Val (parents ++ [length pre]).
Proof.
  intros Hpre Hf Htag.
  assert (Hm : directMatch EmptyString f = true).
  { unfold directMatch. rewrite Hf. simpl.
    rewrite isNameInTag_empty; [apply orb_true_r | ].
    destruct Htag as [-> | H]; [left; reflexivity | exact H]. }
  split; [exact Hm | ].
  cbn [findFieldIndex]. rewrite scanFields_match; [reflexivity | exact Hm | ].
  intros g Hg. unfold directMatch, misconfigured, subArg.
  rewrite (Hpre g Hg). split; reflexivity.
Qed.

Section MarkerTokens.

Variable ParseFloat : string -> Z -> float64 * option error.
Variable UnmarshalText :
  string -> option (string -> option data -> go (data * option error)).

Local Notation loopBody := (loopBody ParseFloat UnmarshalText).
Local Notation run := (run ParseFloat UnmarshalText).
Local Notation SetValue := (SetValue ParseFloat UnmarshalText).

(** At a flag that resolves to a field, the turn of the loop never adds
    the flag to the unused list: it goes on with the list as it was, or
    returns an error with no list. *)
Lemma loopBody_flag_not_unused args i arg v unused v' fld t :
  strings.HasPrefix arg "-" = true ->
  newFlagField (strings.TrimLeft arg "-") v = Val (v', inl fld) ->
  loopBody args i arg v unused = Val t ->
  match t with
  | Continue _ _ u => u = unused
  | Return _ u e => u = [] /\ e <> None
  end.
Proof.
  intros Hp Hnew. rewrite (loopBody_flag ParseFloat UnmarshalText args i arg v unused Hp Hnew).
  cbv zeta.
  destruct (findFlagValue _ _) as [[argValue remain] [err | ]].
  - intros H. inversion H; subst. split; [reflexivity | discriminate].
  - destruct (SetValue fld argValue v') as [[v'' [err | ]] | msg]; cbn [bind];
      intros H; inversion H; subst.
    + split; [reflexivity | discriminate].
    + reflexivity.
Qed.

(** C10.  A struct whose first exported field [f] has no flag tag, or a
    flag tag with an empty alias, and a record [d] that fits it.  An
    argument made of dashes only is a flag whose name is empty; the
    empty name resolves to [f], so the argument is handled as a flag of
    [f] and never joins the unused list: when [f] is not a bool and no
    value follows, the call ends with the "no value found" error; when
    [f] is a bool and no boolean literal follows, [f] becomes true. *)
Theorem marker_only_token_is_a_flag args k arg n pre f post d unused :
  (forall g, In g pre -> reflect.IsExported g = false) ->
  reflect.IsExported f = true ->
  (reflect.Get (reflect.Tag f) FlagTagName = EmptyString
   \/ In EmptyString
         (strings.Split (reflect.Get (reflect.Tag f) FlagTagName) ","%char)) ->
  arg <> EmptyString ->
  strings.TrimLeft arg "-" = EmptyString ->
  wt (TStruct n (pre ++ f :: post)) d = true ->
  nth_error args k = Some arg ->
  let T := TStruct n (pre ++ f :: post) in
  let fld := mkFlagField (reflect.Type_ f) [length pre] in
  strings.HasPrefix arg "-" = true
  /\ findFieldIndex (strings.TrimLeft arg "-") T [] = Val [length pre]
  /\ exists d',
      newFlagField (strings.TrimLeft arg "-") (Some (T, d))
      = Val (Some (T, d'), inl fld)
      /\ (forall t, loopBody args k arg (Some (T, d)) unused = Val t ->
                    match t with
                    | Continue _ _ u => u = unused
                    | Return _ u e => u = [] /\ e <> None
                    end)
      /\ (reflect.kind (reflect.Type_ f) <> reflect.Bool ->
          (nth_error args (S k) = None
           \/ exists next, nth_error args (S k) = Some next
                           /\ strings.HasPrefix next "-" = true) ->
          run args k (Some (T, d)) unused
          = Val (Some (T, d'), [],
                 Some (errorString (arg ++ "  " ++ "no value found"))))
      /\ (reflect.Type_ f = TBasic None reflect.Bool ->
          (nth_error args (S k) = None
           \/ exists next,
               nth_error args (S k) = Some next
               /\ (strings.HasPrefix next "-" = true
                   \/ snd (strconv.ParseBool next) <> None)) ->
          exists d'',
            FieldByIndex T d'' [length pre]
            = Val (TBasic None reflect.Bool, DBool true)
            /\ run args k (Some (T, d)) unused
               = run args (k + 1) (Some (T, d'')) unused).
Proof.
  intros Hpre Hf Htag Hne Htrim Hwt Harg T fld.
  pose proof (dashes_HasPrefix Hne Htrim) as Hp.
  destruct (empty_name_first_exported n pre f post [] Hpre Hf Htag) as [_ Hfind].
  cbn [app] in Hfind. fold T in Hfind.
  assert (Hnth : nth_error (pre ++ f :: post) (length pre) = Some f).
  { rewrite nth_error_app2 by lia. rewrite Nat.sub_diag. reflexivity. }
  destruct (@ensureNotNil_one n (pre ++ f :: post) d (length pre) f Hwt Hnth)
    as (d' & x & Hen & Hget). fold T in Hen, Hget.
  assert (Hnew : newFlagField (strings.TrimLeft arg "-") (Some (T, d))
                 = Val (Some (T, d'), inl fld)).
  { unfold newFlagField, findField. rewrite Htrim, Hfind. cbn [bind length Nat.eqb].
    rewrite Hen. cbn [bind]. rewrite Hget. reflexivity. }
  split; [exact Hp | ]. split; [rewrite Htrim; exact Hfind | ].
  exists d'. split; [exact Hnew | ]. split; [ | split].
  - intros t. apply (@loopBody_flag_not_unused args k arg (Some (T, d)) unused
                       (Some (T, d')) fld t Hp Hnew).
  - intros Hk Hnext.
    apply (@run_no_value ParseFloat UnmarshalText args k arg (Some (T, d)) unused
             (Some (T, d')) fld Harg Hp Hnew Hk Hnext).
  - intros Hty Hnext. rewrite Hty in Hget.
    destruct (@run_bool_default ParseFloat UnmarshalText args k arg (Some (T, d))
                unused T d' fld x Harg Hp Hnew Hty Hget Hnext)
      as (d'' & _ & Hrd & Hrun).
    exists d''. split; [exact Hrd | exact Hrun].
Qed.

End MarkerTokens.

(* ===================================================================== *)
(** ** Sub arguments behind a nil pointer *)

Lemma replaceNth_replaceNth {A : Type} (l : list A) : forall i x y,
  reflect.replaceNth (reflect.replaceNth l i x) i y = reflect.replaceNth l i y.
Proof.
  induction l as [ | a l IH]; intros [ | i] x y; simpl; try reflexivity.
  rewrite IH. reflexivity.
Qed.

(** Reading past a pointer to a struct is reading in the struct it points
    to. *)
Lemma FieldByIndexFrom_through_ptr pn elem z rest r :
  rest <> [] ->
  FieldByIndexFrom false (TPtr pn elem) (DPtr (Some z)) rest = Val r ->
  isStructPointer (TPtr pn elem) = true
  /\ FieldByIndexFrom true elem z rest = Val r.
Proof.
  destruct rest as [ | x rest]; [congruence | ]. intros _.
  cbn [FieldByIndexFrom]. unfold indirect.
  destruct (isStructPointer (TPtr pn elem)); cbn [bind].
  - intros H. split; [reflexivity | exact H].
  - unfold reflect.Field. discriminate.
Qed.

(** Updating past a pointer to a struct is updating the struct it points
    to. *)
Lemma updateByIndexFrom_through_ptr pn elem z rest (set : setter) :
  rest <> [] ->
  isStructPointer (TPtr pn elem) = true ->
  updateByIndexFrom false (TPtr pn elem) (DPtr (Some z)) rest set
  = (' (sub, err) <- updateByIndexFrom true elem z rest set ;;
     Val (DPtr (Some sub), err)).
Proof.
  destruct rest as [ | x rest]; [congruence | ]. intros _ SP.
  cbn [updateByIndexFrom negb andb]. rewrite SP.
  destruct (reflect.Field elem z x) as [[ft fld] | ]; cbn [bind]; [ | reflexivity].
  destruct (updateByIndexFrom false ft fld rest set) as [[fld' err] | ];
    cbn [bind]; [ | reflexivity].
  destruct (reflect.SetField z x fld'); reflexivity.
Qed.

(** A value found after a flag: an argument that is not a flag, is not
    empty and, for a bool field, is a boolean literal. *)
Lemma findFlagValue_value value rest t :
  strings.HasPrefix value "-" = false ->
  value <> EmptyString ->
  (reflect.kind t = reflect.Bool -> snd (strconv.ParseBool value) = None) ->
  findFlagValue (value :: rest) t = (value, rest, None).
Proof.
  intros Hp Hne Hb. unfold findFlagValue. rewrite Hp. cbn [negb tl].
  apply String.eqb_neq in Hne. rewrite Hne.
  destruct (reflect.Kind_eqb (reflect.kind t) reflect.Bool) eqn:K.
  - apply Kind_eqb_eq in K. rewrite (Hb K). reflexivity.
  - reflexivity.
Qed.

Section SubArguments.

Variable ParseFloat : string -> Z -> float64 * option error.
Variable UnmarshalText :
  string -> option (string -> option data -> go (data * option error)).

Local Notation loopBody := (loopBody ParseFloat UnmarshalText).
Local Notation run := (run ParseFloat UnmarshalText).
Local Notation SetValue := (SetValue ParseFloat UnmarshalText).
Local Notation setValue := (setValue ParseFloat UnmarshalText).
Local Notation ApplyTo := (ApplyTo ParseFloat UnmarshalText).

(** A flag resolved to a field behind the nil pointer in field [i]: what
    resolution leaves in the record, and what setting the value does. *)
Lemma sub_argument_behind_nil
        args k arg n fields ds unused v' fld i rest f pn elem :
  nth_error args k = Some arg ->
  strings.HasPrefix arg "-" = true ->
  newFlagField (strings.TrimLeft arg "-") (Some (TStruct n fields, DStruct ds))
  = Val (v', inl fld) ->
  fldIndex fld = i :: rest ->
  rest <> [] ->
  nth_error fields i = Some f ->
  reflect.Type_ f = TPtr pn elem ->
  nth_error ds i = Some (DPtr None) ->
  exists z d0,
    ensureNotNil elem (reflect.Zero elem) rest = Val z
    /\ FieldByIndex elem z rest = Val (fldType fld, d0)
    /\ v' = Some (TStruct n fields,
                  DStruct (reflect.replaceNth ds i (DPtr (Some z))))
    /\ forall value dnew,
        nth_error args (S k) = Some value ->
        strings.HasPrefix value "-" = false ->
        value <> EmptyString ->
        (reflect.kind (fldType fld) = reflect.Bool ->
         snd (strconv.ParseBool value) = None) ->
        setValue value (fldType fld) d0 = Val (dnew, None) ->
        exists sub,
          updateByIndex elem z rest (fun _ _ => Val (dnew, None)) = Val (sub, None)
          /\ FieldByIndex elem sub rest = Val (fldType fld, dnew)
          /\ loopBody args k arg (Some (TStruct n fields, DStruct ds)) unused
             = Val (Continue (k + 1)
                             (Some (TStruct n fields,
                                    DStruct (reflect.replaceNth ds i
                                                                (DPtr (Some sub)))))
                             unused)
          /\ run args k (Some (TStruct n fields, DStruct ds)) unused
             = run args (k + 2)
                   (Some (TStruct n fields,
                          DStruct (reflect.replaceNth ds i (DPtr (Some sub)))))
                   unused.
Proof.
  intros Harg Hp Hnew Hidx Hrest Hf Hty Hnil.
  destruct (newFlagField_found _ _ Hnew)
    as (t & d & d' & fd & Hv & -> & _ & _ & Hen & Hget).
  inversion Hv; subst t d; clear Hv.
  rewrite Hidx in Hen, Hget.
  pose proof (nth_error_lt _ _ Hnil) as Hlt. apply Nat.ltb_lt in Hlt.
  (* materialization *)
  cbn [ensureNotNil] in Hen. unfold reflect.Field in Hen.
  rewrite Hf, Hnil, Hty in Hen. cbn [bind] in Hen.
  destruct (ensureNotNil elem (reflect.Zero elem) rest) as [z | ] eqn:Hz;
    [ | discriminate].
  cbn [bind] in Hen. unfold reflect.SetField in Hen. rewrite Hlt in Hen.
  inversion Hen; subst d'; clear Hen.
  (* the field, read in the fresh struct *)
  unfold FieldByIndex in Hget. cbn [FieldByIndexFrom bind] in Hget.
  unfold reflect.Field in Hget.
  rewrite Hf, (nth_error_replaceNth ds i (DPtr (Some z)) Hnil), Hty in Hget.
  cbn [bind] in Hget.
  destruct (@FieldByIndexFrom_through_ptr _ _ _ _ _ Hrest Hget) as [SP Hget'].
  exists z, fd. split; [reflexivity | ]. split; [exact Hget' | ].
  split; [reflexivity | ].
  intros value dnew Hnext Hvp Hvne Hvb Hset.
  destruct (@updateByIndexFrom_spec (setValue value) rest true elem z _ _ _ _ Hget' Hset)
    as (sub & Hup & Hrd).
  assert (Hval : findFlagValue (skipn (k + 1) args) (Type_ fld)
                 = (value, skipn (k + 2) args, None)).
  { rewrite vals_next, Hnext. apply findFlagValue_value; assumption. }
  assert (HS : SetValue fld value
                 (Some (TStruct n fields,
                        DStruct (reflect.replaceNth ds i (DPtr (Some z)))))
               = Val (Some (TStruct n fields,
                            DStruct (reflect.replaceNth ds i (DPtr (Some sub)))),
                      None)).
  { unfold argflags.SetValue, updateByIndex. rewrite Hidx.
    cbn [updateByIndexFrom negb andb]. unfold reflect.Field.
    rewrite Hf, (nth_error_replaceNth ds i (DPtr (Some z)) Hnil), Hty.
    cbn [bind].
    rewrite (@updateByIndexFrom_through_ptr pn elem z rest (setValue value) Hrest SP), Hup.
    cbn [bind]. unfold reflect.SetField.
    rewrite length_replaceNth, Hlt, replaceNth_replaceNth. reflexivity. }
  assert (Hpos : k + (length (skipn (k + 1) args) - length (skipn (k + 2) args))
                 = k + 1).
  { rewrite vals_next, Hnext. cbn [length]. lia. }
  exists sub. split; [ | split; [exact Hrd | split]].
  - unfold updateByIndex. rewrite <- Hup. symmetry.
    apply (@updateByIndexFrom_ext (setValue value) (fun _ _ => Val (dnew, None))
             rest true elem z _ _ Hget').
    exact Hset.
  - rewrite (@loopBody_flag_set ParseFloat UnmarshalText args k arg
               (Some (TStruct n fields, DStruct ds)) unused
               (Some (TStruct n fields,
                      DStruct (reflect.replaceNth ds i (DPtr (Some z)))))
               fld value (skipn (k + 2) args)
               (Some (TStruct n fields,
                      DStruct (reflect.replaceNth ds i (DPtr (Some sub)))))
               Hp Hnew Hval HS).
    rewrite Hpos. reflexivity.
  - rewrite (@run_flag_set ParseFloat UnmarshalText args k arg
               (Some (TStruct n fields, DStruct ds)) unused
               (Some (TStruct n fields,
                      DStruct (reflect.replaceNth ds i (DPtr (Some z)))))
               fld value (skipn (k + 2) args)
               (Some (TStruct n fields,
                      DStruct (reflect.replaceNth ds i (DPtr (Some sub)))))
               Harg Hp Hnew Hval HS).
    rewrite Hpos. f_equal. lia.
Qed.

(** C4.  A record that fits its struct type and whose field [i] is a nil
    pointer to [elem], and a flag whose name resolves to a field inside
    [elem] (the index path is [i], then [rest]).  Field [i] is then marked
    as a sub argument.  Resolution gives it a fresh struct: the zero value
    of [elem], with the nil pointers along [rest] allocated in turn, so the
    outer pointer is not nil afterwards.  When the value that follows is
    set without error, the turn of the loop leaves the record with, in
    field [i], the pointer to that fresh struct holding the coerced value
    in the nested field; the cursor is on the value and the unused list is
    as it was.  When nothing follows the value, the pass, and [ApplyTo],
    return that record: the outer pointer is not nil after the call and
    the nested field holds the coerced value. *)
Theorem nil_sub_argument_is_allocated
        args k arg n fields ds unused i rest f pn elem :
  nth_error args k = Some arg ->
  strings.HasPrefix arg "-" = true ->
  wt (TStruct n fields) (DStruct ds) = true ->
  findFieldIndex (strings.TrimLeft arg "-") (TStruct n fields) [] = Val (i :: rest) ->
  rest <> [] ->
  nth_error fields i = Some f ->
  reflect.Type_ f = TPtr pn elem ->
  nth_error ds i = Some (DPtr None) ->
  subArg f = true
  /\ exists z ft d0,
      ensureNotNil elem (reflect.Zero elem) rest = Val z
      /\ FieldByIndex elem z rest = Val (ft, d0)
      /\ newFlagField (strings.TrimLeft arg "-")
                      (Some (TStruct n fields, DStruct ds))
         = Val (Some (TStruct n fields,
                      DStruct (reflect.replaceNth ds i (DPtr (Some z)))),
                inl (mkFlagField ft (i :: rest)))
      /\ forall value dnew,
          nth_error args (S k) = Some value ->
          strings.HasPrefix value "-" = false ->
          value <> EmptyString ->
          (reflect.kind ft = reflect.Bool ->
           snd (strconv.ParseBool value) = None) ->
          setValue value ft d0 = Val (dnew, None) ->
          exists sub,
            let after :=
              Some (TStruct n fields,
                    DStruct (reflect.replaceNth ds i (DPtr (Some sub)))) in
            updateByIndex elem z rest (fun _ _ => Val (dnew, None)) = Val (sub, None)
            /\ FieldByIndex elem sub rest = Val (ft, dnew)
            /\ FieldByIndex (TStruct n fields)
                            (DStruct (reflect.replaceNth ds i (DPtr (Some sub))))
                            (i :: rest)
               = Val (ft, dnew)
            /\ loopBody args k arg (Some (TStruct n fields, DStruct ds)) unused
               = Val (Continue (k + 1) after unused)
            /\ run args k (Some (TStruct n fields, DStruct ds)) unused
               = run args (k + 2) after unused
            /\ (nth_error args (k + 2) = None ->
                run args k (Some (TStruct n fields, DStruct ds)) unused
                = Val (after, unused, None)
                /\ forall str v0,
                    getStructValue str = Val (inl v0) ->
                    run args 0 v0 []
                    = run args k (Some (TStruct n fields, DStruct ds)) unused ->
                    ApplyTo args str = Val (store str after, unused, None)).
Proof.
  intros Harg Hp Hwt Hfind Hrest Hf Hty Hnil. split.
  - destruct (findFieldIndex_through _ _ _ Hfind Hrest) as (g & Hg & Hs).
    rewrite Hf in Hg. inversion Hg; subst g. exact Hs.
  - destruct (@newFlagField_resolved _ n fields (DStruct ds) (i :: rest)
                Hwt Hfind ltac:(discriminate))
      as (d' & ft & x & Hnew & _ & _ & _ & _).
    destruct (@sub_argument_behind_nil args k arg n fields ds unused
                (Some (TStruct n fields, d')) (mkFlagField ft (i :: rest))
                i rest f pn elem Harg Hp Hnew eq_refl Hrest Hf Hty Hnil)
      as (z & d0 & Hz & Hget & Hv & Hset).
    exists z, ft, d0. split; [exact Hz | ]. split; [exact Hget | ].
    split; [rewrite Hnew, Hv; reflexivity | ].
    intros value dnew Hnext Hvp Hvne Hvb Hsv.
    destruct (Hset value dnew Hnext Hvp Hvne Hvb Hsv)
      as (sub & Hup & Hrd & Hturn & Hrun).
    exists sub. cbv zeta.
    split; [exact Hup | ]. split; [exact Hrd | ]. split; [ | split; [exact Hturn | ]].
    + pose proof (nth_error_lt _ _ Hnil) as Hlt.
      unfold FieldByIndex. cbn [FieldByIndexFrom bind]. unfold reflect.Field.
      rewrite Hf, (nth_error_replaceNth ds i (DPtr (Some sub)) Hnil), Hty.
      cbn [bind].
      destruct rest as [ | j rest']; [congruence | ].
      cbn [FieldByIndexFrom]. unfold indirect.
      assert (SP : isStructPointer (TPtr pn elem) = true).
      { destruct (isStructPointer (TPtr pn elem)) eqn:E; [reflexivity | ].
        exfalso.
        destruct (newFlagField_found _ _ Hnew)
          as (t0 & e0 & e1 & fd & E0 & E1 & _ & _ & _ & Hg).
        rewrite Hv in E1. inversion E1; subst t0 e1. cbn [fldIndex] in Hg.
        unfold FieldByIndex in Hg. cbn [FieldByIndexFrom bind] in Hg.
        unfold reflect.Field in Hg.
        rewrite Hf, (nth_error_replaceNth ds i (DPtr (Some z)) Hnil), Hty in Hg.
        cbn [bind FieldByIndexFrom] in Hg. unfold indirect in Hg.
        rewrite E in Hg. cbn [bind] in Hg. unfold reflect.Field in Hg.
        discriminate Hg. }
      rewrite SP. cbn [bind]. exact Hrd.
    + split; [exact Hrun | ].
      intros Hend.
      assert (Hres : run args k (Some (TStruct n fields, DStruct ds)) unused
                     = Val (Some (TStruct n fields,
                                  DStruct (reflect.replaceNth ds i (DPtr (Some sub)))),
                            unused, None)).
      { rewrite Hrun. apply (run_end ParseFloat UnmarshalText). exact Hend. }
      split; [exact Hres | ].
      intros str v0 Hs Hreach.
      eapply ApplyTo_from; [exact Hs | exact Hreach | exact Hres].
Qed.

End SubArguments.

(* ===================================================================== *)
(** ** The properties at work on the configuration record *)

Section Examples.

Local Notation run := (run Demo.ParseFloat Demo.UnmarshalText).
Local Notation ApplyTo := (ApplyTo Demo.ParseFloat Demo.UnmarshalText).
Local Notation setValue := (setValue Demo.ParseFloat Demo.UnmarshalText).

(** A whole call. *)
Example ApplyTo_example :
  ApplyTo ["pos1"; "-verbose"; "pos2"; "-count"; "12"; "-n"; "a,b,c";
           "-unknown"; "x"; "-h"; "example.org"] Demo.pointer
  = Val (Some (TPtr None Demo.Config,
               DPtr (Some (DStruct
                 [DInt 0; DBool true; DInt 12;
                  DSlice [DString "a"; DString "b"; DString "c"];
                  DFloat (reflect.Float64frombits 0); DInt 0;
                  DPtr (Some (DStruct [DInt 0; DString "example.org"]))]))),
         ["pos1"; "pos2"; "-unknown"; "x"], None).
Proof. vm_compute. reflexivity. Qed.

(** C1 at work: [-verbose false] stores false in a field that held true
    and takes the literal; [-verbose pos] stores true and leaves [pos],
    which comes back as unused. *)
Lemma bool_flag_value_window_witness :
  run ["-verbose"; "false"] 0 (Demo.withField 1 (DBool true)) []
  = Val (Demo.withField 1 (DBool false), [], None)
  /\ ApplyTo ["-verbose"; "pos"] Demo.pointer
     = Val (Some (TPtr None Demo.Config,
                  DPtr (Some (DStruct (reflect.replaceNth
                                         (Demo.contentsOf Demo.zeroConfig)
                                         1 (DBool true))))),
            ["pos"], None).
Proof.
  split.
  - destruct (@bool_flag_value_window Demo.ParseFloat Demo.UnmarshalText
                ["-verbose"; "false"] 0 "-verbose"
                (Demo.withField 1 (DBool true)) []
                (Demo.withField 1 (DBool true))
                (mkFlagField (TBasic None reflect.Bool) [1])
                eq_refl eq_refl eq_refl eq_refl)
      as (t & d' & Hv & Hlit & _).
    inversion Hv; subst t d'.
    destruct (Hlit "false" false eq_refl eq_refl eq_refl)
      as (d'' & Hup & _ & _ & _ & Hend).
    vm_compute in Hup. inversion Hup; subst d''.
    destruct (Hend eq_refl) as [Hres _]. exact Hres.
  - destruct (@bool_flag_value_window Demo.ParseFloat Demo.UnmarshalText
                ["-verbose"; "pos"] 0 "-verbose" Demo.record [] Demo.record
                (mkFlagField (TBasic None reflect.Bool) [1])
                eq_refl eq_refl eq_refl eq_refl)
      as (t & d' & Hv & _ & Hdef).
    inversion Hv; subst t d'.
    destruct Hdef as (d'' & Hup & _ & _ & _ & _ & Hpos).
    + right. exists "pos". split; [reflexivity | ].
      right. vm_compute. discriminate.
    + vm_compute in Hup. inversion Hup; subst d''.
      destruct (Hpos "pos" eq_refl eq_refl) as [_ Hend].
      destruct (Hend eq_refl) as [_ Happly].
      apply (Happly Demo.pointer Demo.record); reflexivity.
Defined.

(** C5 at work: [-count] followed by a flag. *)
Lemma no_value_found_aborts_witness :
  ApplyTo ["pos"; "-count"; "-verbose"] Demo.pointer
  = Val (Demo.pointer, [], Some (errorString "-count  no value found")).
Proof.
  destruct (@no_value_found_aborts Demo.ParseFloat Demo.UnmarshalText
              ["pos"; "-count"; "-verbose"] 1 "-count" Demo.record ["pos"] Demo.record
              (mkFlagField (TBasic None reflect.Int) [2])
              eq_refl eq_refl eq_refl)
    as (_ & _ & Happly).
  - vm_compute. discriminate.
  - right. exists "-verbose". split; reflexivity.
  - apply (Happly Demo.pointer Demo.record); reflexivity.
Defined.

(** C6 at work. *)
Lemma string_slice_is_split_witness :
  setValue "a,,b c," (TSlice None (TBasic None reflect.String)) (DSlice [])
  = Val (DSlice [DString "a"; DString EmptyString; DString "b c"; DString EmptyString],
         None).
Proof.
  destruct (@string_slice_is_split Demo.ParseFloat Demo.UnmarshalText "a,,b c," None
              (DSlice []) eq_refl) as (H & _).
  exact H.
Defined.

(** C7 at work: the second piece is not a number. *)
Lemma slice_element_error_keeps_field_witness :
  setValue "1,x,3" (TSlice None (TBasic None reflect.Int))
           (DSlice [DInt 7; DInt 8])
  = Val (DSlice [DInt 7; DInt 8],
         Some (NumError "Atoi" "x" "invalid syntax")).
Proof.
  destruct (@slice_element_error_keeps_field Demo.ParseFloat Demo.UnmarshalText
              "1,x,3" None (TBasic None reflect.Int) (DSlice [DInt 7; DInt 8])
              1 "x" (DInt 0) (NumError "Atoi" "x" "invalid syntax")
              eq_refl eq_refl)
    as (H & _).
  - intros j sj Hj Hn. destruct j as [ | j]; [ | lia].
    inversion Hn; subst sj. exists (DInt 1). reflexivity.
  - reflexivity.
  - exact H.
Defined.

(** C2 at work: a numeral in range is refused for an int64 field. *)
Lemma sized_int_never_parses_witness :
  setValue "42" (TBasic None reflect.Int64) (DInt 0)
  = Val (DInt 0, Some (NumError "ParseInt" "42" "invalid base 64")).
Proof.
  destruct (@sized_int_never_parses Demo.ParseFloat Demo.UnmarshalText "42"
              reflect.Int64 (DInt 0) (or_introl eq_refl))
    as (Err & H & _).
  rewrite H. vm_compute in H. inversion H. reflexivity.
Defined.

(** The same numeral is stored in a field of type int. *)
Example int_field_parses :
  setValue "42" (TBasic None reflect.Int) (DInt 0) = Val (DInt 42, None).
Proof. reflexivity. Qed.

(** C9 at work: 1.5 parses, and storing it in a float32 field panics. *)
Example float32_panics :
  ApplyTo ["-ratio"; "1.5"] Demo.pointer
  = Panic "reflect.Set: value is not assignable to the type of the variable".
Proof. vm_compute. reflexivity. Qed.

(** C3 at work: a Demo.pointer to an interface that holds [&Demo.Config{}]. *)
Example pointer_to_interface_example :
  ApplyTo ["-verbose"] (Some (TPtr None (TInterface None),
                              DPtr (Some (DIface Demo.pointer))))
  = Val (Some (TPtr None (TInterface None), DPtr (Some (DIface Demo.pointer))), [],
         Some (errorString "flags can only be applied to a struct pointer")).
Proof. reflexivity. Qed.

(** C8 at work: [-N] is the alias [n] of [Names]; [-HOST] is found in
    the sub argument [Demo.Server] only after the fields of [Demo.Config]. *)
Lemma field_resolution_order_witness :
  findFieldIndex "N" Demo.Config [] = Val [3]
  /\ findFieldIndex "HOST" Demo.Config [] = Val [6; 1]
  /\ findFieldIndex "HOST" Demo.Config [] = findFieldIndex "host" Demo.Config [].
Proof.
  split; [ | split].
  - destruct (@field_resolution_order "N" (Some "Config")
                (firstn 3 (Demo.fieldsOf Demo.Config))
                (Demo.exported "Names" (TSlice None (TBasic None reflect.String))
                          [("flag", "names,n")])
                (skipn 4 (Demo.fieldsOf Demo.Config)) [])
      as (_ & _ & H & _).
    + intros g Hg. simpl in Hg.
      destruct Hg as [<- | [<- | [<- | []]]]; split; reflexivity.
    + apply H. reflexivity.
  - destruct (@field_resolution_order "HOST" (Some "Config")
                (firstn 6 (Demo.fieldsOf Demo.Config))
                (Demo.exported "Server" (TPtr None Demo.Server) [("flag", "+")])
                [] [])
      as (_ & _ & _ & H).
    + intros g Hg. simpl in Hg.
      destruct Hg as [<- | [<- | [<- | [<- | [<- | [<- | []]]]]]];
        split; reflexivity.
    + apply (H [6; 1]).
      * intros g Hg. simpl in Hg. destruct Hg as [<- | []]. split; reflexivity.
      * reflexivity.
      * reflexivity.
      * discriminate.
      * intros j g Hj Hs.
        do 6 (destruct j as [ | j];
              [inversion Hj; subst g; discriminate Hs | ]).
        destruct j; discriminate Hj.
  - destruct (@field_resolution_order "host" (Some "Config") []
                (reflect.mkField "hidden" "main" (TBasic None reflect.Int) [])
                [] [])
      as (_ & H & _).
    + intros g [].
    + destruct (H eq_refl Demo.Config [] eq_refl) as (Hcase & _ & _).
      apply Hcase; reflexivity.
Defined.

(** C10 at work: [--] is a flag of [Verbose], the first Demo.exported field,
    which has no flag tag. *)
Lemma marker_only_token_is_a_flag_witness :
  findFieldIndex (strings.TrimLeft "--" "-") Demo.Config [] = Val [1]
  /\ ApplyTo ["--"; "pos"] Demo.pointer
     = Val (Some (TPtr None Demo.Config,
                  DPtr (Some (DStruct (reflect.replaceNth (Demo.contentsOf Demo.zeroConfig)
                                                          1 (DBool true))))),
            ["pos"], None).
Proof.
  destruct (@marker_only_token_is_a_flag Demo.ParseFloat Demo.UnmarshalText
              ["--"; "pos"] 0 "--" (Some "Config")
              (firstn 1 (Demo.fieldsOf Demo.Config))
              (Demo.exported "Verbose" (TBasic None reflect.Bool) [("json", "v")])
              (skipn 2 (Demo.fieldsOf Demo.Config)) Demo.zeroConfig [])
    as (_ & Hfind & d' & Hnew & _ & _ & Hbool).
  - intros g Hg. simpl in Hg. destruct Hg as [<- | []]. reflexivity.
  - reflexivity.
  - left. reflexivity.
  - discriminate.
  - reflexivity.
  - reflexivity.
  - reflexivity.
  - split; [exact Hfind | ].
    vm_compute. reflexivity.
Defined.

(** C4 at work: [-host example.org] on the zero [Config], whose [Server]
    is nil: after the call [Server] points to a fresh struct whose [Host]
    is the value. *)
Lemma nil_sub_argument_is_allocated_witness :
  ApplyTo ["-host"; "example.org"] Demo.pointer
  = Val (Some (TPtr None Demo.Config,
               DPtr (Some (DStruct
                 [DInt 0; DBool false; DInt 0; DSlice [];
                  DFloat (reflect.Float64frombits 0); DInt 0;
                  DPtr (Some (DStruct [DInt 0; DString "example.org"]))]))),
         [], None).
Proof.
  destruct (@nil_sub_argument_is_allocated Demo.ParseFloat Demo.UnmarshalText
              ["-host"; "example.org"] 0 "-host" (Some "Config")
              (Demo.fieldsOf Demo.Config) (Demo.contentsOf Demo.zeroConfig) []
              6 [1]
              (Demo.exported "Server" (TPtr None Demo.Server) [("flag", "+")])
              None Demo.Server
              eq_refl eq_refl eq_refl eq_refl)
    as (_ & z & ft & d0 & Hz & Hget & _ & Hset).
  - discriminate.
  - reflexivity.
  - reflexivity.
  - reflexivity.
  - vm_compute in Hz. inversion Hz; subst z.
    vm_compute in Hget. inversion Hget; subst ft d0.
    destruct (Hset "example.org" (DString "example.org") eq_refl eq_refl)
      as (sub & Hup & _ & _ & _ & _ & Hend).
    + discriminate.
    + discriminate.
    + reflexivity.
    + vm_compute in Hup. inversion Hup; subst sub.
      destruct (Hend eq_refl) as [_ Happly].
      apply (Happly Demo.pointer Demo.record); reflexivity.
Defined.

End Examples.

(* ===================================================================== *)
(** * Further properties of the package *)

Unset Implicit Arguments.


(* ===================================================================== *)
(** ** Flag names and the printed arguments *)

(** What [TrimLeft] returns does not start with a byte of the cutset. *)
Lemma TrimLeft_not_prefix s :
  strings.HasPrefix (strings.TrimLeft s "-") "-" = false.
Proof.
  induction s as [ | c s IH]; [reflexivity | ].
  cbn [strings.TrimLeft strings.IndexByte].
  destruct (Ascii.eqb c "-") eqn:E; cbn [orb]; [exact IH | ].
  unfold strings.HasPrefix. rewrite E. reflexivity.
Qed.

(** More dashes in front of a token do not change the name it gives. *)
Lemma TrimLeft_dash s :
  strings.TrimLeft (String "-" s) "-" = strings.TrimLeft s "-".
Proof. reflexivity. Qed.

(** X1.  [FlagNames] keeps one name for each argument that starts with a
    dash, in the order of the arguments, and works piece by piece on a
    list of arguments put together.  No name starts with a dash, however
    many dashes the argument had: the name of an argument that starts
    with a dash is what is left of it once every leading dash is gone. *)
Theorem FlagNames_names (a b : ArgFlags) :
  FlagNames (a ++ b) = FlagNames a ++ FlagNames b
  /\ FlagNames a
     = map (fun arg => strings.TrimLeft arg "-")
           (filter (fun arg => strings.HasPrefix arg "-") a)
  /\ Forall (fun name => strings.HasPrefix name "-" = false) (FlagNames a)
  /\ (forall arg, FlagNames [String "-" arg] = [strings.TrimLeft arg "-"]).
Proof.
  split; [ | split; [ | split]].
  - induction a as [ | arg a IH]; [reflexivity | ].
    cbn [app FlagNames]. rewrite IH.
    destruct (negb (strings.HasPrefix arg "-")); reflexivity.
  - induction a as [ | arg a IH]; [reflexivity | ].
    cbn [FlagNames filter]. rewrite IH.
    destruct (strings.HasPrefix arg "-"); reflexivity.
  - induction a as [ | arg a IH]; [constructor | ].
    cbn [FlagNames]. destruct (negb (strings.HasPrefix arg "-")); [exact IH | ].
    constructor; [apply TrimLeft_not_prefix | exact IH].
  - intros arg. reflexivity.
Qed.

(** A string without the separator is the one piece of its split. *)
Lemma Split_one s sep :
  strings.IndexByte s sep = false -> strings.Split s sep = [s].
Proof.
  induction s as [ | c s IH]; [reflexivity | ].
  cbn [strings.IndexByte strings.Split]. rewrite Ascii.eqb_sym.
  destruct (Ascii.eqb c sep); cbn [orb]; [discriminate | ].
  intros H. rewrite (IH H). reflexivity.
Qed.

(** The split of a string without the separator, the separator and a rest
    is that string, then the split of the rest. *)
Lemma Split_cons e sep rest :
  strings.IndexByte e sep = false ->
  strings.Split (e ++ String sep rest)%string sep = e :: strings.Split rest sep.
Proof.
  induction e as [ | c e IH]; cbn [strings.IndexByte append strings.Split].
  - intros _. rewrite Ascii.eqb_refl. reflexivity.
  - rewrite Ascii.eqb_sym. destruct (Ascii.eqb c sep); cbn [orb]; [discriminate | ].
    intros H. rewrite (IH H). reflexivity.
Qed.

Lemma Split_Join_sep elems sep :
  elems <> [] ->
  Forall (fun e => strings.IndexByte e sep = false) elems ->
  strings.Split (strings.Join elems (String sep EmptyString)) sep = elems.
Proof.
  induction elems as [ | e elems IH]; [congruence | ]. intros _ HF.
  inversion HF as [ | ? ? He Hrest]; subst.
  destruct elems as [ | e' elems].
  - cbn [strings.Join]. apply Split_one. exact He.
  - change (strings.Join (e :: e' :: elems) (String sep EmptyString))
      with (e ++ String sep (strings.Join (e' :: elems) (String sep EmptyString)))%string.
    rewrite (Split_cons _ _ _ He), IH; [reflexivity | discriminate | exact Hrest].
Qed.

(** X2.  [String] is read back by splitting at the spaces when there is at
    least one argument and no argument holds a space.  The empty list and
    the list of one empty argument both print as the empty string. *)
Theorem String_read_back (args : ArgFlags) :
  args <> [] ->
  Forall (fun arg => strings.IndexByte arg " "%char = false) args ->
  strings.Split (String_ args) " "%char = args
  /\ String_ [] = String_ [EmptyString].
Proof.
  intros Hne HF. split; [ | reflexivity].
  unfold String_. apply (Split_Join_sep args " "%char Hne HF).
Qed.

(* ===================================================================== *)
(** ** The value of a flag *)

(** X3.  The value window of a flag.  When [findFlagValue] returns without
    error, either the field is a bool, the value is "true" and no argument
    is taken, or the value is the first argument, which is taken alone, is
    not empty and is not a flag.  When it returns an error, the field is
    not a bool, the error is "no value found", and the first argument is
    missing, empty or a flag. *)
Theorem findFlagValue_window (args : list string) (fldType : rtype)
        (value : string) (remain : list string) (err : option error) :
  findFlagValue args fldType = (value, remain, err) ->
  match err with
  | None =>
      (reflect.kind fldType = reflect.Bool
       /\ value = "true" /\ remain = args)
      \/ (value <> EmptyString
          /\ strings.HasPrefix value "-" = false
          /\ args = value :: remain)
  | Some e =>
      reflect.kind fldType <> reflect.Bool
      /\ e = errorString "no value found"
      /\ value = EmptyString /\ remain = []
      /\ (args = []
          \/ exists a rest,
              args = a :: rest
              /\ (a = EmptyString \/ strings.HasPrefix a "-" = true))
  end.
Proof.
  unfold findFlagValue.
  set (v := match args with
            | [] => EmptyString
            | a :: _ => if negb (strings.HasPrefix a "-") then a else EmptyString
            end).
  assert (Hv : v = EmptyString
               /\ (args = []
                   \/ exists a rest,
                       args = a :: rest
                       /\ (a = EmptyString \/ strings.HasPrefix a "-" = true))
               \/ (v <> EmptyString /\ strings.HasPrefix v "-" = false
                   /\ args = v :: tl args)).
  { unfold v. destruct args as [ | a rest]; [left; auto | ].
    destruct (strings.HasPrefix a "-") eqn:P; cbn [negb].
    - left. split; [reflexivity | ]. right. exists a, rest. auto.
    - destruct a as [ | c a'].
      + left. split; [reflexivity | ]. right. exists EmptyString, rest. auto.
      + right. split; [discriminate | ]. split; [exact P | reflexivity]. }
  destruct (reflect.Kind_eqb (reflect.kind fldType) reflect.Bool) eqn:K;
    cbn [andb].
  - apply Kind_eqb_eq in K.
    destruct (String.eqb v EmptyString) eqn:E; cbn [orb].
    + intros H. inversion H; subst. left. auto.
    + apply String.eqb_neq in E.
      destruct (snd (strconv.ParseBool v)).
      * intros H. inversion H; subst. left. auto.
      * intros H. inversion H; subst.
        destruct Hv as [[Hv _] | Hv]; [congruence | ]. right.
        destruct Hv as (H1 & H2 & H3). auto.
  - apply Kind_eqb_neq in K.
    destruct (String.eqb v EmptyString) eqn:E.
    + apply String.eqb_eq in E.
      intros H. inversion H; subst.
      destruct Hv as [[_ Hv] | [Hv _]]; [ | congruence].
      repeat split; auto.
    + apply String.eqb_neq in E.
      intros H. inversion H; subst.
      destruct Hv as [[Hv _] | Hv]; [congruence | ]. right.
      destruct Hv as (H1 & H2 & H3). auto.
Qed.

(* ===================================================================== *)
(** ** The pass over the arguments *)

Lemma subseq_refl {A : Type} (l : list A) : subseq l l.
Proof. induction l; constructor; assumption. Qed.

Lemma subseq_skipn {A : Type} (u l : list A) : forall n,
  subseq u (skipn n l) -> subseq u l.
Proof.
  induction l as [ | x l IH]; intros [ | n] H; cbn [skipn] in H; try exact H.
  constructor. apply (IH n H).
Qed.

Lemma skipn_skipn_le {A : Type} (l : list A) (i j : nat) :
  i <= j -> skipn j l = skipn (j - i) (skipn i l).
Proof.
  intros H. rewrite skipn_skipn. f_equal. lia.
Qed.

(** What [getStructValue] returns for a pointer to a struct. *)
Lemma getStructValue_pointer n elem p :
  reflect.kind elem = reflect.Struct ->
  getStructValue (Some (TPtr n elem, DPtr p))
  = Val (inl match p with
             | Some d => Some (elem, d)
             | None => None
             end).
Proof.
  intros K. unfold getStructValue. cbn [reflect.TypeOf isStructPointer].
  rewrite K. cbn [reflect.Kind_eqb reflect.code Nat.eqb negb].
  destruct p as [d | ]; cbn [reflect.ValueOf reflect.Elem bind reflect.ValueKind].
  - rewrite K. reflexivity.
  - reflexivity.
Qed.

(** A name that [findFieldIndex] does not find: the error, and the record
    as it was. *)
Lemma newFlagField_not_found name t d :
  findFieldIndex name t [] = Val [] ->
  newFlagField name (Some (t, d))
  = Val (Some (t, d),
         inr (errorString ("field " ++ name ++ " not found in "
                           ++ reflect.TypeString t))).
Proof.
  intros H. unfold newFlagField, findField. rewrite H. reflexivity.
Qed.

(** [newFlagField] leaves the record alone when it returns an error. *)
Lemma newFlagField_inr name v v' e :
  newFlagField name v = Val (v', inr e) -> v' = v.
Proof.
  unfold newFlagField, findField.
  destruct v as [[t d] | ]; [ | discriminate].
  destruct (findFieldIndex name t []) as [index | ]; [ | discriminate].
  cbn [bind]. destruct (length index =? 0)%nat; cbn [bind].
  - intros H. inversion H. reflexivity.
  - destruct (ensureNotNil t d index) as [d' | ]; [ | discriminate].
    cbn [bind]. destruct (FieldByIndex t d' index) as [[ft fd] | ]; discriminate.
Qed.

Section Pass.

Variable ParseFloat : string -> Z -> float64 * option error.
Variable UnmarshalText :
  string -> option (string -> option data -> go (data * option error)).

Local Notation loopBody := (loopBody ParseFloat UnmarshalText).
Local Notation run := (run ParseFloat UnmarshalText).
Local Notation SetValue := (SetValue ParseFloat UnmarshalText).
Local Notation setValue := (setValue ParseFloat UnmarshalText).
Local Notation asTextUnmarshaler := (asTextUnmarshaler UnmarshalText).
Local Notation ApplyTo := (ApplyTo ParseFloat UnmarshalText).

(** What [findFlagValue] leaves is the arguments or their tail. *)
Lemma findFlagValue_ok vals t value remain :
  findFlagValue vals t = (value, remain, None) ->
  remain = vals \/ vals = value :: remain.
Proof.
  unfold findFlagValue.
  destruct (_ && _)%bool.
  - intros H. inversion H; subst. left. reflexivity.
  - destruct vals as [ | a rest].
    + cbn [String.eqb]. discriminate.
    + destruct (negb (strings.HasPrefix a "-")).
      * destruct (String.eqb a EmptyString); [discriminate | ].
        intros H. inversion H; subst. right. reflexivity.
      * cbn [String.eqb]. discriminate.
Qed.

(** The pass when no flag of the arguments names a field: every argument
    is unused. *)
Lemma run_unresolved args t d :
  (forall arg, In arg args -> strings.HasPrefix arg "-" = true ->
               findFieldIndex (strings.TrimLeft arg "-") t [] = Val []) ->
  forall k i unused,
    length args - i = k ->
    run args i (Some (t, d)) unused
    = Val (Some (t, d), unused ++ skipn i args, None).
Proof.
  intros H. induction k as [ | k IH]; intros i unused Hk;
    rewrite run_unfold, (skipn_nth_error args i).
  - destruct (nth_error args i) eqn:E.
    + apply nth_error_lt in E. lia.
    + rewrite app_nil_r. reflexivity.
  - destruct (nth_error args i) as [arg | ] eqn:E.
    + rewrite loopBody_unused.
      * cbn [bind]. rewrite IH by lia. rewrite <- app_assoc. reflexivity.
      * destruct (strings.HasPrefix arg "-") eqn:P; [right | left; reflexivity].
        eexists. apply newFlagField_not_found.
        apply H; [eapply nth_error_In; exact E | exact P].
    + rewrite app_nil_r. reflexivity.
Qed.

(** X4.  When no flag of the arguments names a field of the struct (for
    each of them [findFieldIndex] returns nil), [ApplyTo] returns every
    argument as unused, flags included, in the order given, with no error,
    and leaves the struct as it was. *)
Theorem unresolved_flags_are_returned (args : ArgFlags) n elem d :
  reflect.kind elem = reflect.Struct ->
  (forall arg, In arg args -> strings.HasPrefix arg "-" = true ->
               findFieldIndex (strings.TrimLeft arg "-") elem [] = Val []) ->
  ApplyTo args (Some (TPtr n elem, DPtr (Some d)))
  = Val (Some (TPtr n elem, DPtr (Some d)), args, None).
Proof.
  intros K H.
  rewrite (ApplyTo_run ParseFloat UnmarshalText args _
             (getStructValue_pointer n elem (Some d) K)).
  rewrite (run_unresolved args elem d H (length args - 0) 0 [] eq_refl).
  reflexivity.
Qed.

(** The pass over a nil struct: the arguments are unused up to the first
    flag, where reading the type of the record panics. *)
Lemma run_nil args :
  forall k i unused,
    length args - i = k ->
    run args i None unused
    = if existsb (fun arg => strings.HasPrefix arg "-") (skipn i args)
      then Panic "reflect: call of reflect.Value.Type on zero Value"
      else Val (None, unused ++ skipn i args, None).
Proof.
  induction k as [ | k IH]; intros i unused Hk;
    rewrite run_unfold, (skipn_nth_error args i).
  - destruct (nth_error args i) eqn:E.
    + apply nth_error_lt in E. lia.
    + rewrite app_nil_r. reflexivity.
  - destruct (nth_error args i) as [arg | ] eqn:E.
    + cbn [existsb]. unfold argflags.loopBody.
      destruct (strings.HasPrefix arg "-") eqn:P; cbn [negb orb bind].
      * reflexivity.
      * rewrite IH by lia.
        destruct (existsb _ _); [reflexivity | ].
        rewrite <- app_assoc. reflexivity.
    + rewrite app_nil_r. reflexivity.
Qed.

(** X5.  A nil pointer to a struct passes the check of [ApplyTo].  The
    call then panics when an argument is a flag, since the type of the
    record cannot be read; without a flag it returns every argument as
    unused. *)
Theorem nil_struct_pointer (args : ArgFlags) t :
  isStructPointer t = true ->
  ApplyTo args (Some (t, DPtr None))
  = if existsb (fun arg => strings.HasPrefix arg "-") args
    then Panic "reflect: call of reflect.Value.Type on zero Value"
    else Val (Some (t, DPtr None), args, None).
Proof.
  intros SP. destruct t as [ | n elem | | | ]; try discriminate SP.
  cbn [isStructPointer] in SP. apply Kind_eqb_eq in SP.
  rewrite (ApplyTo_run ParseFloat UnmarshalText args _
             (getStructValue_pointer n elem None SP)).
  rewrite (run_nil args (length args - 0) 0 [] eq_refl).
  cbn [skipn]. destruct (existsb _ args); reflexivity.
Qed.

End Pass.

Section Turns.

Variable ParseFloat : string -> Z -> float64 * option error.
Variable UnmarshalText :
  string -> option (string -> option data -> go (data * option error)).

Local Notation loopBody := (loopBody ParseFloat UnmarshalText).
Local Notation run := (run ParseFloat UnmarshalText).
Local Notation SetValue := (SetValue ParseFloat UnmarshalText).
Local Notation setValue := (setValue ParseFloat UnmarshalText).
Local Notation ApplyTo := (ApplyTo ParseFloat UnmarshalText).

(** What a turn of the loop does to the cursor and to the unused list. *)
Lemma loopBody_turn args i arg v u t :
  nth_error args i = Some arg ->
  loopBody args i arg v u = Val t ->
  match t with
  | Continue i' v' u' =>
      (i' = i /\ v' = v /\ u' = u ++ [arg])
      \/ (strings.HasPrefix arg "-" = true /\ u' = u
          /\ i <= i' /\ i' < length args)
  | Return v' u' e => strings.HasPrefix arg "-" = true /\ u' = [] /\ e <> None
  end.
Proof.
  intros Harg. pose proof (nth_error_lt _ _ Harg) as Hlt.
  unfold argflags.loopBody.
  destruct (strings.HasPrefix arg "-") eqn:P; cbn [negb].
  - destruct (newFlagField _ v) as [[v1 [fld | e]] | msg] eqn:N; cbn [bind];
      [ | | discriminate].
    + destruct (findFlagValue _ _) as [[argValue remain] [err | ]] eqn:F.
      * intros H. inversion H; subst. repeat split. discriminate.
      * destruct (SetValue fld argValue v1) as [[v2 [err | ]] | msg]; cbn [bind];
          intros H; inversion H; subst.
        -- repeat split. discriminate.
        -- right. repeat split; [lia | ].
           pose proof (length_skipn (i + 1) args) as L.
           destruct (findFlagValue_ok _ _ _ _ F) as [-> | E].
           ++ lia.
           ++ rewrite E in L |- *. cbn [length] in L |- *. lia.
    + intros H. inversion H; subst. left.
      rewrite (newFlagField_inr _ _ _ _ N). auto.
  - intros H. inversion H; subst. left. auto.
Qed.

(** The record keeps its type through a turn. *)
Lemma loopBody_record args i arg t d u r :
  loopBody args i arg (Some (t, d)) u = Val r ->
  exists d', match r with
             | Continue _ v' _ => v' = Some (t, d')
             | Return v' _ _ => v' = Some (t, d')
             end.
Proof.
  unfold argflags.loopBody.
  destruct (negb (strings.HasPrefix arg "-")).
  - intros H. inversion H; subst. eauto.
  - destruct (newFlagField _ _) as [[v1 [fld | e]] | msg] eqn:N; cbn [bind];
      [ | | discriminate].
    + destruct (newFlagField_found _ _ N) as (t0 & d0 & d1 & fd & E0 & -> & _).
      inversion E0; subst t0 d0.
      destruct (findFlagValue _ _) as [[argValue remain] [err | ]].
      * intros H. inversion H; subst. eauto.
      * unfold argflags.SetValue.
        destruct (updateByIndex _ _ _ _) as [[d2 e2] | ]; cbn [bind];
          [ | discriminate].
        destruct e2; intros H; inversion H; subst; eauto.
    + rewrite (newFlagField_inr _ _ _ _ N).
      intros H. inversion H; subst. eauto.
Qed.

(** The record keeps its type through the pass. *)
Lemma run_record args t : forall k i d u v' u' err,
  length args - i <= k ->
  run args i (Some (t, d)) u = Val (v', u', err) ->
  exists d', v' = Some (t, d').
Proof.
  induction k as [ | k IH]; intros i d u v' u' err Hk; rewrite run_unfold.
  - destruct (nth_error args i) eqn:E.
    + apply nth_error_lt in E. lia.
    + intros H. inversion H; subst. eauto.
  - destruct (nth_error args i) as [arg | ] eqn:E.
    + destruct (loopBody args i arg (Some (t, d)) u) as [r | ] eqn:B; cbn [bind];
        [ | discriminate].
      destruct (loopBody_record _ _ _ _ _ _ _ B) as (d1 & Hd1).
      pose proof (loopBody_turn _ _ _ _ _ _ E B) as T.
      destruct r as [i1 v1 u1 | v1 u1 e1]; subst v1.
      * apply IH. destruct T as [(-> & _) | (_ & _ & H1 & H2)]; lia.
      * intros H. inversion H; subst. eauto.
    + intros H. inversion H; subst. eauto.
Qed.

(** The unused list of the pass: nil with an error; otherwise the list
    so far, then arguments met from the cursor on, in their order. *)
Lemma run_unused args : forall k i v u v' u' err,
  length args - i <= k ->
  run args i v u = Val (v', u', err) ->
  match err with
  | Some _ => u' = []
  | None => exists w, u' = u ++ w /\ subseq w (skipn i args)
  end.
Proof.
  induction k as [ | k IH]; intros i v u v' u' err Hk; rewrite run_unfold.
  - destruct (nth_error args i) eqn:E.
    + apply nth_error_lt in E. lia.
    + intros H. inversion H; subst. exists []. rewrite app_nil_r.
      split; [reflexivity | ]. rewrite (skipn_nth_error args i), E. constructor.
  - destruct (nth_error args i) as [arg | ] eqn:E.
    + destruct (loopBody args i arg v u) as [r | ] eqn:B; cbn [bind];
        [ | discriminate].
      pose proof (loopBody_turn _ _ _ _ _ _ E B) as T.
      destruct r as [i1 v1 u1 | v1 u1 e1].
      * intros H.
        assert (Hk1 : length args - S i1 <= k)
          by (destruct T as [(-> & _) | (_ & _ & H1 & H2)]; lia).
        pose proof (IH (S i1) v1 u1 v' u' err Hk1 H) as G.
        destruct err as [e | ]; [exact G | ].
        destruct G as (w & -> & Hw).
        destruct T as [(-> & _ & ->) | (_ & -> & H1 & H2)].
        -- exists (arg :: w). rewrite <- app_assoc. split; [reflexivity | ].
           rewrite (skipn_nth_error args i), E. apply subseq_take. exact Hw.
        -- exists w. split; [reflexivity | ].
           rewrite (skipn_skipn_le args i (S i1)) in Hw by lia.
           apply (subseq_skipn _ _ _ Hw).
      * destruct T as (_ & -> & He). intros H. inversion H; subst.
        destruct err; [reflexivity | congruence].
    + intros H. inversion H; subst. exists []. rewrite app_nil_r.
      split; [reflexivity | ]. rewrite (skipn_nth_error args i), E. constructor.
Qed.

(** X6.  The unused list that [ApplyTo] returns holds arguments of the
    call only, in the order they were given; whenever [ApplyTo] returns an
    error the unused list is nil, whatever had been collected before. *)
Theorem unused_in_order (args : ArgFlags) str str' unused err :
  ApplyTo args str = Val (str', unused, err) ->
  match err with
  | Some _ => unused = []
  | None => subseq unused args
  end.
Proof.
  destruct (getStructValue str) as [[v | e] | msg] eqn:G.
  - rewrite (ApplyTo_run ParseFloat UnmarshalText args str G).
    destruct (run args 0 v []) as [[[v1 u1] e1] | msg] eqn:R;
      cbn [bind]; [ | discriminate].
    intros H. inversion H; subst.
    pose proof (run_unused args (length args) 0 v [] v1 unused err
                  ltac:(lia) R) as U.
    destruct err as [e | ]; [exact U | ].
    destruct U as (w & -> & Hw). exact Hw.
  - unfold argflags.ApplyTo. rewrite G. cbn [bind].
    intros H. inversion H; subst. reflexivity.
  - unfold argflags.ApplyTo. rewrite G. discriminate.
Qed.

End Turns.

(* ===================================================================== *)
(** ** Arguments given in two parts *)

(** The value window does not look past its first argument: more
    arguments at the end change nothing, when they start with a flag. *)
Lemma findFlagValue_app va b t :
  match b with
  | [] => True
  | x :: _ => strings.HasPrefix x "-" = true
  end ->
  findFlagValue (va ++ b) t
  = match findFlagValue va t with
    | (value, remain, None) => (value, remain ++ b, None)
    | r => r
    end.
Proof.
  intros Hb. destruct va as [ | a va'].
  - destruct b as [ | x b'].
    + cbn [app]. destruct (findFlagValue [] t) as [[value remain] [e | ]];
        [reflexivity | rewrite app_nil_r; reflexivity].
    + unfold findFlagValue. cbn [app]. rewrite Hb. cbn [negb String.eqb orb].
      rewrite andb_true_r.
      destruct (reflect.Kind_eqb (reflect.kind t) reflect.Bool); reflexivity.
  - unfold findFlagValue. cbn [app tl].
    destruct (_ && _)%bool; [reflexivity | ].
    destruct (String.eqb _ _); reflexivity.
Qed.

Section TwoParts.

Variable ParseFloat : string -> Z -> float64 * option error.
Variable UnmarshalText :
  string -> option (string -> option data -> go (data * option error)).

Local Notation loopBody := (loopBody ParseFloat UnmarshalText).
Local Notation run := (run ParseFloat UnmarshalText).
Local Notation SetValue := (SetValue ParseFloat UnmarshalText).
Local Notation ApplyTo := (ApplyTo ParseFloat UnmarshalText).

(** A turn inside the first part does not see the second part. *)
Lemma loopBody_prefix a b i arg v u :
  nth_error a i = Some arg ->
  match b with
  | [] => True
  | x :: _ => strings.HasPrefix x "-" = true
  end ->
  loopBody (a ++ b) i arg v u = loopBody a i arg v u.
Proof.
  intros Harg Hb. pose proof (nth_error_lt _ _ Harg) as Hlt.
  unfold argflags.loopBody.
  destruct (negb (strings.HasPrefix arg "-")); [reflexivity | ].
  destruct (newFlagField _ v) as [[v1 [fld | e]] | msg]; cbn [bind];
    try reflexivity.
  rewrite skipn_app. replace (i + 1 - length a) with 0 by lia. cbn [skipn].
  rewrite (findFlagValue_app _ b _ Hb).
  destruct (findFlagValue (skipn (i + 1) a) (Type_ fld))
    as [[argValue remain] [err | ]] eqn:F; [reflexivity | ].
  replace (length (skipn (i + 1) a ++ b) - length (remain ++ b))
    with (length (skipn (i + 1) a) - length remain); [reflexivity | ].
  rewrite !length_app.
  destruct (findFlagValue_ok _ _ _ _ F) as [-> | E].
  - lia.
  - rewrite E. cbn [length]. lia.
Qed.

(** A turn inside the second part is a turn of the second part alone,
    with the cursor counted from the start of the whole. *)
Lemma loopBody_shift a b j arg v u :
  loopBody (a ++ b) (length a + j) arg v u
  = match loopBody b j arg v u with
    | Val (Continue j' v' u') => Val (Continue (length a + j') v' u')
    | r => r
    end.
Proof.
  unfold argflags.loopBody.
  destruct (negb (strings.HasPrefix arg "-")); [reflexivity | ].
  destruct (newFlagField _ v) as [[v1 [fld | e]] | msg]; cbn [bind];
    try reflexivity.
  rewrite skipn_app, skipn_all2 by lia.
  replace (length a + j + 1 - length a) with (j + 1) by lia. cbn [app].
  destruct (findFlagValue _ _) as [[argValue remain] [err | ]]; [reflexivity | ].
  destruct (SetValue fld argValue v1) as [[v2 [err | ]] | msg]; cbn [bind];
    try reflexivity.
  rewrite Nat.add_assoc. reflexivity.
Qed.

Lemma run_shift a b : forall k j v u,
  length b - j <= k ->
  run (a ++ b) (length a + j) v u = run b j v u.
Proof.
  induction k as [ | k IH]; intros j v u Hk;
    rewrite (run_unfold ParseFloat UnmarshalText (a ++ b)),
            (run_unfold ParseFloat UnmarshalText b);
    rewrite nth_error_app2 by lia;
    replace (length a + j - length a) with j by lia.
  - destruct (nth_error b j) eqn:E; [ | reflexivity].
    apply nth_error_lt in E. lia.
  - destruct (nth_error b j) as [arg | ] eqn:E; [ | reflexivity].
    rewrite loopBody_shift.
    destruct (loopBody b j arg v u) as [[j1 v1 u1 | v1 u1 e1] | msg] eqn:B;
      cbn [bind]; try reflexivity.
    pose proof (loopBody_turn _ _ _ _ _ _ _ _ E B) as T.
    replace (S (length a + j1)) with (length a + S j1) by lia.
    apply IH. destruct T as [(-> & _) | (_ & _ & H1 & H2)]; lia.
Qed.

Lemma run_prefix a b :
  match b with
  | [] => True
  | x :: _ => strings.HasPrefix x "-" = true
  end ->
  forall k i v u,
    length a - i <= k -> i <= length a ->
    run (a ++ b) i v u
    = (' (v', u', err) <- run a i v u ;;
       match err with
       | Some e => Val (v', u', Some e)
       | None => run (a ++ b) (length a) v' u'
       end).
Proof.
  intros Hb. induction k as [ | k IH]; intros i v u Hk Hi;
    rewrite (run_unfold ParseFloat UnmarshalText a).
  - destruct (nth_error a i) eqn:E.
    + apply nth_error_lt in E. lia.
    + cbn [bind]. f_equal. lia.
  - destruct (nth_error a i) as [arg | ] eqn:E.
    + rewrite (run_unfold ParseFloat UnmarshalText (a ++ b)).
      rewrite nth_error_app1 by (apply (nth_error_lt _ _ E)).
      rewrite E, (loopBody_prefix a b i arg v u E Hb).
      destruct (loopBody a i arg v u) as [[i1 v1 u1 | v1 u1 e1] | msg] eqn:B;
        cbn [bind]; try reflexivity.
      * pose proof (loopBody_turn _ _ _ _ _ _ _ _ E B) as T.
        pose proof (nth_error_lt _ _ E) as Hlt.
        apply IH; destruct T as [(-> & _) | (_ & _ & H1 & H2)]; lia.
      * pose proof (loopBody_turn _ _ _ _ _ _ _ _ E B) as T.
        destruct T as (_ & _ & He). destruct e1; [reflexivity | congruence].
    + cbn [bind]. apply nth_error_None in E. f_equal. lia.
Qed.

(** The pass over arguments given in two parts, the second starting with
    a flag, is the pass over the first part, then over the second. *)
Lemma run_app a b v u :
  match b with
  | [] => True
  | x :: _ => strings.HasPrefix x "-" = true
  end ->
  run (a ++ b) 0 v u
  = (' (v', u', err) <- run a 0 v u ;;
     match err with
     | Some e => Val (v', u', Some e)
     | None => run b 0 v' u'
     end).
Proof.
  intros Hb. rewrite (run_prefix a b Hb (length a) 0 v u) by lia.
  destruct (run a 0 v u) as [[[v1 u1] [e | ]] | msg]; cbn [bind]; try reflexivity.
  rewrite <- (run_shift a b (length b) 0 v1 u1) by lia.
  rewrite Nat.add_0_r. reflexivity.
Qed.

(** The unused list so far is only added to. *)
Lemma loopBody_frame args i arg v p u :
  loopBody args i arg v (p ++ u)
  = match loopBody args i arg v u with
    | Val (Continue i' v' u') => Val (Continue i' v' (p ++ u'))
    | r => r
    end.
Proof.
  unfold argflags.loopBody.
  destruct (negb (strings.HasPrefix arg "-")); [rewrite app_assoc; reflexivity | ].
  destruct (newFlagField _ v) as [[v1 [fld | e]] | msg]; cbn [bind];
    [ | rewrite app_assoc; reflexivity | reflexivity].
  destruct (findFlagValue _ _) as [[argValue remain] [err | ]]; [reflexivity | ].
  destruct (SetValue fld argValue v1) as [[v2 [err | ]] | msg]; reflexivity.
Qed.

Lemma run_frame args p : forall k i v u,
  length args - i <= k ->
  run args i v (p ++ u)
  = (' (v', u', err) <- run args i v u ;;
     Val (v', match err with
              | Some _ => u'
              | None => p ++ u'
              end, err)).
Proof.
  induction k as [ | k IH]; intros i v u Hk;
    rewrite (run_unfold ParseFloat UnmarshalText args i v (p ++ u)),
            (run_unfold ParseFloat UnmarshalText args i v u).
  - destruct (nth_error args i) eqn:E; [ | reflexivity].
    apply nth_error_lt in E. lia.
  - destruct (nth_error args i) as [arg | ] eqn:E; [ | reflexivity].
    rewrite loopBody_frame.
    destruct (loopBody args i arg v u) as [[i1 v1 u1 | v1 u1 e1] | msg] eqn:B;
      cbn [bind]; try reflexivity.
    + pose proof (loopBody_turn _ _ _ _ _ _ _ _ E B) as T.
      apply IH. destruct T as [(-> & _) | (_ & _ & H1 & H2)]; lia.
    + pose proof (loopBody_turn _ _ _ _ _ _ _ _ E B) as T.
      destruct T as (_ & _ & He). destruct e1; [reflexivity | congruence].
Qed.

(** X7.  Arguments given in two parts, the second empty or starting with
    a flag.  When [ApplyTo] on the first part returns without error, one
    call on the whole does what a call on the second part does to the
    struct the first call left: the same struct, the same error, and,
    without error, the unused arguments of the first call followed by
    those of the second.  When [ApplyTo] on the first part returns an
    error, the call on the whole returns the same: the second part is not
    looked at. *)
Theorem ApplyTo_in_two_parts (a b : ArgFlags) str str1 ua err1 :
  match b with
  | [] => True
  | x :: _ => strings.HasPrefix x "-" = true
  end ->
  ApplyTo a str = Val (str1, ua, err1) ->
  ApplyTo (a ++ b) str
  = match err1 with
    | Some e => Val (str1, ua, Some e)
    | None =>
        ' (str2, ub, err) <- ApplyTo b str1 ;;
        Val (str2, match err with
                   | Some _ => ub
                   | None => ua ++ ub
                   end, err)
    end.
Proof.
  intros Hb Ha.
  destruct (getStructValue str) as [[v | e] | msg] eqn:G.
  - rewrite (ApplyTo_run ParseFloat UnmarshalText a str G) in Ha.
    rewrite (ApplyTo_run ParseFloat UnmarshalText (a ++ b) str G).
    rewrite (run_app a b v [] Hb).
    destruct (run a 0 v []) as [[[v1 u1] e1] | msg] eqn:R; cbn [bind] in Ha |- *;
      [ | discriminate].
    inversion Ha; subst str1 ua err1; clear Ha.
    destruct e1 as [e | ]; cbn [bind]; [reflexivity | ].
    destruct (getStructValue_accepts _ G) as (n & elem & p & -> & K & ->).
    pose proof (run_frame b u1 (length b) 0 v1 [] ltac:(lia)) as F.
    rewrite app_nil_r in F. rewrite F. clear F.
    destruct p as [d | ].
    + destruct (run_record ParseFloat UnmarshalText a elem (length a) 0 d [] v1 u1 None
                  ltac:(lia) R) as (d1 & ->).
      cbn [store].
      rewrite (ApplyTo_run ParseFloat UnmarshalText b _
                 (getStructValue_pointer n elem (Some d1) K)).
      destruct (run b 0 (Some (elem, d1)) []) as [[[v2 u2] e2] | msg] eqn:R2;
        cbn [bind]; [ | reflexivity].
      destruct (run_record ParseFloat UnmarshalText b elem (length b) 0 d1 [] v2 u2 e2
                  ltac:(lia) R2) as (d2 & ->).
      reflexivity.
    + pose proof (run_nil ParseFloat UnmarshalText a (length a - 0) 0 [] eq_refl) as N.
      rewrite R in N. destruct (existsb _ _); [discriminate | ].
      inversion N; subst v1 u1; clear N.
      cbn [store].
      rewrite (ApplyTo_run ParseFloat UnmarshalText b _
                 (getStructValue_pointer n elem None K)).
      destruct (run b 0 None []) as [[[v2 u2] e2] | msg]; reflexivity.
  - unfold argflags.ApplyTo in Ha |- *. rewrite G in Ha |- *. cbn [bind] in Ha |- *.
    inversion Ha; subst. reflexivity.
  - unfold argflags.ApplyTo in Ha. rewrite G in Ha. discriminate.
Qed.

End TwoParts.

(* ===================================================================== *)
(** ** What a flag does to the record *)

Lemma replaceNth_same {A : Type} (l : list A) : forall i x,
  nth_error l i = Some x -> reflect.replaceNth l i x = l.
Proof.
  induction l as [ | a l IH]; intros [ | i] x H; cbn in *; try discriminate.
  - inversion H. reflexivity.
  - rewrite (IH i x H). reflexivity.
Qed.

(** Storing in a field what it holds leaves the struct as it is. *)
Lemma SetField_same t d i ft fd :
  reflect.Field t d i = Val (ft, fd) -> reflect.SetField d i fd = Val d.
Proof.
  unfold reflect.Field, reflect.SetField.
  destruct t as [ | | | n fields | ]; try discriminate.
  destruct d as [ | | | | | | ds | | ]; try discriminate.
  destruct (nth_error fields i) as [f | ]; [ | discriminate].
  destruct (nth_error ds i) as [x | ] eqn:E; [ | discriminate].
  intros H. inversion H; subst.
  pose proof (nth_error_lt _ _ E) as Hlt. apply Nat.ltb_lt in Hlt.
  rewrite Hlt, (replaceNth_same ds i fd E). reflexivity.
Qed.

(** Storing twice in the same field keeps the second store. *)
Lemma SetField_twice d i x d' :
  reflect.SetField d i x = Val d' -> reflect.SetField d' i x = Val d'.
Proof.
  unfold reflect.SetField.
  destruct d as [ | | | | | | ds | | ]; try discriminate.
  destruct (i <? length ds)%nat eqn:L; [ | discriminate].
  intros H. inversion H; subst.
  rewrite length_replaceNth, L, replaceNth_replaceNth. reflexivity.
Qed.

(** A setter that leaves the field as it is leaves the struct as it
    is. *)
Lemma updateByIndexFrom_same (set : setter) : forall index first t d ft fd err,
  FieldByIndexFrom first t d index = Val (ft, fd) ->
  set ft fd = Val (fd, err) ->
  updateByIndexFrom first t d index set = Val (d, err).
Proof.
  induction index as [ | i index IH]; intros first t d ft fd err Hget Hset.
  - cbn in *. inversion Hget; subst. exact Hset.
  - assert (Hstep : forall t0 d0,
               (' (ft0, fld0) <- reflect.Field t0 d0 i ;;
                FieldByIndexFrom false ft0 fld0 index) = Val (ft, fd) ->
               (' (ft0, fld0) <- reflect.Field t0 d0 i ;;
                ' (fld', e) <- updateByIndexFrom false ft0 fld0 index set ;;
                v' <- reflect.SetField d0 i fld' ;; Val (v', e)) = Val (d0, err)).
    { intros t0 d0 H.
      destruct (reflect.Field t0 d0 i) as [[ft0 fd0] | ] eqn:F; [ | discriminate].
      cbn [bind] in H |- *.
      rewrite (IH false ft0 fd0 ft fd err H Hset). cbn [bind].
      rewrite (SetField_same _ _ _ _ _ F). reflexivity. }
    cbn [FieldByIndexFrom updateByIndexFrom] in Hget |- *.
    destruct first; cbn [negb andb bind] in Hget |- *.
    + apply Hstep. exact Hget.
    + unfold indirect in Hget. destruct (isStructPointer t) eqn:SP.
      * destruct t as [ | n elem | | | ]; try discriminate.
        destruct d as [ | | | | [dd | ] | | | | ]; try discriminate.
        cbn [bind] in Hget. pose proof (Hstep _ _ Hget) as H1.
        destruct (reflect.Field elem dd i) as [[ft0 fd0] | ]; [ | discriminate].
        cbn [bind] in H1 |- *.
        destruct (updateByIndexFrom false ft0 fd0 index set) as [[fld' e] | ];
          [ | discriminate].
        cbn [bind] in H1 |- *.
        destruct (reflect.SetField dd i fld'); [ | discriminate].
        cbn [bind] in H1 |- *. inversion H1; subst. reflexivity.
      * cbn [bind] in Hget. apply Hstep. exact Hget.
Qed.

(** [ensureNotNil] has nothing left to do on what it returns. *)
Lemma ensureNotNil_again : forall index t d d',
  ensureNotNil t d index = Val d' -> ensureNotNil t d' index = Val d'.
Proof.
  induction index as [ | i rest IH]; intros t d d'.
  - cbn. intros H. inversion H. reflexivity.
  - cbn [ensureNotNil].
    destruct (reflect.Field t d i) as [[ft fld] | ] eqn:F; [ | discriminate].
    cbn [bind].
    assert (G : forall y, reflect.SetField d i y = Val d' ->
                          reflect.Field t d' i = Val (ft, y)
                          /\ reflect.SetField d' i y = Val d').
    { intros y Hs. split; [ | apply (SetField_twice _ _ _ _ Hs)].
      destruct (Field_SetField _ _ _ y F) as (d1 & Hs1 & Hf1).
      rewrite Hs in Hs1. inversion Hs1; subst. exact Hf1. }
    destruct ft as [ | pn elem | | | ].
    2: { destruct fld as [ | | | | p | | | | ]; try discriminate.
         destruct (ensureNotNil elem _ rest) as [z | ] eqn:Z; [ | discriminate].
         cbn [bind]. intros Hs. destruct (G _ Hs) as [Hf Hs'].
         rewrite Hf. cbn [bind]. rewrite (IH _ _ _ Z). cbn [bind]. exact Hs'. }
    all: destruct (ensureNotNil _ fld rest) as [z | ] eqn:Z; [ | discriminate];
      cbn [bind]; intros Hs; destruct (G _ Hs) as [Hf Hs'];
      rewrite Hf; cbn [bind]; rewrite (IH _ _ _ Z); cbn [bind]; exact Hs'.
Qed.

(** X12.  Resolving a flag name a second time finds the same field and
    changes nothing more: the pointers that the first resolution
    allocated are kept, with what they point to. *)
Theorem resolution_is_idempotent (name : string) (v v' : Value) r :
  newFlagField name v = Val (v', r) ->
  newFlagField name v' = Val (v', r).
Proof.
  intros H. destruct r as [fld | e].
  - destruct (newFlagField_found _ _ H)
      as (t & d & d' & fd & -> & -> & Hfind & Hne & Hen & Hget).
    unfold newFlagField, findField. rewrite Hfind. cbn [bind].
    destruct (fldIndex fld) as [ | i rest] eqn:E; [congruence | ].
    cbn [length Nat.eqb]. rewrite (ensureNotNil_again _ _ _ _ Hen). cbn [bind].
    rewrite Hget. cbn [bind]. destruct fld as [ft idx]. cbn in E |- *.
    rewrite E. reflexivity.
  - rewrite (newFlagField_inr _ _ _ _ H) in H |- *. exact H.
Qed.

Section OneFlag.

Variable ParseFloat : string -> Z -> float64 * option error.
Variable UnmarshalText :
  string -> option (string -> option data -> go (data * option error)).

Local Notation loopBody := (loopBody ParseFloat UnmarshalText).
Local Notation run := (run ParseFloat UnmarshalText).
Local Notation SetValue := (SetValue ParseFloat UnmarshalText).
Local Notation setValue := (setValue ParseFloat UnmarshalText).
Local Notation stringToType := (stringToType ParseFloat).
Local Notation asTextUnmarshaler := (asTextUnmarshaler UnmarshalText).
Local Notation Implements := (Implements UnmarshalText).
Local Notation ApplyTo := (ApplyTo ParseFloat UnmarshalText).

(** An error of [setValue] leaves a field that is not a pointer and has
    no [UnmarshalText] as it was. *)
Lemma setValue_error_keeps value t fld x e :
  reflect.kind t <> reflect.Ptr ->
  asTextUnmarshaler t fld = None ->
  setValue value t fld = Val (x, Some e) ->
  x = fld.
Proof.
  intros Hk Hn.
  destruct t as [n k | n elem | n elem | n fs | n]; cbn [argflags.setValue];
    rewrite Hn.
  2: { exfalso. apply Hk. reflexivity. }
  2: { unfold setFieldSlice.
       destruct (rangeSet _ _ _) as [[inst [err | ]] | msg]; cbn [bind];
         intros H; inversion H; reflexivity. }
  all: destruct (stringToType value _) as [sv [err | ]];
    [intros H; inversion H; reflexivity | ];
    destruct (reflect.Set_ _ _); cbn [bind]; discriminate.
Qed.

(** X8.  A flag whose field is not a pointer and has no [UnmarshalText],
    followed by a value that [setValue] refuses: the field keeps what it
    held, and [ApplyTo] ends there with no unused list and the error whose
    message is the flag between quotes, two spaces and the message of the
    refusal; the record is as the resolution of the flag left it. *)
Theorem refused_value_aborts (args : ArgFlags) i arg v unused t d' fld
        value remain fd x e :
  nth_error args i = Some arg ->
  strings.HasPrefix arg "-" = true ->
  newFlagField (strings.TrimLeft arg "-") v = Val (Some (t, d'), inl fld) ->
  findFlagValue (skipn (i + 1) args) (Type_ fld) = (value, remain, None) ->
  FieldByIndex t d' (fldIndex fld) = Val (Type_ fld, fd) ->
  reflect.kind (Type_ fld) <> reflect.Ptr ->
  asTextUnmarshaler (Type_ fld) fd = None ->
  setValue value (Type_ fld) fd = Val (x, Some e) ->
  x = fd
  /\ run args i v unused
     = Val (Some (t, d'), [],
            Some (errorString ("'" ++ arg ++ "'  " ++ Error e))).
Proof.
  intros Harg Hp Hnew Hval Hget Hk Hn Hset.
  pose proof (setValue_error_keeps _ _ _ _ _ Hk Hn Hset) as ->.
  split; [reflexivity | ].
  rewrite run_unfold, Harg, (loopBody_flag ParseFloat UnmarshalText args i arg v unused Hp Hnew).
  cbv zeta. rewrite Hval.
  unfold argflags.SetValue, updateByIndex.
  rewrite (updateByIndexFrom_same (setValue value) _ _ _ _ _ _ _ Hget Hset).
  reflexivity.
Qed.

(** X9.  A flag whose field is not a bool, followed by an argument that
    is not empty and is not a flag: that argument is the value, whatever
    it reads like.  When [setValue] accepts it, the turn of the loop
    leaves the record with what [setValue] made of the value stored in the
    field (in a field of type string, the argument itself, as it stands),
    the cursor on the value and the unused list as it was, so the pass
    goes on after the value; when nothing follows the value, the pass,
    and [ApplyTo], return that record and that unused list without
    error. *)
Theorem flag_takes_the_next_argument (args : ArgFlags) i arg v unused t d' fld
        value fd x :
  nth_error args i = Some arg ->
  strings.HasPrefix arg "-" = true ->
  newFlagField (strings.TrimLeft arg "-") v = Val (Some (t, d'), inl fld) ->
  reflect.kind (Type_ fld) <> reflect.Bool ->
  nth_error args (S i) = Some value ->
  strings.HasPrefix value "-" = false ->
  value <> EmptyString ->
  FieldByIndex t d' (fldIndex fld) = Val (Type_ fld, fd) ->
  setValue value (Type_ fld) fd = Val (x, None) ->
  (Type_ fld = TBasic None reflect.String -> x = DString value)
  /\ exists d'',
      updateByIndex t d' (fldIndex fld) (fun _ _ => Val (x, None))
      = Val (d'', None)
      /\ FieldByIndex t d'' (fldIndex fld) = Val (Type_ fld, x)
      /\ loopBody args i arg v unused
         = Val (Continue (i + 1) (Some (t, d'')) unused)
      /\ run args i v unused = run args (i + 2) (Some (t, d'')) unused
      /\ (nth_error args (i + 2) = None ->
          run args i v unused = Val (Some (t, d''), unused, None)
          /\ forall str v0,
              getStructValue str = Val (inl v0) ->
              run args 0 v0 [] = run args i v unused ->
              ApplyTo args str = Val (store str (Some (t, d'')), unused, None)).
Proof.
  intros Harg Hp Hnew Hk Hnext Hvp Hvne Hget Hset. split.
  - intros Hty. rewrite Hty in Hset. cbn in Hset. inversion Hset. reflexivity.
  - assert (Hval : findFlagValue (skipn (i + 1) args) (Type_ fld)
                   = (value, skipn (i + 2) args, None)).
    { rewrite vals_next, Hnext.
      apply findFlagValue_value; [exact Hvp | exact Hvne | ].
      intros K. congruence. }
    destruct (@flag_set_turn ParseFloat UnmarshalText args i arg v unused t d' fld
                value (skipn (i + 2) args) fd x Harg Hp Hnew Hget Hval Hset)
      as (d'' & Hup & Hrd & Hturn & Hrun).
    assert (Hpos : i + (length (skipn (i + 1) args) - length (skipn (i + 2) args))
                   = i + 1).
    { rewrite vals_next, Hnext. cbn [length]. lia. }
    rewrite Hpos in Hturn, Hrun.
    replace (S (i + 1)) with (i + 2) in Hrun by lia.
    exists d''. split; [exact Hup | ]. split; [exact Hrd | ].
    split; [exact Hturn | ]. split; [exact Hrun | ].
    intros Hend.
    assert (Hres : run args i v unused = Val (Some (t, d''), unused, None)).
    { rewrite Hrun. apply (run_end ParseFloat UnmarshalText). exact Hend. }
    split; [exact Hres | ].
    intros str v0 Hs Hreach.
    eapply ApplyTo_from; [exact Hs | exact Hreach | exact Hres].
Qed.

(** X10.  A flag that names a field of pointer type holding nil: the
    resolution of the name gives the field a fresh zero pointee before any
    value is looked for.  When no value follows the flag, [ApplyTo] ends
    with the "no value found" error and the pointer stays allocated: the
    failed call has changed the record. *)
Theorem pointer_field_is_allocated_first (args : ArgFlags) i arg n fields ds
        unused k f pn elem :
  nth_error args i = Some arg ->
  strings.HasPrefix arg "-" = true ->
  findFieldIndex (strings.TrimLeft arg "-") (TStruct n fields) [] = Val [k] ->
  nth_error fields k = Some f ->
  reflect.Type_ f = TPtr pn elem ->
  nth_error ds k = Some (DPtr None) ->
  (nth_error args (S i) = None
   \/ exists next, nth_error args (S i) = Some next
                   /\ strings.HasPrefix next "-" = true) ->
  let allocated :=
    Some (TStruct n fields,
          DStruct (reflect.replaceNth ds k (DPtr (Some (reflect.Zero elem))))) in
  newFlagField (strings.TrimLeft arg "-") (Some (TStruct n fields, DStruct ds))
  = Val (allocated, inl (mkFlagField (TPtr pn elem) [k]))
  /\ run args i (Some (TStruct n fields, DStruct ds)) unused
     = Val (allocated, [], Some (errorString (arg ++ "  no value found"))).
Proof.
  intros Harg Hp Hfind Hf Hty Hnil Hnext allocated.
  pose proof (nth_error_lt _ _ Hnil) as Hlt. apply Nat.ltb_lt in Hlt.
  assert (Hnew : newFlagField (strings.TrimLeft arg "-")
                              (Some (TStruct n fields, DStruct ds))
                 = Val (allocated, inl (mkFlagField (TPtr pn elem) [k]))).
  { unfold newFlagField, findField. rewrite Hfind. cbn [bind length Nat.eqb].
    cbn [ensureNotNil]. unfold reflect.Field at 1. rewrite Hf, Hnil, Hty.
    cbn [bind ensureNotNil]. unfold reflect.SetField. rewrite Hlt. cbn [bind].
    unfold FieldByIndex. cbn [FieldByIndexFrom bind]. unfold reflect.Field.
    rewrite Hf, (nth_error_replaceNth ds k _ Hnil), Hty. reflexivity. }
  split; [exact Hnew | ].
  apply (@run_no_value ParseFloat UnmarshalText args i arg _ unused allocated
           (mkFlagField (TPtr pn elem) [k]) Harg Hp Hnew); [ | exact Hnext].
  cbn. discriminate.
Qed.

End OneFlag.

(* ===================================================================== *)
(** ** Names that resolve to no field *)

(** The first loop panics at the first field that is marked as a sub
    argument without being a struct or a pointer to one, when no field
    before it matches. *)
Lemma scanFields_misplaced name pre f post :
  (forall g, In g pre -> directMatch name g = false /\ misconfigured g = false) ->
  directMatch name f = false ->
  misconfigured f = true ->
  forall i subs,
    scanFields name (pre ++ f :: post) i subs
    = Panic "Field is tagged as a sub argument field '+', but is not a struct or pointer to a struct".
Proof.
  intros Hpre Hf Hm. induction pre as [ | g pre IH]; intros i subs.
  - cbn [app scanFields]. unfold directMatch in Hf. unfold misconfigured, subArg in Hm.
    destruct (reflect.IsExported f); cbn [andb negb] in Hf, Hm |- *;
      [ | discriminate].
    apply orb_false_iff in Hf. destruct Hf as [Hn Ht]. rewrite Hn, Ht.
    destruct (isSubArgTag _); cbn [andb] in Hm |- *; [ | discriminate].
    rewrite Hm. reflexivity.
  - destruct (Hpre g (or_introl eq_refl)) as [Hg Hc].
    assert (Hrest : forall g', In g' pre ->
                               directMatch name g' = false /\ misconfigured g' = false).
    { intros g' Hg'. apply Hpre. right. exact Hg'. }
    cbn [app scanFields].
    unfold directMatch in Hg. unfold misconfigured, subArg in Hc.
    destruct (reflect.IsExported g); cbn [andb negb] in Hg, Hc |- *;
      [ | apply (IH Hrest)].
    apply orb_false_iff in Hg. destruct Hg as [Hn Ht]. rewrite Hn, Ht.
    destruct (isSubArgTag _); cbn [andb] in Hc |- *; [ | apply (IH Hrest)].
    rewrite Hc. apply (IH Hrest).
Qed.

(** The second loop returns nil when no recorded field holds the name. *)
Lemma rangeSubArgs_none find parents subs : forall fs i,
  (forall j g, nth_error fs j = Some g ->
               existsb (Nat.eqb (i + j)) subs = true ->
               find (reflect.Type_ g) (parents ++ [i + j]) = Val []) ->
  rangeSubArgs find parents subs fs i = Val [].
Proof.
  induction fs as [ | f fs IH]; intros i H; cbn [rangeSubArgs]; [reflexivity | ].
  assert (Hrest : rangeSubArgs find parents subs fs (S i) = Val []).
  { apply IH. intros j g Hg Hj.
    replace (S i + j) with (i + S j) in * by lia. apply (H (S j) g Hg Hj). }
  destruct (existsb (Nat.eqb i) subs) eqn:E; [ | exact Hrest].
  pose proof (H 0 f eq_refl) as H0. rewrite Nat.add_0_r in H0.
  rewrite (H0 E). cbn [bind length Nat.ltb Nat.leb]. exact Hrest.
Qed.

(** A name that no field matches by itself and that no sub argument
    holds is not found. *)
Lemma findFieldIndex_none name n fs parents :
  (forall g, In g fs -> directMatch name g = false /\ misconfigured g = false) ->
  (forall g p, In g fs -> subArg g = true ->
               findFieldIndex name (reflect.Type_ g) p = Val []) ->
  findFieldIndex name (TStruct n fs) parents = Val [].
Proof.
  intros Hno Hsub. cbn [findFieldIndex].
  rewrite (scanFields_nomatch name fs Hno). cbn [bind app].
  apply rangeSubArgs_none. intros j g Hg Hj.
  apply Hsub; [apply (nth_error_In _ _ Hg) | ].
  destruct (nth_error_split _ _ Hg) as (pre & post & -> & <-).
  rewrite <- (subArgPositions_at pre g post 0). exact Hj.
Qed.

Section Unresolved.

Variable ParseFloat : string -> Z -> float64 * option error.
Variable UnmarshalText :
  string -> option (string -> option data -> go (data * option error)).

Local Notation run := (run ParseFloat UnmarshalText).

(** X13.  A field marked as a sub argument that is neither a struct nor a
    pointer to a struct makes the resolution panic for every name that no
    field declared before it, nor the field itself, matches; [ApplyTo]
    panics at such a flag. *)
Theorem misplaced_sub_argument_panics (args : ArgFlags) i arg n pre f post d
        unused :
  nth_error args i = Some arg ->
  strings.HasPrefix arg "-" = true ->
  (forall g, In g pre ->
             directMatch (strings.TrimLeft arg "-") g = false
             /\ misconfigured g = false) ->
  directMatch (strings.TrimLeft arg "-") f = false ->
  misconfigured f = true ->
  exists msg,
    findFieldIndex (strings.TrimLeft arg "-") (TStruct n (pre ++ f :: post)) []
    = Panic msg
    /\ run args i (Some (TStruct n (pre ++ f :: post), d)) unused = Panic msg.
Proof.
  intros Harg Hp Hpre Hf Hm. eexists.
  assert (Hfind : findFieldIndex (strings.TrimLeft arg "-")
                                 (TStruct n (pre ++ f :: post)) []
                  = Panic "Field is tagged as a sub argument field '+', but is not a struct or pointer to a struct").
  { cbn [findFieldIndex]. rewrite (scanFields_misplaced _ pre f post Hpre Hf Hm).
    reflexivity. }
  split; [exact Hfind | ].
  rewrite run_unfold, Harg. unfold argflags.loopBody. rewrite Hp. cbn [negb].
  unfold newFlagField, findField. rewrite Hfind. reflexivity.
Qed.

End Unresolved.

(** X14.  A name is not found in a struct when no field matches it by
    itself and no field marked as a sub argument holds it: [findFieldIndex]
    returns nil, and [newFlagField] returns the error that names the flag
    and the type, leaving the record as it was.  Fields that are not
    exported are never looked at: a struct without exported fields holds
    no name at all, whatever the names and the tags of its fields. *)
Theorem unmatched_name_is_not_found (name : string) n fs parents d :
  (forall g, In g fs -> directMatch name g = false /\ misconfigured g = false) ->
  (forall g p, In g fs -> subArg g = true ->
               findFieldIndex name (reflect.Type_ g) p = Val []) ->
  findFieldIndex name (TStruct n fs) parents = Val []
  /\ newFlagField name (Some (TStruct n fs, d))
     = Val (Some (TStruct n fs, d),
            inr (errorString ("field " ++ name ++ " not found in "
                              ++ reflect.TypeString (TStruct n fs))))
  /\ (forall m gs p,
         (forall g, In g gs -> reflect.IsExported g = false) ->
         findFieldIndex name (TStruct m gs) p = Val []).
Proof.
  intros Hno Hsub. split; [ | split].
  - apply (findFieldIndex_none name n fs parents Hno Hsub).
  - apply newFlagField_not_found. apply (findFieldIndex_none name n fs [] Hno Hsub).
  - intros m gs p Hex. apply findFieldIndex_none.
    + intros g Hg. unfold directMatch, misconfigured, subArg.
      rewrite (Hex g Hg). split; reflexivity.
    + intros g q Hg Hs. unfold subArg in Hs. rewrite (Hex g Hg) in Hs.
      discriminate Hs.
Qed.

(** X15.  What [findFieldIndex] returns is nil or the parents it was
    given followed by an index path that is not empty and designates a
    field of the type, read as [FieldByIndex] reads it: through structs and
    pointers to structs.  A path of more than one position enters a field
    marked as a sub argument. *)
Theorem found_index_is_a_path (name : string) t parents r :
  findFieldIndex name t parents = Val r ->
  (r = []
   \/ exists q ft, r = parents ++ q /\ q <> []
                   /\ pathType true (pointee t) q = Some ft)
  /\ (forall n fs i rest,
         t = TStruct n fs -> parents = [] -> r = i :: rest -> rest <> [] ->
         exists f, nth_error fs i = Some f /\ subArg f = true).
Proof.
  intros H. split.
  - apply (findFieldIndex_path _ _ _ H).
  - intros n fs i rest -> -> -> Hrest.
    apply (findFieldIndex_through _ _ _ H Hrest).
Qed.

(** X16.  In a record that fits its struct type, the resolution of a name
    cannot panic once [findFieldIndex] has returned: when the name is not
    found, [newFlagField] returns the error and the record as it was;
    when it is found, [newFlagField] returns the field at the index path,
    the record still fits its type, and the field holds contents that fit
    its own type. *)
Theorem resolution_on_fitting_record (name : string) n fs d q :
  wt (TStruct n fs) d = true ->
  findFieldIndex name (TStruct n fs) [] = Val q ->
  match q with
  | [] =>
      newFlagField name (Some (TStruct n fs, d))
      = Val (Some (TStruct n fs, d),
             inr (errorString ("field " ++ name ++ " not found in "
                               ++ reflect.TypeString (TStruct n fs))))
  | _ :: _ =>
      exists d' ft x,
        newFlagField name (Some (TStruct n fs, d))
        = Val (Some (TStruct n fs, d'), inl (mkFlagField ft q))
        /\ wt (TStruct n fs) d' = true
        /\ FieldByIndex (TStruct n fs) d' q = Val (ft, x)
        /\ wt ft x = true
  end.
Proof.
  intros Hwt Hfind. destruct q as [ | i rest].
  - apply newFlagField_not_found. exact Hfind.
  - destruct (@newFlagField_resolved name n fs d (i :: rest) Hwt Hfind
                ltac:(discriminate))
      as (d' & ft & x & Hnew & _ & Hwt' & Hget & Hwx).
    exists d', ft, x. auto.
Qed.

(* ===================================================================== *)
(** ** What [setValue] does by the type of the field *)

Section ByType.

Variable ParseFloat : string -> Z -> float64 * option error.
Variable UnmarshalText :
  string -> option (string -> option data -> go (data * option error)).

Local Notation setValue := (setValue ParseFloat UnmarshalText).
Local Notation stringToType := (stringToType ParseFloat).
Local Notation asTextUnmarshaler := (asTextUnmarshaler UnmarshalText).
Local Notation Implements := (Implements UnmarshalText).
Local Notation ApplyTo := (ApplyTo ParseFloat UnmarshalText).

(** The pointer to a defined type that is neither a pointer nor an
    interface has the [UnmarshalText] of that type. *)
Lemma Implements_defined t nm :
  reflect.typeName t = Some nm ->
  reflect.kind t <> reflect.Pointer ->
  reflect.kind t <> reflect.Interface ->
  Implements (TPtr None t) = UnmarshalText nm.
Proof.
  intros Hn Hp Hi. unfold argflags.Implements. rewrite Hn.
  destruct (reflect.kind t); try reflexivity; congruence.
Qed.

(** X17.  A field whose type is a defined type with an [UnmarshalText]
    is set by that method alone, called on the address of the field with
    the value as it stands: the value is neither parsed nor cut at the
    commas, whatever the kind of the type.  A field that is a pointer to
    such a type, not nil, is set by the method called on the pointer. *)
Theorem text_unmarshaler_comes_first (value : string) t nm m fld :
  reflect.typeName t = Some nm ->
  reflect.kind t <> reflect.Pointer ->
  reflect.kind t <> reflect.Interface ->
  UnmarshalText nm = Some m ->
  setValue value t fld = m value (Some fld)
  /\ forall d,
      setValue value (TPtr None t) (DPtr (Some d))
      = (' (d', err) <- m value (Some d) ;; Val (DPtr (Some d'), err)).
Proof.
  intros Hn Hp Hi Hm.
  pose proof (Implements_defined t nm Hn Hp Hi) as HI. rewrite Hm in HI.
  assert (K : reflect.Kind_eqb (reflect.kind t) reflect.Ptr = false).
  { apply Kind_eqb_neq. exact Hp. }
  split.
  - assert (A : asTextUnmarshaler t fld = Some (fun text => m text (Some fld))).
    { unfold argflags.asTextUnmarshaler. rewrite K. cbn [negb]. rewrite HI.
      reflexivity. }
    destruct t; cbn [argflags.setValue]; rewrite A; reflexivity.
  - intros d. cbn [argflags.setValue]. unfold argflags.asTextUnmarshaler.
    cbn [reflect.kind]. change (reflect.Kind_eqb reflect.Pointer reflect.Ptr) with true.
    cbn [negb]. rewrite HI. reflexivity.
Qed.

(** The loop of [setFieldSlice] keeps the length of the new slice. *)
Lemma rangeSet_length (set : string -> data -> go (data * option error)) :
  forall ss inst inst' err,
    rangeSet set ss inst = Val (inst', err) -> length inst' = length inst.
Proof.
  induction ss as [ | s ss IH]; intros inst inst' err; cbn [rangeSet].
  - intros H. inversion H. reflexivity.
  - destruct inst as [ | d inst0]; [discriminate | ].
    destruct (set s d) as [[d' [e | ]] | msg]; cbn [bind]; [ | | discriminate].
    + intros H. inversion H. reflexivity.
    + destruct (rangeSet set ss inst0) as [[inst1 e1] | msg] eqn:R; cbn [bind];
        [ | discriminate].
      intros H. inversion H; subst. cbn [length]. rewrite (IH _ _ _ R).
      reflexivity.
Qed.

(** X18.  A field of slice type without an [UnmarshalText] of its own is
    replaced, not added to: when the value is accepted, the field holds a
    new slice with one element for each piece of the value cut at the
    commas, and that slice does not depend on what the field held. *)
Theorem slice_is_replaced (value : string) n elem fld x :
  Implements (TPtr None (TSlice n elem)) = None ->
  setValue value (TSlice n elem) fld = Val (x, None) ->
  (exists l, x = DSlice l
             /\ length l = length (strings.Split value sliceDelimiter))
  /\ forall fld', setValue value (TSlice n elem) fld' = Val (x, None).
Proof.
  intros HI. rewrite (setValue_slice ParseFloat UnmarshalText value n elem fld HI).
  unfold setFieldSlice.
  destruct (rangeSet _ _ _) as [[inst [e | ]] | msg] eqn:R; cbn [bind];
    try discriminate.
  intros H. inversion H; subst x; clear H. split.
  - exists inst. split; [reflexivity | ].
    rewrite (rangeSet_length _ _ _ _ _ R). apply repeat_length.
  - intros fld'.
    rewrite (setValue_slice ParseFloat UnmarshalText value n elem fld' HI).
    unfold setFieldSlice. rewrite R. reflexivity.
Qed.

(** X19.  A field whose type is a defined type of kind string, bool, int
    or float64 (as in [type Level int]) without an [UnmarshalText] cannot
    be set: the value is parsed to the predeclared type of that kind,
    which [Set] refuses to store in a variable of the defined type.  So
    [setValue] panics whenever the value parses, and for every value when
    the kind is string; a value that does not parse gives the error of
    the parser and leaves the field as it was. *)
Theorem defined_type_field_panics (value : string) nm k fld :
  nm <> EmptyString ->
  UnmarshalText nm = None ->
  In k [reflect.String; reflect.Bool; reflect.Int; reflect.Float64] ->
  match snd (stringToType value (TBasic (Some nm) k)) with
  | None =>
      setValue value (TBasic (Some nm) k) fld
      = Panic "reflect.Set: value is not assignable to the type of the variable"
  | Some e => setValue value (TBasic (Some nm) k) fld = Val (fld, Some e)
  end
  /\ (forall d, setValue value (TBasic (Some nm) k) fld <> Val (d, None))
  /\ (k = reflect.String ->
      setValue value (TBasic (Some nm) k) fld
      = Panic "reflect.Set: value is not assignable to the type of the variable").
Proof.
  intros Hnm HU Hk.
  assert (A : asTextUnmarshaler (TBasic (Some nm) k) fld = None).
  { unfold argflags.asTextUnmarshaler.
    cbn [In] in Hk.
    destruct Hk as [<- | [<- | [<- | [<- | []]]]];
      cbn [reflect.kind reflect.Kind_eqb reflect.code Nat.eqb negb reflect.Ptr];
      unfold argflags.Implements; cbn [reflect.typeName reflect.kind];
      rewrite HU; reflexivity. }
  assert (N : forall k', reflect.directlyAssignable (TBasic (Some nm) k) (TBasic None k')
                         = false).
  { intros k'. unfold reflect.directlyAssignable.
    cbn [reflect.rtype_eqb reflect.optString_eqb andb orb].
    assert (H1 : reflect.HasName (TBasic (Some nm) k) = true).
    { unfold reflect.HasName, reflect.TypeName. cbn [reflect.typeName].
      apply negb_true_iff. apply String.eqb_neq. exact Hnm. }
    assert (H2 : In k' [reflect.String; reflect.Bool; reflect.Int; reflect.Float64] ->
                 reflect.HasName (TBasic None k') = true).
    { cbn [In]. intros [<- | [<- | [<- | [<- | []]]]]; reflexivity. }
    rewrite H1. cbn [andb].
    destruct (reflect.Kind_eqb (reflect.kind (TBasic (Some nm) k))
                               (reflect.kind (TBasic None k'))) eqn:E.
    - apply Kind_eqb_eq in E. cbn [reflect.kind] in E. subst k'.
      rewrite (H2 Hk). reflexivity.
    - rewrite andb_false_r. reflexivity. }
  cbn [argflags.setValue]. rewrite A. unfold argflags.stringToType.
  cbn [In] in Hk.
  destruct Hk as [<- | [<- | [<- | [<- | []]]]]; cbn [reflect.kind].
  - cbn [snd reflect.ValueOf reflect.Set_]. rewrite N. cbn [bind].
    repeat split; try reflexivity. intros d. discriminate.
  - destruct (strconv.ParseBool value) as [b [e | ]];
      cbn [snd reflect.ValueOf reflect.Set_]; try rewrite N; cbn [bind];
      repeat split; try reflexivity; try (intros d; discriminate);
      intros; discriminate.
  - destruct (strconv.Atoi value) as [z [e | ]];
      cbn [snd reflect.ValueOf reflect.Set_]; try rewrite N; cbn [bind];
      repeat split; try reflexivity; try (intros d; discriminate);
      intros; discriminate.
  - destruct (ParseFloat value 64) as [z [e | ]];
      cbn [snd reflect.ValueOf reflect.Set_]; try rewrite N; cbn [bind];
      repeat split; try reflexivity; try (intros d; discriminate);
      intros; discriminate.
Qed.

(** X20.  A field of a kind that [stringToType] has no case for, and
    without an [UnmarshalText], is refused with an error that names its
    type, and keeps what it held: the unsigned integers, the complex
    numbers, maps, structs, interfaces and the like.  The name is empty
    for a type literal. *)
Theorem unsupported_kind_is_refused (value : string) t fld :
  asTextUnmarshaler t fld = None ->
  ~ In (reflect.kind t)
       [reflect.String; reflect.Bool; reflect.Int; reflect.Int64;
        reflect.Int32; reflect.Int16; reflect.Int8; reflect.Float64;
        reflect.Float32; reflect.Pointer; reflect.Slice] ->
  setValue value t fld
  = Val (fld, Some (errorString (reflect.TypeName t
                                 ++ " is an unsupported field type"))).
Proof.
  intros A Hk.
  destruct t as [n k | n elem | n elem | n fs | n]; cbn [argflags.setValue];
    rewrite A.
  - unfold argflags.stringToType. cbn [reflect.kind] in Hk |- *.
    destruct k; try reflexivity; exfalso; apply Hk; cbn [In]; tauto.
  - exfalso. apply Hk. cbn [In reflect.kind]. tauto.
  - exfalso. apply Hk. cbn [In reflect.kind]. tauto.
  - reflexivity.
  - reflexivity.
Qed.

(** X21.  [ApplyTo] goes through the arguments only for a pointer whose
    element is of kind struct.  Every other argument that is not nil (a
    struct passed by value, a pointer to a pointer, a slice, a number) is
    refused before any argument is read: the call returns the error, no
    unused list, and changes nothing. *)
Theorem only_struct_pointers_are_accepted (args : ArgFlags) str t :
  reflect.TypeOf str = Some t ->
  (isStructPointer t = false ->
   ApplyTo args str
   = Val (str, [],
          Some (errorString "flags can only be applied to a struct pointer")))
  /\ (forall v, getStructValue str = Val (inl v) ->
                exists n elem p,
                  str = Some (TPtr n elem, DPtr p)
                  /\ reflect.kind elem = reflect.Struct
                  /\ v = match p with
                         | Some d => Some (elem, d)
                         | None => None
                         end).
Proof.
  intros Ht. split.
  - intros Hp. apply (ApplyTo_refuses ParseFloat UnmarshalText args str Ht Hp).
  - intros v Hv. apply (getStructValue_accepts _ Hv).
Qed.

End ByType.

(* ===================================================================== *)
(** ** What can be given as a value *)

(** The twelve literals of [ParseBool]. *)
Lemma ParseBool_literals s :
  snd (strconv.ParseBool s)
  = if existsb (String.eqb s)
               ["1"; "t"; "T"; "TRUE"; "true"; "True";
                "0"; "f"; "F"; "FALSE"; "false"; "False"]
    then None
    else Some (strconv.syntaxError "ParseBool" s).
Proof.
  unfold strconv.ParseBool. cbn [existsb].
  repeat (match goal with
          | |- context [String.eqb s ?l] => destruct (String.eqb s l)
          end; cbn [orb snd]; try reflexivity).
Qed.

(** X22.  What a bool flag takes as its value: the next argument when it
    is one of the twelve literals that [ParseBool] reads, which are 1, t,
    T, TRUE, true, True, 0, f, F, FALSE, false and False; every other
    argument is left where it is and the value is "true". *)
Theorem bool_flag_literals (next : string) (rest : list string) (t : rtype) :
  reflect.kind t = reflect.Bool ->
  findFlagValue (next :: rest) t
  = if existsb (String.eqb next)
               ["1"; "t"; "T"; "TRUE"; "true"; "True";
                "0"; "f"; "F"; "FALSE"; "false"; "False"]
    then (next, rest, None)
    else ("true", next :: rest, None).
Proof.
  intros K. unfold findFlagValue. rewrite K.
  change (reflect.Kind_eqb reflect.Bool reflect.Bool) with true. cbn [andb tl].
  destruct (strings.HasPrefix next "-") eqn:P; cbn [negb].
  - cbn [String.eqb orb strconv.FormatBool].
    destruct (existsb _ _) eqn:E; [ | reflexivity].
    apply existsb_exists in E. destruct E as (x & Hin & Heq).
    apply String.eqb_eq in Heq. subst x. cbn [In] in Hin.
    repeat (destruct Hin as [<- | Hin]; [discriminate P | ]). contradiction.
  - rewrite ParseBool_literals.
    destruct (String.eqb next EmptyString) eqn:E0.
    + apply String.eqb_eq in E0. subst next. reflexivity.
    + cbn [orb]. destruct (existsb _ _); reflexivity.
Qed.

(** The digits that [ParseUint] reads make a number that is not
    negative. *)
Lemma digitVal_nonneg c d : strconv.digitVal c = Some d -> (0 <= d)%Z.
Proof.
  unfold strconv.digitVal.
  destruct ((48 <=? strconv.byte c) && (strconv.byte c <=? 57))%N%bool eqn:D.
  - apply andb_true_iff in D. destruct D as [D _]. apply N.leb_le in D.
    intros H. inversion H. lia.
  - destruct ((97 <=? strconv.lower c) && (strconv.lower c <=? 122))%N%bool eqn:L;
      [ | discriminate].
    apply andb_true_iff in L. destruct L as [L _]. apply N.leb_le in L.
    intros H. inversion H. lia.
Qed.

Lemma parseDigits_nonneg s0 base maxVal base0 : forall s n underscores r e,
  (0 <= base)%Z -> (0 <= maxVal)%Z -> (0 <= n)%Z ->
  strconv.parseDigits s0 base maxVal base0 s n underscores = (r, e) ->
  (0 <= r)%Z.
Proof.
  induction s as [ | c s IH]; intros n underscores r e Hb Hm Hn;
    cbn [strconv.parseDigits].
  - destruct (underscores && negb (strconv.underscoreOK s0))%bool;
      intros H; inversion H; subst; lia.
  - destruct (Ascii.eqb c "_" && base0)%bool; [apply (IH _ _ _ _ Hb Hm Hn) | ].
    destruct (strconv.digitVal c) as [d | ] eqn:D;
      [ | intros H; inversion H; subst; lia].
    destruct (base <=? d)%Z; [intros H; inversion H; subst; lia | ].
    destruct (maxVal <? n * base + d)%Z; [intros H; inversion H; subst; lia | ].
    apply IH; [exact Hb | exact Hm | ].
    pose proof (digitVal_nonneg _ _ D). nia.
Qed.

Lemma ParseUint_nonneg s r e :
  strconv.ParseUint s 10 0 = (r, e) -> (0 <= r)%Z.
Proof.
  unfold strconv.ParseUint.
  destruct (String.eqb s EmptyString); [intros H; inversion H; lia | ].
  cbn -[strconv.parseDigits Z.pow].
  apply parseDigits_nonneg; unfold strconv.IntSize; lia.
Qed.

(** [Atoi] reads a number that is not negative in a string that does not
    start with a dash. *)
Lemma Atoi_nonneg s z :
  strings.HasPrefix s "-" = false ->
  strconv.Atoi s = (z, None) -> (0 <= z)%Z.
Proof.
  intros P. unfold strconv.Atoi.
  destruct (strconv.ParseInt s 10 0) as [i e] eqn:E.
  assert (G : e = None -> (0 <= i)%Z).
  { intros ->. revert E. unfold strconv.ParseInt.
    destruct (String.eqb s EmptyString); [discriminate | ].
    destruct s as [ | c s'].
    - cbn -[Z.pow]. discriminate.
    - unfold strings.HasPrefix in P. rewrite andb_true_r in P. rewrite P.
      destruct (Ascii.eqb c "+");
        match goal with
        | |- context [strconv.ParseUint ?x 10 0] =>
            destruct (strconv.ParseUint x 10 0) as [un e0] eqn:U;
            pose proof (ParseUint_nonneg _ _ _ U) as Hun
        end;
        destruct e0 as [[m | f nu er] | ]; cbn -[Z.pow Z.leb Z.ltb];
        try discriminate;
        try (destruct (String.eqb er strconv.ErrRange); [ | discriminate]);
        cbn -[Z.pow Z.leb Z.ltb];
        destruct (_ <=? un)%Z; try discriminate;
        intros HH; inversion HH; subst; exact Hun. }
  destruct e as [[m | f nu er] | ]; try discriminate.
  intros H. inversion H. subst. apply G. reflexivity.
Qed.

Section Values.

Variable ParseFloat : string -> Z -> float64 * option error.
Variable UnmarshalText :
  string -> option (string -> option data -> go (data * option error)).

Local Notation setValue := (setValue ParseFloat UnmarshalText).

(** X23.  A field of type int never takes a negative number from the
    arguments: the value of a flag is an argument that does not start
    with a dash, and [Atoi] reads no negative number in such a string.  A
    number written with a minus sign after the flag is taken for a flag,
    and the call ends with "no value found". *)
Theorem int_field_is_never_negative (vals : list string) (value : string)
        (remain : list string) fld x :
  findFlagValue vals (TBasic None reflect.Int) = (value, remain, None) ->
  setValue value (TBasic None reflect.Int) fld = Val (x, None) ->
  (exists z, x = DInt z /\ (0 <= z)%Z /\ strconv.Atoi value = (z, None))
  /\ forall number rest,
      findFlagValue (String "-" number :: rest) (TBasic None reflect.Int)
      = (EmptyString, [], Some (errorString "no value found")).
Proof.
  intros Hval Hset. split.
  - assert (P : strings.HasPrefix value "-" = false).
    { revert Hval. unfold findFlagValue. cbn [reflect.kind].
      change (reflect.Kind_eqb reflect.Int reflect.Bool) with false. cbn [andb].
      destruct vals as [ | a rest]; [cbn [String.eqb]; discriminate | ].
      destruct (strings.HasPrefix a "-") eqn:Pa; cbn [negb];
        [cbn [String.eqb]; discriminate | ].
      destruct (String.eqb a EmptyString); [discriminate | ].
      intros H. inversion H; subst. exact Pa. }
    revert Hset. cbn [argflags.setValue].
    rewrite (asTextUnmarshaler_basic UnmarshalText).
    unfold argflags.stringToType. cbn [reflect.kind].
    destruct (strconv.Atoi value) as [z [e | ]] eqn:A; [discriminate | ].
    cbn. intros H. inversion H; subst.
    exists z. split; [reflexivity | ]. split; [ | reflexivity].
    apply (Atoi_nonneg value z P A).
  - intros number rest. reflexivity.
Qed.

End Values.



(* ===================================================================== *)
(** ** Flags that come back as unused *)

(** A name for which [newFlagField] returns an error is a name that
    [findFieldIndex] does not find. *)
Lemma newFlagField_inr_nil name t d v' e :
  newFlagField name (Some (t, d)) = Val (v', inr e) ->
  findFieldIndex name t [] = Val [].
Proof.
  unfold newFlagField, findField.
  destruct (findFieldIndex name t []) as [index | ]; [ | discriminate].
  cbn [bind]. destruct index as [ | i rest]; [reflexivity | ].
  cbn [length Nat.eqb].
  destruct (ensureNotNil t d (i :: rest)) as [d' | ]; [ | discriminate].
  cbn [bind]. destruct (FieldByIndex t d' (i :: rest)) as [[ft fd] | ]; discriminate.
Qed.

Section Returned.

Variable ParseFloat : string -> Z -> float64 * option error.
Variable UnmarshalText :
  string -> option (string -> option data -> go (data * option error)).

Local Notation loopBody := (loopBody ParseFloat UnmarshalText).
Local Notation run := (run ParseFloat UnmarshalText).
Local Notation SetValue := (SetValue ParseFloat UnmarshalText).
Local Notation ApplyTo := (ApplyTo ParseFloat UnmarshalText).

(** A turn adds to the unused list nothing, or the argument at the
    cursor when it is not a flag or names no field. *)
Lemma loopBody_added args i arg t d u i' v' u' :
  loopBody args i arg (Some (t, d)) u = Val (Continue i' v' u') ->
  u' = u
  \/ (u' = u ++ [arg]
      /\ (strings.HasPrefix arg "-" = true ->
          findFieldIndex (strings.TrimLeft arg "-") t [] = Val [])).
Proof.
  unfold argflags.loopBody.
  destruct (strings.HasPrefix arg "-") eqn:P; cbn [negb].
  - destruct (newFlagField _ _) as [[v1 [fld | e]] | msg] eqn:N; cbn [bind];
      [ | | discriminate].
    + destruct (findFlagValue _ _) as [[argValue remain] [err | ]]; [discriminate | ].
      destruct (SetValue fld argValue v1) as [[v2 [err | ]] | msg]; cbn [bind];
        try discriminate.
      intros H. inversion H; subst. left. reflexivity.
    + intros H. inversion H; subst. right. split; [reflexivity | ].
      intros _. apply (newFlagField_inr_nil _ _ _ _ _ N).
  - intros H. inversion H; subst. right. split; [reflexivity | ].
    intros C. discriminate C.
Qed.

Lemma run_added args t : forall k i d u v' u',
  length args - i <= k ->
  Forall (fun arg => strings.HasPrefix arg "-" = true ->
                     findFieldIndex (strings.TrimLeft arg "-") t [] = Val []) u ->
  run args i (Some (t, d)) u = Val (v', u', None) ->
  Forall (fun arg => strings.HasPrefix arg "-" = true ->
                     findFieldIndex (strings.TrimLeft arg "-") t [] = Val []) u'.
Proof.
  induction k as [ | k IH]; intros i d u v' u' Hk Hu; rewrite run_unfold.
  - destruct (nth_error args i) eqn:E.
    + apply nth_error_lt in E. lia.
    + intros H. inversion H; subst. exact Hu.
  - destruct (nth_error args i) as [arg | ] eqn:E.
    + destruct (loopBody args i arg (Some (t, d)) u) as [r | ] eqn:B; cbn [bind];
        [ | discriminate].
      destruct (loopBody_record ParseFloat UnmarshalText _ _ _ _ _ _ _ B) as (d1 & Hd1).
      pose proof (loopBody_turn ParseFloat UnmarshalText _ _ _ _ _ _ E B) as T.
      destruct r as [i1 v1 u1 | v1 u1 e1]; subst v1.
      * apply IH.
        -- destruct T as [(-> & _) | (_ & _ & H1 & H2)]; lia.
        -- destruct (loopBody_added _ _ _ _ _ _ _ _ _ B) as [-> | [-> Hadd]];
             [exact Hu | ].
           apply Forall_app. split; [exact Hu | ].
           constructor; [exact Hadd | constructor].
      * destruct T as (_ & _ & He). intros H. inversion H; subst. congruence.
    + intros H. inversion H; subst. exact Hu.
Qed.

(** X24.  A flag that [ApplyTo] returns in the unused list is a flag
    whose name [findFieldIndex] finds in no field of the struct: a flag
    that names a field is never returned as unused. *)
Theorem unused_flags_name_no_field (args : ArgFlags) n elem d str' unused :
  reflect.kind elem = reflect.Struct ->
  ApplyTo args (Some (TPtr n elem, DPtr (Some d))) = Val (str', unused, None) ->
  Forall (fun arg => strings.HasPrefix arg "-" = true ->
                     findFieldIndex (strings.TrimLeft arg "-") elem [] = Val [])
         unused.
Proof.
  intros K.
  rewrite (ApplyTo_run ParseFloat UnmarshalText args _
             (getStructValue_pointer n elem (Some d) K)).
  destruct (run args 0 (Some (elem, d)) []) as [[[v1 u1] e1] | msg] eqn:R;
    cbn [bind]; [ | discriminate].
  intros H. inversion H; subst.
  apply (run_added args elem (length args) 0 d [] v1 unused ltac:(lia)
           (Forall_nil _) R).
Qed.

End Returned.

(* ===================================================================== *)
(** ** Records of plain fields *)

Lemma scanFields_unmarked name fs :
  (forall f, In f fs -> subArg f = false) ->
  forall i subs,
    scanFields name fs i subs = Val (inr subs)
    \/ exists j, scanFields name fs i subs = Val (inl j).
Proof.
  induction fs as [ | f fs IH]; intros H i subs; cbn [scanFields].
  - left. reflexivity.
  - assert (Hrest : forall f', In f' fs -> subArg f' = false).
    { intros f' Hf'. apply H. right. exact Hf'. }
    pose proof (H f (or_introl eq_refl)) as Hf. unfold subArg in Hf.
    destruct (reflect.IsExported f); cbn [negb andb] in Hf |- *;
      [ | apply (IH Hrest)].
    destruct (strings.EqualFold name (reflect.Name f)); [right; eauto | ].
    destruct (isNameInTag name _); [right; eauto | ].
    rewrite Hf. apply (IH Hrest).
Qed.

(** Without sub arguments a name is not found or is found at one
    position of the struct. *)
Lemma findFieldIndex_unmarked name n fs :
  (forall f, In f fs -> subArg f = false) ->
  findFieldIndex name (TStruct n fs) [] = Val []
  \/ exists i f, findFieldIndex name (TStruct n fs) [] = Val [i]
                 /\ nth_error fs i = Some f.
Proof.
  intros H. cbn [findFieldIndex].
  destruct (scanFields_unmarked name fs H 0 []) as [E | (j & E)]; rewrite E;
    cbn [bind app].
  - left. apply rangeSubArgs_none. intros j g _ C. discriminate C.
  - right. destruct (scanFields_inl _ _ _ _ E) as (_ & f & Hf).
    rewrite Nat.sub_0_r in Hf. exists j, f. auto.
Qed.

(** The loop of [setFieldSlice] does not panic when the setting of an
    element does not. *)
Lemma rangeSet_total (set : string -> data -> go (data * option error)) :
  (forall s d, exists x e, set s d = Val (x, e)) ->
  forall ss inst,
    length inst = length ss ->
    exists inst' e, rangeSet set ss inst = Val (inst', e).
Proof.
  intros Hset. induction ss as [ | s ss IH]; intros inst Hlen; cbn [rangeSet].
  - eauto.
  - destruct inst as [ | d inst0]; [discriminate Hlen | ].
    destruct (Hset s d) as (x & e & ->). cbn [bind].
    destruct e as [e | ]; [eauto | ].
    destruct (IH inst0 ltac:(cbn in Hlen; lia)) as (inst1 & e1 & ->).
    cbn [bind]. eauto.
Qed.

Section Plain.

Variable ParseFloat : string -> Z -> float64 * option error.
Variable UnmarshalText :
  string -> option (string -> option data -> go (data * option error)).

Local Notation loopBody := (loopBody ParseFloat UnmarshalText).
Local Notation run := (run ParseFloat UnmarshalText).
Local Notation SetValue := (SetValue ParseFloat UnmarshalText).
Local Notation setValue := (setValue ParseFloat UnmarshalText).
Local Notation stringToType := (stringToType ParseFloat).
Local Notation ApplyTo := (ApplyTo ParseFloat UnmarshalText).

(** [setValue] does not panic on a field of a predeclared type other
    than float32. *)
Lemma setValue_predeclared value k fld :
  k <> reflect.Float32 ->
  exists x e, setValue value (TBasic None k) fld = Val (x, e).
Proof.
  intros Hk. cbn [argflags.setValue].
  rewrite (asTextUnmarshaler_basic UnmarshalText).
  unfold argflags.stringToType. cbn [reflect.kind].
  destruct k; try congruence;
    try (cbn; eauto; fail);
    try (destruct (strconv.ParseBool value) as [b [e | ]]; cbn; eauto; fail);
    try (destruct (strconv.Atoi value) as [z [e | ]]; cbn; eauto; fail);
    try (destruct (ParseInt_base64 value) as (Err & -> & _); cbn; eauto; fail);
    try (destruct (ParseFloat value 64) as [z [e | ]]; cbn; eauto; fail).
Qed.

Lemma setValue_plain value t fld :
  plain t = true -> exists x e, setValue value t fld = Val (x, e).
Proof.
  destruct t as [[nm | ] k | | [nm | ] elem | | ]; try discriminate.
  - cbn [plain]. intros H. apply setValue_predeclared.
    intros ->. discriminate H.
  - destruct elem as [[nm | ] k | | | | ]; try discriminate.
    cbn [plain]. intros H.
    rewrite (setValue_slice ParseFloat UnmarshalText value None (TBasic None k) fld eq_refl).
    unfold setFieldSlice.
    destruct (rangeSet_total (fun s d => setValue s (TBasic None k) d)
                (fun s d => setValue_predeclared s k d
                              ltac:(intros ->; discriminate H))
                (strings.Split value sliceDelimiter)
                (repeat (reflect.Zero (TBasic None k))
                        (length (strings.Split value sliceDelimiter)))
                (repeat_length _ _))
      as (inst & e & ->).
    cbn [bind]. destruct e; eauto.
Qed.

(** One turn of the loop on a record of plain fields. *)
Lemma loopBody_plain args i arg n fs ds u :
  (forall f, In f fs -> plain (reflect.Type_ f) = true /\ subArg f = false) ->
  length ds = length fs ->
  exists r ds',
    loopBody args i arg (Some (TStruct n fs, DStruct ds)) u = Val r
    /\ length ds' = length fs
    /\ match r with
       | Continue _ v' _ => v' = Some (TStruct n fs, DStruct ds')
       | Return v' _ _ => v' = Some (TStruct n fs, DStruct ds')
       end.
Proof.
  intros Hfs Hlen. unfold argflags.loopBody.
  destruct (negb (strings.HasPrefix arg "-")).
  { eexists _, ds. split; [reflexivity | ]. split; [exact Hlen | reflexivity]. }
  destruct (findFieldIndex_unmarked (strings.TrimLeft arg "-") n fs
              (fun f Hf => proj2 (Hfs f Hf)))
    as [E | (k & f & E & Hf)].
  - rewrite (newFlagField_not_found _ _ _ E). cbn [bind].
    eexists _, ds. split; [reflexivity | ]. split; [exact Hlen | reflexivity].
  - destruct (Hfs f (nth_error_In _ _ Hf)) as [Hplain _].
    assert (Hk : k < length ds).
    { rewrite Hlen. apply (nth_error_lt _ _ Hf). }
    destruct (nth_error ds k) as [x | ] eqn:Hx;
      [ | apply nth_error_None in Hx; lia].
    assert (HF : reflect.Field (TStruct n fs) (DStruct ds) k
                 = Val (reflect.Type_ f, x)).
    { unfold reflect.Field. rewrite Hf, Hx. reflexivity. }
    assert (Hnew : newFlagField (strings.TrimLeft arg "-")
                                (Some (TStruct n fs, DStruct ds))
                   = Val (Some (TStruct n fs, DStruct ds),
                          inl (mkFlagField (reflect.Type_ f) [k]))).
    { unfold newFlagField, findField. rewrite E. cbn [bind length Nat.eqb].
      cbn [ensureNotNil]. rewrite HF. cbn [bind].
      destruct (reflect.Type_ f) as [ | pn elem | | | ] eqn:Tf;
        [ | discriminate Hplain | | | ];
        cbn [ensureNotNil bind]; rewrite (SetField_same _ _ _ _ _ HF); cbn [bind];
        unfold FieldByIndex; cbn [FieldByIndexFrom bind]; rewrite HF; reflexivity. }
    rewrite Hnew. cbn [bind].
    destruct (findFlagValue _ _) as [[argValue remain] [err | ]].
    + eexists _, ds. split; [reflexivity | ]. split; [exact Hlen | reflexivity].
    + unfold argflags.SetValue, updateByIndex. cbn [fldIndex updateByIndexFrom negb andb].
      rewrite HF. cbn [bind updateByIndexFrom].
      destruct (setValue_plain argValue (reflect.Type_ f) x Hplain) as (y & e & ->).
      cbn [bind]. unfold reflect.SetField.
      apply Nat.ltb_lt in Hk. rewrite Hk. cbn [bind].
      exists (match e with
              | Some e0 =>
                  Return (Some (TStruct n fs, DStruct (reflect.replaceNth ds k y))) []
                         (Some (errorString ("'" ++ arg ++ "'  " ++ Error e0)))
              | None =>
                  Continue (i + (length (skipn (i + 1) args) - length remain))
                           (Some (TStruct n fs, DStruct (reflect.replaceNth ds k y))) u
              end), (reflect.replaceNth ds k y).
      split; [destruct e; reflexivity | ].
      split; [rewrite length_replaceNth; exact Hlen | destruct e; reflexivity].
Qed.

Lemma run_plain args n fs :
  (forall f, In f fs -> plain (reflect.Type_ f) = true /\ subArg f = false) ->
  forall k i ds u,
    length args - i <= k ->
    length ds = length fs ->
    exists r, run args i (Some (TStruct n fs, DStruct ds)) u = Val r.
Proof.
  intros Hfs. induction k as [ | k IH]; intros i ds u Hk Hlen; rewrite run_unfold.
  - destruct (nth_error args i) eqn:E; [ | eauto].
    apply nth_error_lt in E. lia.
  - destruct (nth_error args i) as [arg | ] eqn:E; [ | eauto].
    destruct (loopBody_plain args i arg n fs ds u Hfs Hlen)
      as (r & ds' & B & Hlen' & Hr).
    rewrite B. cbn [bind].
    pose proof (loopBody_turn ParseFloat UnmarshalText _ _ _ _ _ _ E B) as T.
    destruct r as [i1 v1 u1 | v1 u1 e1]; subst v1; [ | eauto].
    apply IH; [ | exact Hlen'].
    destruct T as [(-> & _) | (_ & _ & H1 & H2)]; lia.
Qed.

(** X25.  [ApplyTo] does not panic on a struct whose fields are all of
    plain types (a predeclared type other than float32, or a slice of
    one) and of which none is marked as a sub argument: whatever the
    arguments, the parser of floats and the methods of the program, the
    call returns. *)
Theorem plain_record_never_panics (args : ArgFlags) pn n fs ds :
  (forall f, In f fs -> plain (reflect.Type_ f) = true /\ subArg f = false) ->
  length ds = length fs ->
  exists str' unused err,
    ApplyTo args (Some (TPtr pn (TStruct n fs), DPtr (Some (DStruct ds))))
    = Val (str', unused, err).
Proof.
  intros Hfs Hlen.
  rewrite (ApplyTo_run ParseFloat UnmarshalText args _
             (getStructValue_pointer pn (TStruct n fs) (Some (DStruct ds)) eq_refl)).
  destruct (run_plain args n fs Hfs (length args) 0 ds [] ltac:(lia) Hlen)
    as ([[v1 u1] e1] & ->).
  cbn [bind]. eauto.
Qed.

End Plain.

(* ===================================================================== *)
(** ** The further properties at work *)

Section MoreExamples.

Local Notation run := (run Demo.ParseFloat Demo.UnmarshalText).
Local Notation ApplyTo := (ApplyTo Demo.ParseFloat Demo.UnmarshalText).
Local Notation setValue := (setValue Demo.ParseFloat Demo.UnmarshalText).

(** X2 at work. *)
Lemma String_read_back_witness :
  String_ ["-count"; "12"; "pos"] = "-count 12 pos"
  /\ strings.Split (String_ ["-count"; "12"; "pos"]) " "%char
     = ["-count"; "12"; "pos"].
Proof.
  split; [reflexivity | ].
  destruct (String_read_back ["-count"; "12"; "pos"]) as [H _].
  - discriminate.
  - repeat constructor.
  - exact H.
Defined.

(** X3 at work: a number after a flag of an int field is its value; an
    empty argument is no value. *)
Lemma findFlagValue_window_witness :
  ((reflect.kind (TBasic None reflect.Int) = reflect.Bool
    /\ "12" = "true" /\ ["-v"] = ["12"; "-v"])
   \/ ("12" <> EmptyString
       /\ strings.HasPrefix "12" "-" = false
       /\ ["12"; "-v"] = ["12"; "-v"]))
  /\ findFlagValue [EmptyString; "x"] (TBasic None reflect.Int)
     = (EmptyString, [], Some (errorString "no value found")).
Proof.
  split.
  - exact (findFlagValue_window ["12"; "-v"] (TBasic None reflect.Int)
             "12" ["-v"] None eq_refl).
  - destruct (findFlagValue_window [EmptyString; "x"] (TBasic None reflect.Int)
                EmptyString [] (Some (errorString "no value found")) eq_refl)
      as (_ & _ & _ & _ & _).
    reflexivity.
Defined.

(** X4 at work: [Config] has no field for [-zzz]. *)
Lemma unresolved_flags_are_returned_witness :
  ApplyTo ["a"; "-zzz"; "b"] Demo.pointer = Val (Demo.pointer, ["a"; "-zzz"; "b"], None).
Proof.
  apply (unresolved_flags_are_returned Demo.ParseFloat Demo.UnmarshalText
           ["a"; "-zzz"; "b"] None Demo.Config Demo.zeroConfig eq_refl).
  intros arg [<- | [<- | [<- | []]]] H; try discriminate H.
  vm_compute. reflexivity.
Defined.

(** X5 at work: a nil pointer to [Config]. *)
Lemma nil_struct_pointer_witness :
  ApplyTo ["pos"; "-verbose"] (Some (TPtr None Demo.Config, DPtr None))
  = Panic "reflect: call of reflect.Value.Type on zero Value"
  /\ ApplyTo ["pos"] (Some (TPtr None Demo.Config, DPtr None))
     = Val (Some (TPtr None Demo.Config, DPtr None), ["pos"], None).
Proof.
  split.
  - exact (nil_struct_pointer Demo.ParseFloat Demo.UnmarshalText
             ["pos"; "-verbose"] (TPtr None Demo.Config) eq_refl).
  - exact (nil_struct_pointer Demo.ParseFloat Demo.UnmarshalText
             ["pos"] (TPtr None Demo.Config) eq_refl).
Defined.

(** X6 at work. *)
Lemma unused_in_order_witness :
  subseq ["pos"; "-zzz"; "x"] ["pos"; "-count"; "3"; "-zzz"; "x"].
Proof.
  apply (unused_in_order Demo.ParseFloat Demo.UnmarshalText
           ["pos"; "-count"; "3"; "-zzz"; "x"] Demo.pointer
           (Some (TPtr None Demo.Config,
                  DPtr (Some (DStruct (reflect.replaceNth
                                         (Demo.contentsOf Demo.zeroConfig) 2 (DInt 3))))))
           ["pos"; "-zzz"; "x"] None).
  vm_compute. reflexivity.
Defined.

(** X7 at work: the arguments cut before [-names]. *)
Lemma ApplyTo_in_two_parts_witness :
  ApplyTo (["pos"; "-count"; "3"] ++ ["-names"; "x,y"; "z"]) Demo.pointer
  = Val (Some (TPtr None Demo.Config,
               DPtr (Some (DStruct
                 [DInt 0; DBool false; DInt 3;
                  DSlice [DString "x"; DString "y"];
                  DFloat (reflect.Float64frombits 0); DInt 0; DPtr None]))),
         ["pos"; "z"], None).
Proof.
  rewrite (ApplyTo_in_two_parts Demo.ParseFloat Demo.UnmarshalText
             ["pos"; "-count"; "3"] ["-names"; "x,y"; "z"] Demo.pointer
             (Some (TPtr None Demo.Config,
                    DPtr (Some (DStruct (reflect.replaceNth
                                           (Demo.contentsOf Demo.zeroConfig) 2 (DInt 3))))))
             ["pos"] None eq_refl).
  - vm_compute. reflexivity.
  - vm_compute. reflexivity.
Defined.

(** X8 at work: [x] is not a number. *)
Lemma refused_value_aborts_witness :
  run ["-count"; "x"; "-verbose"] 0 Demo.record []
  = Val (Demo.record, [],
         Some (errorString ("'" ++ "-count" ++ "'  "
                            ++ Error (NumError "Atoi" "x" "invalid syntax")))).
Proof.
  destruct (refused_value_aborts Demo.ParseFloat Demo.UnmarshalText
              ["-count"; "x"; "-verbose"] 0 "-count" Demo.record []
              Demo.Config Demo.zeroConfig
              (mkFlagField (TBasic None reflect.Int) [2])
              "x" ["-verbose"] (DInt 0) (DInt 0)
              (NumError "Atoi" "x" "invalid syntax")
              eq_refl eq_refl eq_refl eq_refl eq_refl)
    as [_ H].
  - discriminate.
  - reflexivity.
  - reflexivity.
  - exact H.
Defined.

(** X9 at work: the field [Host] takes [true] as a string. *)
Lemma flag_takes_the_next_argument_witness :
  ApplyTo ["-host"; "true"]
          (Some (TPtr None Demo.Server, DPtr (Some (reflect.Zero Demo.Server))))
  = Val (Some (TPtr None Demo.Server,
               DPtr (Some (DStruct [DInt 0; DString "true"]))),
         [], None).
Proof.
  destruct (flag_takes_the_next_argument Demo.ParseFloat Demo.UnmarshalText
              ["-host"; "true"] 0 "-host"
              (Some (Demo.Server, reflect.Zero Demo.Server)) []
              Demo.Server (reflect.Zero Demo.Server)
              (mkFlagField (TBasic None reflect.String) [1])
              "true" (DString EmptyString) (DString "true")
              eq_refl eq_refl eq_refl)
    as [_ (d'' & Hup & _ & _ & _ & Hend)].
  - discriminate.
  - reflexivity.
  - reflexivity.
  - discriminate.
  - reflexivity.
  - reflexivity.
  - vm_compute in Hup. inversion Hup; subst d''.
    destruct (Hend eq_refl) as [_ Happly].
    apply (Happly (Some (TPtr None Demo.Server,
                         DPtr (Some (reflect.Zero Demo.Server))))
                  (Some (Demo.Server, reflect.Zero Demo.Server)));
      reflexivity.
Defined.

(** X10 at work: [-limit] without a value allocates [Limit]. *)
Lemma pointer_field_is_allocated_first_witness :
  run ["-limit"] 0 Sample.options []
  = Val (Some (Sample.Options,
               DStruct [DInt 0; DPtr (Some (DInt 0)); DString EmptyString;
                        DInt 0; DSlice []]),
         [], Some (errorString "-limit  no value found")).
Proof.
  destruct (pointer_field_is_allocated_first Demo.ParseFloat Demo.UnmarshalText
              ["-limit"] 0 "-limit" (Some "Options")
              (Demo.fieldsOf Sample.Options)
              (Demo.contentsOf (reflect.Zero Sample.Options)) [] 1
              (Demo.exported "Limit" (TPtr None (TBasic None reflect.Int))
                             [("flag", "limit")])
              None (TBasic None reflect.Int)
              eq_refl eq_refl eq_refl eq_refl eq_refl eq_refl
              (or_introl eq_refl))
    as [_ H].
  exact H.
Defined.

(** X12 at work: [host] resolved twice. *)
Lemma resolution_is_idempotent_witness :
  newFlagField "host" (Demo.withField 6 (DPtr (Some (reflect.Zero Demo.Server))))
  = Val (Demo.withField 6 (DPtr (Some (reflect.Zero Demo.Server))),
         inl (mkFlagField (TBasic None reflect.String) [6; 1])).
Proof.
  apply (resolution_is_idempotent "host" Demo.record). reflexivity.
Defined.

(** X13 at work: [Extra] is an int marked as a sub argument. *)
Lemma misplaced_sub_argument_panics_witness :
  exists msg,
    findFieldIndex "zzz" Sample.Broken [] = Panic msg
    /\ run ["-zzz"; "1"] 0 (Some (Sample.Broken, reflect.Zero Sample.Broken)) []
       = Panic msg.
Proof.
  apply (misplaced_sub_argument_panics Demo.ParseFloat Demo.UnmarshalText
           ["-zzz"; "1"] 0 "-zzz" (Some "Broken")
           [Demo.exported "Name" (TBasic None reflect.String) []]
           (Demo.exported "Extra" (TBasic None reflect.Int) [("flag", "+")])
           [] (reflect.Zero Sample.Broken) [] eq_refl eq_refl).
  - intros g [<- | []]. split; reflexivity.
  - reflexivity.
  - reflexivity.
Defined.

(** X14 at work: [Server] has no field for [zzz]. *)
Lemma unmatched_name_is_not_found_witness :
  findFieldIndex "zzz" Demo.Server [6] = Val []
  /\ newFlagField "zzz" (Some (Demo.Server, reflect.Zero Demo.Server))
     = Val (Some (Demo.Server, reflect.Zero Demo.Server),
            inr (errorString "field zzz not found in Server")).
Proof.
  destruct (unmatched_name_is_not_found "zzz" (Some "Server")
              (Demo.fieldsOf Demo.Server) [6] (reflect.Zero Demo.Server))
    as (H1 & H2 & _).
  - intros g [<- | [<- | []]]; split; reflexivity.
  - intros g p [<- | [<- | []]] H; discriminate H.
  - split; [exact H1 | exact H2].
Defined.

(** X15 at work: the path of [host] in [Config]. *)
Lemma found_index_is_a_path_witness :
  pathType true Demo.Config [6; 1] = Some (TBasic None reflect.String)
  /\ exists f, nth_error (Demo.fieldsOf Demo.Config) 6 = Some f /\ subArg f = true.
Proof.
  destruct (found_index_is_a_path "host" Demo.Config [] [6; 1] eq_refl)
    as [_ H].
  split; [reflexivity | ].
  apply (H (Some "Config") (Demo.fieldsOf Demo.Config) 6 [1]);
    try reflexivity. discriminate.
Defined.

(** X16 at work: [host] in the zero [Config]. *)
Lemma resolution_on_fitting_record_witness :
  exists d' ft x,
    newFlagField "host" (Some (Demo.Config, Demo.zeroConfig))
    = Val (Some (Demo.Config, d'), inl (mkFlagField ft [6; 1]))
    /\ wt Demo.Config d' = true
    /\ FieldByIndex Demo.Config d' [6; 1] = Val (ft, x)
    /\ wt ft x = true.
Proof.
  exact (resolution_on_fitting_record "host" (Some "Config")
           (Demo.fieldsOf Demo.Config) Demo.zeroConfig [6; 1] eq_refl eq_refl).
Defined.

(** X17 at work: [Level] is set by its [UnmarshalText], which stores the
    length of the text; the text is not read as a number. *)
Lemma text_unmarshaler_comes_first_witness :
  argflags.setValue Demo.ParseFloat Sample.methods "debug" Sample.Level (DInt 0)
  = Val (DInt 5, None).
Proof.
  destruct (text_unmarshaler_comes_first Demo.ParseFloat Sample.methods
              "debug" Sample.Level "Level" Sample.Level_UnmarshalText (DInt 0)
              eq_refl)
    as [H _].
  - discriminate.
  - discriminate.
  - reflexivity.
  - rewrite H. reflexivity.
Defined.

(** X18 at work: what [Names] held is gone. *)
Lemma slice_is_replaced_witness :
  setValue "a,b" (TSlice None (TBasic None reflect.String))
           (DSlice [DString "x"; DString "y"; DString "z"])
  = Val (DSlice [DString "a"; DString "b"], None).
Proof.
  destruct (slice_is_replaced Demo.ParseFloat Demo.UnmarshalText "a,b" None
              (TBasic None reflect.String) (DSlice [DString "old"])
              (DSlice [DString "a"; DString "b"]) eq_refl eq_refl)
    as [_ H].
  apply H.
Defined.

(** X19 at work: [Mode] is a defined string type without methods. *)
Lemma defined_type_field_panics_witness :
  argflags.setValue Demo.ParseFloat Sample.methods "fast" Sample.Mode
                    (DString EmptyString)
  = Panic "reflect.Set: value is not assignable to the type of the variable".
Proof.
  destruct (defined_type_field_panics Demo.ParseFloat Sample.methods
              "fast" "Mode" reflect.String (DString EmptyString))
    as (_ & _ & H).
  - discriminate.
  - reflexivity.
  - left. reflexivity.
  - apply H. reflexivity.
Defined.

(** X20 at work: a field of type uint. *)
Lemma unsupported_kind_is_refused_witness :
  setValue "3" (TBasic None reflect.Uint) (DInt 0)
  = Val (DInt 0, Some (errorString "uint is an unsupported field type")).
Proof.
  apply (unsupported_kind_is_refused Demo.ParseFloat Demo.UnmarshalText
           "3" (TBasic None reflect.Uint) (DInt 0) eq_refl).
  cbn [In reflect.kind]. intros H.
  repeat (destruct H as [H | H]; [discriminate H | ]). exact H.
Defined.

(** X21 at work: a [Config] passed by value. *)
Lemma only_struct_pointers_are_accepted_witness :
  ApplyTo ["-count"; "1"] (Some (Demo.Config, Demo.zeroConfig))
  = Val (Some (Demo.Config, Demo.zeroConfig), [],
         Some (errorString "flags can only be applied to a struct pointer")).
Proof.
  destruct (only_struct_pointers_are_accepted Demo.ParseFloat Demo.UnmarshalText
              ["-count"; "1"] (Some (Demo.Config, Demo.zeroConfig)) Demo.Config
              eq_refl)
    as [H _].
  apply H. reflexivity.
Defined.

(** X22 at work: [0] is a value of a bool flag, [yes] is not. *)
Lemma bool_flag_literals_witness :
  findFlagValue ["0"; "x"] (TBasic None reflect.Bool) = ("0", ["x"], None)
  /\ findFlagValue ["yes"; "x"] (TBasic None reflect.Bool)
     = ("true", ["yes"; "x"], None).
Proof.
  split.
  - exact (bool_flag_literals "0" ["x"] (TBasic None reflect.Bool) eq_refl).
  - exact (bool_flag_literals "yes" ["x"] (TBasic None reflect.Bool) eq_refl).
Defined.

(** X23 at work. *)
Lemma int_field_is_never_negative_witness :
  (exists z, DInt 12 = DInt z /\ (0 <= z)%Z /\ strconv.Atoi "12" = (z, None))
  /\ findFlagValue ["-5"; "x"] (TBasic None reflect.Int)
     = (EmptyString, [], Some (errorString "no value found")).
Proof.
  destruct (int_field_is_never_negative Demo.ParseFloat Demo.UnmarshalText
              ["12"; "x"] "12" ["x"] (DInt 0) (DInt 12) eq_refl eq_refl)
    as [H1 H2].
  split; [exact H1 | apply H2].
Defined.

(** X24 at work: [-zzz] comes back, [-count] does not. *)
Lemma unused_flags_name_no_field_witness :
  Forall (fun arg => strings.HasPrefix arg "-" = true ->
                     findFieldIndex (strings.TrimLeft arg "-") Demo.Config [] = Val [])
         ["pos"; "-zzz"; "x"].
Proof.
  apply (unused_flags_name_no_field Demo.ParseFloat Demo.UnmarshalText
           ["pos"; "-count"; "3"; "-zzz"; "x"] None Demo.Config Demo.zeroConfig
           (Some (TPtr None Demo.Config,
                  DPtr (Some (DStruct (reflect.replaceNth
                                         (Demo.contentsOf Demo.zeroConfig) 2 (DInt 3))))))
           ["pos"; "-zzz"; "x"] eq_refl).
  vm_compute. reflexivity.
Defined.

(** X25 at work: [Server] has an int and a string. *)
Lemma plain_record_never_panics_witness :
  exists str' unused err,
    ApplyTo ["-port"; "x"; "-host"]
      (Some (TPtr None Demo.Server, DPtr (Some (reflect.Zero Demo.Server))))
    = Val (str', unused, err).
Proof.
  apply (plain_record_never_panics Demo.ParseFloat Demo.UnmarshalText
           ["-port"; "x"; "-host"] None
           (Some "Server") (Demo.fieldsOf Demo.Server)
           (Demo.contentsOf (reflect.Zero Demo.Server))).
  - intros f [<- | [<- | []]]; split; reflexivity.
  - reflexivity.
Defined.

End MoreExamples.
